(** * SmartPatch base station: a shallow embedding of the ingestion and
      signal-processing pipeline

    The development follows the Python sources module by module:
    [Globals] (the shared mailboxes), [Mapping] (the control plane),
    [Ble] (acquisition and payload decoding) and [DataProcessing]
    (the DSP stage).  Python dictionaries are [gmap]s, lists are lists,
    [int] is [Z], [float] is the kernel's binary64 [float], exceptions are
    values of [exn] threaded through a small state-and-error monad. *)

From Stdlib Require Import ZArith Floats.
From stdpp Require Import gmap strings list fin_maps.

Set Warnings "-inexact-float".
#[local] Open Scope Z_scope.

(** ** Python exceptions and the state-and-error monad *)

Inductive exn : Type :=
  | KeyError
  | IndexError
  | ValueError
  | OverflowError
  | BadSignalWarning
  | BleakError.

#[global] Instance exn_eq_dec : EqDecision exn.
Proof. solve_decision. Defined.

Inductive result (A : Type) : Type :=
  | Ok (a : A)
  | Raise (e : exn).
Arguments Ok {A} a.
Arguments Raise {A} e.

(** A computation over a mutable store [S]: the store it leaves behind is
    returned also when it raises, as a Python exception leaves the
    mutations made before it in place. *)
Definition M (S A : Type) : Type := S → S * result A.

Definition ret {S A} (a : A) : M S A := λ s, (s, Ok a).
Definition raise {S A} (e : exn) : M S A := λ s, (s, Raise e).
Definition bind {S A B} (k : A → M S B) (m : M S A) : M S B :=
  λ s, match m s with
       | (s', Ok a) => k a s'
       | (s', Raise e) => (s', Raise e)
       end.
#[global] Instance M_ret {S} : MRet (M S) := λ A, ret.
#[global] Instance M_bind {S} : MBind (M S) := λ A B, bind.
#[global] Instance result_ret : MRet result := λ A, Ok.
#[global] Instance result_bind : MBind result := λ A B k r,
  match r with
  | Ok a => k a
  | Raise e => Raise e
  end.
#[global] Instance result_fmap : FMap result := λ A B f r,
  match r with
  | Ok a => Ok (f a)
  | Raise e => Raise e
  end.

(** A [for] loop that threads an accumulator and stops at the first
    exception. *)
Fixpoint for_each {A B} (body : B → A → result B) (acc : B) (l : list A)
    : result B :=
  match l with
  | [] => Ok acc
  | x :: l' =>
      match body acc x with
      | Ok acc' => for_each body acc' l'
      | Raise e => Raise e
      end
  end.

Definition get {S} : M S S := λ s, (s, Ok s).
Definition modify {S} (f : S → S) : M S unit := λ s, (f s, Ok tt).
Definition lift {S A} (r : result A) : M S A := λ s, (s, r).

(** [if b: m] *)
Definition when {S} (b : bool) (m : M S unit) : M S unit :=
  if b then m else ret tt.

(** [try: body except (classes): handler]: an exception outside [classes]
    propagates. *)
Definition try_except {S A} (body : M S A) (classes : exn → bool)
    (handler : exn → M S A) : M S A :=
  λ s, match body s with
       | (s', Ok a) => (s', Ok a)
       | (s', Raise e) => if classes e then handler e s' else (s', Raise e)
       end.

(** [d[k]]: raises [KeyError] on a missing key. *)
Definition subscript `{Countable K} {V} (d : gmap K V) (k : K) : result V :=
  match d !! k with
  | Some v => Ok v
  | None => Raise KeyError
  end.

(** [l[i]] for a non-negative [i]: raises [IndexError] out of range. *)
Definition item {A} (l : list A) (i : nat) : result A :=
  match l !! i with
  | Some a => Ok a
  | None => Raise IndexError
  end.

(** [l[j]] for any integer [j]: a negative [j] counts from the end. *)
Definition index {A} (l : list A) (j : Z) : result A :=
  let n := Z.of_nat (length l) in
  let k := if j <? 0 then j + n else j in
  if (0 <=? k) && (k <? n) then item l (Z.to_nat k) else Raise IndexError.

(** [l[lo:hi]] for non-negative bounds. *)
Definition slice {A} (l : list A) (lo hi : nat) : list A :=
  take (hi - lo) (drop lo l).

(** [l[-n:]]: the newest [n] elements, the whole list when it is shorter. *)
Definition last_n {A} (n : nat) (l : list A) : list A :=
  drop (length l - n) l.

(** [repr(k)] of a string without quotes, backslashes or control
    characters, as the address of a patch is. *)
Definition py_repr (k : string) : string := "'" +:+ k +:+ "'".

(** ** Python numbers

    [float] is IEEE 754 binary64, as Python's [float] and numpy's
    [float64]; [int] is [Z]. *)

(** [float(z)]: the nearest binary64 value. *)
Definition float_of_Z (z : Z) : float :=
  SF2Prim (binary_normalize prec emax z 0 false).

(** The integer nearest to [m * 2^e], ties to the even one. *)
Definition round_half_even (m : positive) (e : Z) : Z :=
  if 0 <=? e then Z.pos m * 2 ^ e
  else
    let d := 2 ^ (- e) in
    let q := Z.pos m / d in
    let r := Z.pos m mod d in
    match 2 * r ?= d with
    | Lt => q
    | Gt => q + 1
    | Eq => if Z.even q then q else q + 1
    end.

(** [round(x)] with one argument: an [int]; it raises [OverflowError] on an
    infinity and [ValueError] on a NaN. *)
Definition py_round (x : float) : result Z :=
  match Prim2SF x with
  | S754_zero _ => Ok 0
  | S754_finite s m e =>
      Ok (if s then - round_half_even m e else round_half_even m e)
  | S754_infinity _ => Raise OverflowError
  | S754_nan => Raise ValueError
  end.

(** The builtin [max(iterable)]: the first element is kept until a later
    one compares greater; [ValueError] on an empty sequence. *)
Definition py_max (l : list float) : result float :=
  match l with
  | [] => Raise ValueError
  | x :: rest => Ok (foldl (λ best y, if (best <? y)%float then y else best) x rest)
  end.

(** [sum(iterable)] over integers. *)
Definition py_sum (l : list Z) : Z := foldl Z.add 0 l.

(** [np.reshape(val, (-1, cols))]: [ValueError] unless the length is a
    multiple of [cols]. *)
Fixpoint rows_of {A} (fuel cols : nat) (val : list A) : list (list A) :=
  match fuel with
  | O => []
  | S fuel' =>
      match val with
      | [] => []
      | _ => take cols val :: rows_of fuel' cols (drop cols val)
      end
  end.
Definition np_reshape {A} (val : list A) (cols : nat) : result (list (list A)) :=
  if bool_decide ((length val) `mod` cols = 0)%nat
  then Ok (rows_of (length val) cols val)
  else Raise ValueError.

(** [a[:, c]] on an array of integer rows. *)
Definition column (c : nat) (a : list (list Z)) : list Z :=
  (λ row, default 0 (row !! c)) <$> a.
Definition fcolumn (c : nat) (a : list (list float)) : list float :=
  (λ row, default 0%float (row !! c)) <$> a.

(** [np.diag(v)] *)
Definition np_diag (v : list float) : list (list float) :=
  imap (λ i x, <[i := x]> (replicate (length v) 0%float)) v.

(** [np.matmul(a, b)] for an integer array [a] (cast to float64 first)
    and a float array [b]: every entry is the dot product of a row of [a]
    with a column of [b]. *)
Definition dot (u v : list float) : float :=
  foldl (λ acc xy, (acc + xy.1 * xy.2)%float) 0%float (zip u v).
Definition np_matmul (a : list (list Z)) (b : list (list float)) : list (list float) :=
  (λ row, (λ c, dot (float_of_Z <$> row) (fcolumn c b))
            <$> seq 0 (length (default [] (head b)))) <$> a.

(** [np.argmax(a)]: the index of the first maximum, a NaN counting as
    maximal; [ValueError] on an empty array. *)
Fixpoint argmax_from (mp : float) (max_ind i : nat) (ip : list float) : nat :=
  match ip with
  | [] => max_ind
  | x :: ip' =>
      if negb (x <=? mp)%float
      then if is_nan x then i else argmax_from x i (S i) ip'
      else argmax_from mp max_ind (S i) ip'
  end.
Definition np_argmax (a : list float) : result nat :=
  match a with
  | [] => Raise ValueError
  | mp :: ip => Ok (if is_nan mp then O else argmax_from mp O 1%nat ip)
  end.

(** ** Globals.py *)

Module Globals.

(** A raw sample as the notification callback builds it:
    [{'ts': timestamp, 'values': {char: converted_data}}]. *)
Record raw_sample : Type := {
  ts : Z;
  values : gmap string (list Z);
}.

(** [int] and [float] values that meet in one slot. *)
Inductive number : Type :=
  | Int (z : Z)
  | Float (f : float).

(** A processed datapoint as [write_back] builds it. *)
Record datapoint : Type := {
  dp_ts : Z;
  firmwareVersion : float;
  batteryPercentage : number;
  temperature : float;
  heartrate : Z;
  respirationRate : float;
  bloodOxygenation : Z;
  activityLevel : Z;
}.

(** [processed_data] holds datapoints when the DSP stage runs and the raw
    samples themselves in pass-through mode. *)
Inductive sample : Type :=
  | Raw (r : raw_sample)
  | Processed (d : datapoint).

Record t : Type := {
  connected_devices : gmap string string;
  mac_address_update : gmap string string;
  patient_mapping : gmap string string;
  smartpatch_config_update : Z;
  unprocessed_data : gmap string (list raw_sample);
  processed_data : gmap string (list sample);
  (** the messages handed to [logging.exception], oldest first *)
  log : list string;
}.

Definition set_connected_devices (v : gmap string string) (g : t) : t :=
  {| connected_devices := v;
     mac_address_update := mac_address_update g;
     patient_mapping := patient_mapping g;
     smartpatch_config_update := smartpatch_config_update g;
     unprocessed_data := unprocessed_data g;
     processed_data := processed_data g;
     log := log g |}.

Definition set_mac_address_update (v : gmap string string) (g : t) : t :=
  {| connected_devices := connected_devices g;
     mac_address_update := v;
     patient_mapping := patient_mapping g;
     smartpatch_config_update := smartpatch_config_update g;
     unprocessed_data := unprocessed_data g;
     processed_data := processed_data g;
     log := log g |}.

Definition set_patient_mapping (v : gmap string string) (g : t) : t :=
  {| connected_devices := connected_devices g;
     mac_address_update := mac_address_update g;
     patient_mapping := v;
     smartpatch_config_update := smartpatch_config_update g;
     unprocessed_data := unprocessed_data g;
     processed_data := processed_data g;
     log := log g |}.

Definition set_unprocessed_data (v : gmap string (list raw_sample)) (g : t) : t :=
  {| connected_devices := connected_devices g;
     mac_address_update := mac_address_update g;
     patient_mapping := patient_mapping g;
     smartpatch_config_update := smartpatch_config_update g;
     unprocessed_data := v;
     processed_data := processed_data g;
     log := log g |}.

Definition set_processed_data (v : gmap string (list sample)) (g : t) : t :=
  {| connected_devices := connected_devices g;
     mac_address_update := mac_address_update g;
     patient_mapping := patient_mapping g;
     smartpatch_config_update := smartpatch_config_update g;
     unprocessed_data := unprocessed_data g;
     processed_data := v;
     log := log g |}.

(** [logging.exception(msg)] *)
Definition logging_exception (msg : string) (g : t) : t :=
  {| connected_devices := connected_devices g;
     mac_address_update := mac_address_update g;
     patient_mapping := patient_mapping g;
     smartpatch_config_update := smartpatch_config_update g;
     unprocessed_data := unprocessed_data g;
     processed_data := processed_data g;
     log := log g ++ [msg] |}.

Definition set_smartpatch_config_update (v : Z) (g : t) : t :=
  {| connected_devices := connected_devices g;
     mac_address_update := mac_address_update g;
     patient_mapping := patient_mapping g;
     smartpatch_config_update := v;
     unprocessed_data := unprocessed_data g;
     processed_data := processed_data g;
     log := log g |}.

(** The module as it is loaded: every mailbox empty. *)
Definition initial : t :=
  {| connected_devices := ∅;
     mac_address_update := ∅;
     patient_mapping := ∅;
     smartpatch_config_update := 0;
     unprocessed_data := ∅;
     processed_data := ∅;
     log := [] |}.

End Globals.

(** ** Mapping.py *)

Module Mapping.
Import Globals.

(** [d.pop(key)] on the patient mapping: raises [KeyError] when the key is
    missing. *)
Definition patient_mapping_pop (key : string) : M Globals.t string :=
  g ← get;
  v ← lift (subscript (patient_mapping g) key);
  modify (λ g, set_patient_mapping (delete key (patient_mapping g)) g);;
  ret v.

(** The addresses gathered by the first loop of [connect_update]:
    [for address in patient_mapping: if patient_mapping[address] ==
    patient_name: to_delete.append(address)]. *)
Definition gather_previous (patient_name : string)
    (pm : gmap string string) : list string :=
  (filter (λ kv, kv.2 = patient_name) (map_to_list pm)).*1.

(** The second loop: [patient_mapping.pop(previous_address);
    mac_address_update[previous_address] = 'remove']. *)
Fixpoint delete_previous (to_delete : list string) : M Globals.t unit :=
  match to_delete with
  | [] => ret tt
  | previous_address :: rest =>
      patient_mapping_pop previous_address;;
      modify (λ g, set_mac_address_update
                     (<[previous_address := "remove"]> (mac_address_update g)) g);;
      delete_previous rest
  end.

Definition connect_update (patient_name mac_address : string) : M Globals.t unit :=
  g ← get;
  (if bool_decide (patient_name ∈ (map_to_list (patient_mapping g)).*2)
   then delete_previous (gather_previous patient_name (patient_mapping g))
   else ret tt);;
  modify (λ g, set_patient_mapping
                 (<[mac_address := patient_name]> (patient_mapping g)) g);;
  modify (λ g, set_mac_address_update
                 (<[mac_address := "add"]> (mac_address_update g)) g).

(** [disconnect_update] *)
Definition disconnect_update (mac_address : string) : M Globals.t unit :=
  (if bool_decide (mac_address ≠ "disconnected")
   then modify (λ g, set_mac_address_update
                       (<[mac_address := "remove"]> (mac_address_update g)) g)
   else ret tt);;
  g ← get;
  if bool_decide (is_Some (patient_mapping g !! mac_address))
  then patient_mapping_pop mac_address;; ret tt
  else ret tt.

(** [get_matching_device(mac_address, current_device_mapping)]: the
    patient bound to the patch, [None] (after a message on the console)
    when there is none. *)
Definition get_matching_device (mac_address : string)
    (current_device_mapping : gmap string string) : option string :=
  match current_device_mapping !! mac_address with
  | Some patient_name => Some patient_name
  | None => None
  end.

(** [smartpatch_config_update(update_content)] *)
Definition smartpatch_config_update (update_content : Z) : M Globals.t unit :=
  modify (set_smartpatch_config_update update_content).

(** The start of [patient_mapping_loop], before it waits for updates:
    [fetched] is what [get_patient_mapping] returned; every mapped patch
    gets an ['add'] request. *)
Definition patient_mapping_init (fetched : gmap string string) : M Globals.t unit :=
  modify (set_patient_mapping fetched);;
  g ← get;
  mapM (λ macAddress : string,
          modify (λ g, set_mac_address_update
                         (<[macAddress := "add"]> (mac_address_update g)) g))
       (map_to_list (patient_mapping g)).*1;;
  ret tt.

End Mapping.

(** ** Ble.py *)

Module Ble.
Import Globals.

(** Handles of the characteristics, in the order the dict lists them. *)
Definition notify_handles_items : list (Z * string) :=
  [(2, "imu"); (6, "ppg"); (25, "audio"); (29, "voltage"); (32, "current");
   (41, "temperature")].
Definition notify_handles : gmap Z string := list_to_map notify_handles_items.

(** Bytes per value. *)
Definition bytes_per_int : gmap string nat :=
  list_to_map [("imu", 2%nat); ("audio", 2%nat); ("ppg", 4%nat);
               ("temperature", 4%nat); ("voltage", 4%nat); ("current", 4%nat)].

Definition byte_value (b : Byte.byte) : Z := Z.of_N (Byte.to_N b).

(** [int.from_bytes(bytes, byteorder='little', signed=signed)]: the bytes
    are accumulated from the most significant (last) one down; with
    [signed], a set top bit of the last byte makes the value negative. *)
Definition int_from_bytes (bytes : list Byte.byte) (signed : bool) : Z :=
  let magnitude :=
    foldr (λ b acc, Z.lor (byte_value b) (Z.shiftl acc 8)) 0 bytes in
  let negative :=
    match last bytes with
    | Some msb => 128 <=? byte_value msb
    | None => false
    end in
  if signed && negative
  then magnitude - Z.shiftl 1 (8 * Z.of_nat (length bytes))
  else magnitude.

(** [convert_data(char, data)].  [int(len(data) / step)] is the quotient
    rounded down ([step] is 2 or 4, and a payload length is far below
    2^53, so the float division is exact up to the truncation). *)
Definition convert_data (char : string) (data : list Byte.byte) : result (list Z) :=
  let signed := bool_decide (char = "ppg") || bool_decide (char = "imu") in
  match subscript bytes_per_int char with
  | Raise e => Raise e
  | Ok step =>
      let converted_data := replicate (length data / step)%nat 0 in
      Ok (foldl
            (λ converted_data index,
               <[index := int_from_bytes
                            (slice data (step * index) (step * (index + 1)))
                            signed]> converted_data)
            converted_data
            (seq 0 (length converted_data)))
  end.

(** The notification callback of a connection task that currently serves
    [address]; [timestamp] is [round(time.time() * 1000)]. *)
Definition callback (address : string) (timestamp : Z) (sender : Z)
    (data : list Byte.byte) : M Globals.t unit :=
  char ← lift (subscript notify_handles sender);
  converted_data ← lift (convert_data char data);
  let sample := {| ts := timestamp; values := {[char := converted_data]} |} in
  modify (λ g,
    match unprocessed_data g !! address with
    | None =>
        set_unprocessed_data (<[address := [sample]]> (unprocessed_data g)) g
    | Some samples =>
        set_unprocessed_data
          (<[address := samples ++ [sample]]> (unprocessed_data g)) g
    end).

(** [search_remove_request(address)] *)
Definition search_remove_request (address : string) : M Globals.t bool :=
  g ← get;
  match mac_address_update g !! address with
  | Some request =>
      if bool_decide (request = "remove") then ret true
      else if bool_decide (request = "add") then
        modify (logging_exception
                  ("device with address " +:+ address +:+ " is already connected"));;
        modify (λ g, set_mac_address_update
                       (delete address (mac_address_update g)) g);;
        ret false
      else ret false
  | None => ret false
  end.

(** The exceptions the link library's calls are guarded against. *)
Definition key_or_bleak_error (e : exn) : bool :=
  bool_decide (e = KeyError) || bool_decide (e = BleakError).

(** [disconnect(device, address)].  The device is the outcome of its calls:
    [stop_notify handle] and [device_disconnect]. *)
Definition disconnect (stop_notify : Z → result unit)
    (device_disconnect : result unit) (address : string) : M Globals.t unit :=
  (* stop notifications *)
  mapM (λ handle : Z * string,
          try_except (lift (stop_notify handle.1)) key_or_bleak_error
            (λ _, modify (logging_exception
                            (address +:+ " : " +:+ handle.2
                             +:+ " notifications could not be stopped"))))
       notify_handles_items;;
  (* disconnect *)
  try_except (lift device_disconnect) (λ e, bool_decide (e = BleakError))
    (λ _, modify (logging_exception (address +:+ " unexpected disconnection")));;
  (* delete remove request *)
  g ← get;
  lift (subscript (mac_address_update g) address);;
  modify (λ g, set_mac_address_update (delete address (mac_address_update g)) g).

(** [add_connected(device, address)]; [read_gatt_char] is the outcome of
    reading and decoding the version characteristic. *)
Definition add_connected (read_gatt_char : result string) (address : string)
    : M Globals.t unit :=
  try_except
    (firmware_version ← lift read_gatt_char;
     modify (λ g, set_connected_devices
                    (<[address := firmware_version]> (connected_devices g)) g))
    key_or_bleak_error
    (λ _, modify (logging_exception
                    (address +:+ ": unable to read firmware version"))).

(** Handles of the characteristics that are read and written. *)
Definition rw_handles : gmap string Z :=
  list_to_map [("version", 36); ("config", 38)].

(** [get_key_from_value(d, val)]: the first key, in the order the dict
    lists its items, whose value is [val]; [keys[0]] raises [IndexError]
    when there is none.  A [gmap] does not record the order of insertion:
    [map_to_list] stands for the order of the items, and nothing proved
    about this function depends on which matching key comes first. *)
Definition get_key_from_value (d : gmap string string) (val : string)
    : result string :=
  let keys := (filter (λ kv, kv.2 = val) (map_to_list d)).*1 in
  item keys 0.

(** [del Globals.mac_address_update[address]]: [KeyError] when the
    address is no key. *)
Definition del_mac_address_update (address : string) : M Globals.t unit :=
  g ← get;
  lift (subscript (mac_address_update g) address);;
  modify (λ g, set_mac_address_update (delete address (mac_address_update g)) g).

(** [search_connectable_devices()] *)
Definition search_connectable_devices : M Globals.t string :=
  g ← get;
  if bool_decide ("add" ∈ (map_to_list (mac_address_update g)).*2) then
    address ← lift (get_key_from_value (mac_address_update g) "add");
    del_mac_address_update address;;
    ret address
  else ret "None".

(** One pass of [while True] in [invalid_remove_request_task], after the
    sleep. *)
Definition invalid_remove_request_pass : M Globals.t unit :=
  g ← get;
  if bool_decide ("remove" ∈ (map_to_list (mac_address_update g)).*2) then
    address ← lift (get_key_from_value (mac_address_update g) "remove");
    if bool_decide (connected_devices g !! address = None) then
      modify (logging_exception ("invalid remove request from " +:+ address));;
      del_mac_address_update address
    else ret tt
  else ret tt.

(** A byte from its value. *)
Definition byte_of_value (z : Z) : Byte.byte :=
  default Byte.x00 (Byte.of_N (Z.to_N (z `mod` 256))).

(** The [length] low bytes of [n], least significant first. *)
Fixpoint little_endian_bytes (n : Z) (length : nat) : list Byte.byte :=
  match length with
  | O => []
  | S length' => byte_of_value n :: little_endian_bytes (n / 256) length'
  end.

(** [n.to_bytes(length=length, byteorder='little')] (unsigned):
    [OverflowError] for a negative [n] and for one that does not fit. *)
Definition int_to_bytes (n : Z) (length : nat) : result (list Byte.byte) :=
  if n <? 0 then Raise OverflowError
  else if 256 ^ Z.of_nat length <=? n then Raise OverflowError
  else Ok (little_endian_bytes n length).

(** [search_config_update(device, address)]; [write_gatt_char handle data]
    is the outcome of the write with response.  The 30 seconds of sleep
    before the update is cleared are not modelled. *)
Definition search_config_update (write_gatt_char : Z → list Byte.byte → result unit)
    (address : string) : M Globals.t unit :=
  g ← get;
  if bool_decide (smartpatch_config_update g ≠ 0) then
    let new_config := smartpatch_config_update g in
    config_bytes ← lift (int_to_bytes new_config 1);
    try_except (config_handle ← lift (subscript rw_handles "config");
                lift (write_gatt_char config_handle config_bytes))
      (λ e, bool_decide (e = BleakError))
      (λ _, modify (logging_exception
                      (address +:+ ": unable to write configuration update")));;
    modify (set_smartpatch_config_update 0)
  else ret tt.

End Ble.

(** ** DataProcessing.py *)

Module DataProcessing.
Import Globals.

(** The module's variables, together with the shared mailboxes. *)
Record state : Type := {
  duration : gmap string Z;
  current_ts : gmap string Z;
  local_data : list raw_sample;
  local_imu_raw : gmap string (list (list Z));
  local_imu_converted : gmap string (list (list float));
  local_ppg : gmap string (list (list Z));
  local_temp : gmap string (list float);
  local_voltage : gmap string (list Z);
  local_activity_level : gmap string (list Z);
  local_battery_percentage : gmap string float;
  local_HR : gmap string (list Z);
  local_SPO2 : gmap string (list Z);
  hp_HR : gmap string (list float);
  hp_RMSSD : gmap string (list float);
  hp_RR : gmap string (list float);
  globals : Globals.t;
}.

Definition set_duration (v : gmap string Z) (s : state) : state :=
  {| duration := v;
     current_ts := current_ts s;
     local_data := local_data s;
     local_imu_raw := local_imu_raw s;
     local_imu_converted := local_imu_converted s;
     local_ppg := local_ppg s;
     local_temp := local_temp s;
     local_voltage := local_voltage s;
     local_activity_level := local_activity_level s;
     local_battery_percentage := local_battery_percentage s;
     local_HR := local_HR s;
     local_SPO2 := local_SPO2 s;
     hp_HR := hp_HR s;
     hp_RMSSD := hp_RMSSD s;
     hp_RR := hp_RR s;
     globals := globals s |}.

Definition set_current_ts (v : gmap string Z) (s : state) : state :=
  {| duration := duration s;
     current_ts := v;
     local_data := local_data s;
     local_imu_raw := local_imu_raw s;
     local_imu_converted := local_imu_converted s;
     local_ppg := local_ppg s;
     local_temp := local_temp s;
     local_voltage := local_voltage s;
     local_activity_level := local_activity_level s;
     local_battery_percentage := local_battery_percentage s;
     local_HR := local_HR s;
     local_SPO2 := local_SPO2 s;
     hp_HR := hp_HR s;
     hp_RMSSD := hp_RMSSD s;
     hp_RR := hp_RR s;
     globals := globals s |}.

Definition set_local_data (v : list raw_sample) (s : state) : state :=
  {| duration := duration s;
     current_ts := current_ts s;
     local_data := v;
     local_imu_raw := local_imu_raw s;
     local_imu_converted := local_imu_converted s;
     local_ppg := local_ppg s;
     local_temp := local_temp s;
     local_voltage := local_voltage s;
     local_activity_level := local_activity_level s;
     local_battery_percentage := local_battery_percentage s;
     local_HR := local_HR s;
     local_SPO2 := local_SPO2 s;
     hp_HR := hp_HR s;
     hp_RMSSD := hp_RMSSD s;
     hp_RR := hp_RR s;
     globals := globals s |}.

Definition set_local_imu_raw (v : gmap string (list (list Z))) (s : state) : state :=
  {| duration := duration s;
     current_ts := current_ts s;
     local_data := local_data s;
     local_imu_raw := v;
     local_imu_converted := local_imu_converted s;
     local_ppg := local_ppg s;
     local_temp := local_temp s;
     local_voltage := local_voltage s;
     local_activity_level := local_activity_level s;
     local_battery_percentage := local_battery_percentage s;
     local_HR := local_HR s;
     local_SPO2 := local_SPO2 s;
     hp_HR := hp_HR s;
     hp_RMSSD := hp_RMSSD s;
     hp_RR := hp_RR s;
     globals := globals s |}.

Definition set_local_imu_converted (v : gmap string (list (list float))) (s : state) : state :=
  {| duration := duration s;
     current_ts := current_ts s;
     local_data := local_data s;
     local_imu_raw := local_imu_raw s;
     local_imu_converted := v;
     local_ppg := local_ppg s;
     local_temp := local_temp s;
     local_voltage := local_voltage s;
     local_activity_level := local_activity_level s;
     local_battery_percentage := local_battery_percentage s;
     local_HR := local_HR s;
     local_SPO2 := local_SPO2 s;
     hp_HR := hp_HR s;
     hp_RMSSD := hp_RMSSD s;
     hp_RR := hp_RR s;
     globals := globals s |}.

Definition set_local_ppg (v : gmap string (list (list Z))) (s : state) : state :=
  {| duration := duration s;
     current_ts := current_ts s;
     local_data := local_data s;
     local_imu_raw := local_imu_raw s;
     local_imu_converted := local_imu_converted s;
     local_ppg := v;
     local_temp := local_temp s;
     local_voltage := local_voltage s;
     local_activity_level := local_activity_level s;
     local_battery_percentage := local_battery_percentage s;
     local_HR := local_HR s;
     local_SPO2 := local_SPO2 s;
     hp_HR := hp_HR s;
     hp_RMSSD := hp_RMSSD s;
     hp_RR := hp_RR s;
     globals := globals s |}.

Definition set_local_temp (v : gmap string (list float)) (s : state) : state :=
  {| duration := duration s;
     current_ts := current_ts s;
     local_data := local_data s;
     local_imu_raw := local_imu_raw s;
     local_imu_converted := local_imu_converted s;
     local_ppg := local_ppg s;
     local_temp := v;
     local_voltage := local_voltage s;
     local_activity_level := local_activity_level s;
     local_battery_percentage := local_battery_percentage s;
     local_HR := local_HR s;
     local_SPO2 := local_SPO2 s;
     hp_HR := hp_HR s;
     hp_RMSSD := hp_RMSSD s;
     hp_RR := hp_RR s;
     globals := globals s |}.

Definition set_local_voltage (v : gmap string (list Z)) (s : state) : state :=
  {| duration := duration s;
     current_ts := current_ts s;
     local_data := local_data s;
     local_imu_raw := local_imu_raw s;
     local_imu_converted := local_imu_converted s;
     local_ppg := local_ppg s;
     local_temp := local_temp s;
     local_voltage := v;
     local_activity_level := local_activity_level s;
     local_battery_percentage := local_battery_percentage s;
     local_HR := local_HR s;
     local_SPO2 := local_SPO2 s;
     hp_HR := hp_HR s;
     hp_RMSSD := hp_RMSSD s;
     hp_RR := hp_RR s;
     globals := globals s |}.

Definition set_local_activity_level (v : gmap string (list Z)) (s : state) : state :=
  {| duration := duration s;
     current_ts := current_ts s;
     local_data := local_data s;
     local_imu_raw := local_imu_raw s;
     local_imu_converted := local_imu_converted s;
     local_ppg := local_ppg s;
     local_temp := local_temp s;
     local_voltage := local_voltage s;
     local_activity_level := v;
     local_battery_percentage := local_battery_percentage s;
     local_HR := local_HR s;
     local_SPO2 := local_SPO2 s;
     hp_HR := hp_HR s;
     hp_RMSSD := hp_RMSSD s;
     hp_RR := hp_RR s;
     globals := globals s |}.

Definition set_local_battery_percentage (v : gmap string float) (s : state) : state :=
  {| duration := duration s;
     current_ts := current_ts s;
     local_data := local_data s;
     local_imu_raw := local_imu_raw s;
     local_imu_converted := local_imu_converted s;
     local_ppg := local_ppg s;
     local_temp := local_temp s;
     local_voltage := local_voltage s;
     local_activity_level := local_activity_level s;
     local_battery_percentage := v;
     local_HR := local_HR s;
     local_SPO2 := local_SPO2 s;
     hp_HR := hp_HR s;
     hp_RMSSD := hp_RMSSD s;
     hp_RR := hp_RR s;
     globals := globals s |}.

Definition set_local_HR (v : gmap string (list Z)) (s : state) : state :=
  {| duration := duration s;
     current_ts := current_ts s;
     local_data := local_data s;
     local_imu_raw := local_imu_raw s;
     local_imu_converted := local_imu_converted s;
     local_ppg := local_ppg s;
     local_temp := local_temp s;
     local_voltage := local_voltage s;
     local_activity_level := local_activity_level s;
     local_battery_percentage := local_battery_percentage s;
     local_HR := v;
     local_SPO2 := local_SPO2 s;
     hp_HR := hp_HR s;
     hp_RMSSD := hp_RMSSD s;
     hp_RR := hp_RR s;
     globals := globals s |}.

Definition set_local_SPO2 (v : gmap string (list Z)) (s : state) : state :=
  {| duration := duration s;
     current_ts := current_ts s;
     local_data := local_data s;
     local_imu_raw := local_imu_raw s;
     local_imu_converted := local_imu_converted s;
     local_ppg := local_ppg s;
     local_temp := local_temp s;
     local_voltage := local_voltage s;
     local_activity_level := local_activity_level s;
     local_battery_percentage := local_battery_percentage s;
     local_HR := local_HR s;
     local_SPO2 := v;
     hp_HR := hp_HR s;
     hp_RMSSD := hp_RMSSD s;
     hp_RR := hp_RR s;
     globals := globals s |}.

Definition set_hp_HR (v : gmap string (list float)) (s : state) : state :=
  {| duration := duration s;
     current_ts := current_ts s;
     local_data := local_data s;
     local_imu_raw := local_imu_raw s;
     local_imu_converted := local_imu_converted s;
     local_ppg := local_ppg s;
     local_temp := local_temp s;
     local_voltage := local_voltage s;
     local_activity_level := local_activity_level s;
     local_battery_percentage := local_battery_percentage s;
     local_HR := local_HR s;
     local_SPO2 := local_SPO2 s;
     hp_HR := v;
     hp_RMSSD := hp_RMSSD s;
     hp_RR := hp_RR s;
     globals := globals s |}.

Definition set_hp_RMSSD (v : gmap string (list float)) (s : state) : state :=
  {| duration := duration s;
     current_ts := current_ts s;
     local_data := local_data s;
     local_imu_raw := local_imu_raw s;
     local_imu_converted := local_imu_converted s;
     local_ppg := local_ppg s;
     local_temp := local_temp s;
     local_voltage := local_voltage s;
     local_activity_level := local_activity_level s;
     local_battery_percentage := local_battery_percentage s;
     local_HR := local_HR s;
     local_SPO2 := local_SPO2 s;
     hp_HR := hp_HR s;
     hp_RMSSD := v;
     hp_RR := hp_RR s;
     globals := globals s |}.

Definition set_hp_RR (v : gmap string (list float)) (s : state) : state :=
  {| duration := duration s;
     current_ts := current_ts s;
     local_data := local_data s;
     local_imu_raw := local_imu_raw s;
     local_imu_converted := local_imu_converted s;
     local_ppg := local_ppg s;
     local_temp := local_temp s;
     local_voltage := local_voltage s;
     local_activity_level := local_activity_level s;
     local_battery_percentage := local_battery_percentage s;
     local_HR := local_HR s;
     local_SPO2 := local_SPO2 s;
     hp_HR := hp_HR s;
     hp_RMSSD := hp_RMSSD s;
     hp_RR := v;
     globals := globals s |}.

Definition set_globals (v : Globals.t) (s : state) : state :=
  {| duration := duration s;
     current_ts := current_ts s;
     local_data := local_data s;
     local_imu_raw := local_imu_raw s;
     local_imu_converted := local_imu_converted s;
     local_ppg := local_ppg s;
     local_temp := local_temp s;
     local_voltage := local_voltage s;
     local_activity_level := local_activity_level s;
     local_battery_percentage := local_battery_percentage s;
     local_HR := local_HR s;
     local_SPO2 := local_SPO2 s;
     hp_HR := hp_HR s;
     hp_RMSSD := hp_RMSSD s;
     hp_RR := hp_RR s;
     globals := v |}.

Definition initial : state :=
  {| duration := ∅;
     current_ts := ∅;
     local_data := [];
     local_imu_raw := ∅;
     local_imu_converted := ∅;
     local_ppg := ∅;
     local_temp := ∅;
     local_voltage := ∅;
     local_activity_level := ∅;
     local_battery_percentage := ∅;
     local_HR := ∅;
     local_SPO2 := ∅;
     hp_HR := ∅;
     hp_RMSSD := ∅;
     hp_RR := ∅;
     globals := Globals.initial |}.

(** [d[address].append(x)], creating the list on the first sample:
    [if address not in d: d[address] = [x] else: d[address].append(x)]. *)
Definition append_at {A} (address : string) (x : A)
    (d : gmap string (list A)) : gmap string (list A) :=
  match d !! address with
  | None => <[address := [x]]> d
  | Some l => <[address := l ++ [x]]> d
  end.

(** the same for whole blocks of rows: [np.reshape] on the first batch,
    [np.append(d[address], rows, 0)] afterwards *)
Definition append_rows_at {A} (address : string) (rows : list A)
    (d : gmap string (list A)) : gmap string (list A) :=
  match d !! address with
  | None => <[address := rows]> d
  | Some l => <[address := l ++ rows]> d
  end.

(** Definitions for the PPG signal analysis. *)
Definition SAMPLING_FREQUENCY : Z := 100.
Definition SAMPLE_DURATION : Z := 20.
Definition SAMPLE_LENGTH : nat := Z.to_nat (SAMPLING_FREQUENCY * SAMPLE_DURATION).
Definition SAMPLING_PERIOD : float := (1.0 / float_of_Z SAMPLING_FREQUENCY)%float.

(** [xf = fftfreq(SAMPLE_LENGTH, SAMPLING_PERIOD)[:SAMPLE_LENGTH // 2]]:
    entry [k] is [k * (1.0 / (n * d))]. *)
Definition xf : list float :=
  (λ k : nat, (float_of_Z (Z.of_nat k)
               * (1.0 / (float_of_Z (Z.of_nat SAMPLE_LENGTH) * SAMPLING_PERIOD)))%float)
    <$> seq 0 (SAMPLE_LENGTH / 2).

(** Coefficients for the blood oxygen level estimation. *)
Definition a_coeff : float := 1.5958422%float.
Definition b_coeff : float := (-34.6596622)%float.
Definition c_coeff : float := 112.6898759%float.

(** One statement of [delete_old_data]:
    [if len(w[address]) > cap: w[address] = w[address][k:]], for the
    window dictionary [w] read by [window_of] and written by
    [set_window]. *)
Definition trim_window {A} (window_of : state → gmap string (list A))
    (set_window : gmap string (list A) → state → state) (cap k : nat)
    (address : string) : M state unit :=
  s ← get;
  window ← lift (subscript (window_of s) address);
  when (cap <? length window)%nat
    (modify (λ s, set_window (<[address := drop k window]> (window_of s)) s)).

(** [delete_old_data(address)]; only the voltage window is guarded by
    [if address in local_voltage]. *)
Definition delete_old_data (address : string) : M state unit :=
  trim_window local_ppg set_local_ppg 5000 4000 address;;
  trim_window local_imu_raw set_local_imu_raw 2000 1000 address;;
  trim_window local_temp set_local_temp 200 100 address;;
  (s ← get;
   when (bool_decide (is_Some (local_voltage s !! address)))
     (trim_window local_voltage set_local_voltage 200 100 address));;
  trim_window local_activity_level set_local_activity_level 200 100 address;;
  trim_window local_imu_converted set_local_imu_converted 2000 1000 address;;
  trim_window local_HR set_local_HR 200 100 address;;
  trim_window local_SPO2 set_local_SPO2 200 100 address.

(** [split_data(address)]: one [(char, val)] item of a datapoint. *)
Definition split_value (address char : string) (val : list Z) : M state unit :=
  if bool_decide (char = "ppg") then
    rows ← lift (np_reshape val 3);
    modify (λ s, set_local_ppg (append_rows_at address rows (local_ppg s)) s)
  else if bool_decide (char = "imu") then
    rows ← lift (np_reshape val 6);
    modify (λ s, set_local_imu_raw (append_rows_at address rows (local_imu_raw s)) s)
  else if bool_decide (char = "temperature") then
    v ← lift (item val 0);
    modify (λ s, set_local_temp
                   (append_at address (float_of_Z v / 200.0)%float (local_temp s)) s)
  else if bool_decide (char = "voltage") then
    v ← lift (item val 0);
    modify (λ s, set_local_voltage (append_at address v (local_voltage s)) s)
  else ret tt (* print("unknown datatype received") *).

Definition split_data (address : string) : M state unit :=
  s ← get;
  mapM (λ datapoint : raw_sample,
          mapM (λ item : string * list Z, split_value address item.1 item.2)
               (map_to_list (values datapoint)))
       (local_data s);;
  modify (set_local_data []).

(** [write_back(address)] *)
Definition write_back (address : string) : M state unit :=
  s ← get;
  let battery_percentage :=
    match local_battery_percentage s !! address with
    | Some percentage => Float percentage
    | None => Int 100
    end in
  ts ← lift (subscript (current_ts s) address);
  temperature ← lift (subscript (local_temp s) address ≫= λ l, index l (-1));
  heartrate ← lift (subscript (local_HR s) address ≫= λ l, index l (-1));
  respirationRate ← lift (subscript (hp_RR s) address ≫= λ l, index l (-1));
  bloodOxygenation ← lift (subscript (local_SPO2 s) address ≫= λ l, index l (-1));
  activityLevel ← lift (subscript (local_activity_level s) address ≫= λ l, index l (-1));
  let sp_data :=
    Processed {| dp_ts := ts;
                 firmwareVersion := 1.23%float;
                 batteryPercentage := battery_percentage;
                 temperature := temperature;
                 heartrate := heartrate;
                 respirationRate := respirationRate;
                 bloodOxygenation := bloodOxygenation;
                 activityLevel := activityLevel |} in
  modify (λ s, set_globals
                 (set_processed_data
                    (append_at address sp_data (processed_data (globals s)))
                    (globals s)) s).

(** One pass of the loop [for i in range(120)] of [imu_conversion]:
    [np.sqrt(c[-i, 3] ** 2 + c[-i, 4] ** 2 + c[-i, 5] ** 2)], the square
    being the correctly rounded product. *)
Definition magnitude_at (converted : list (list float)) (i : nat) : result float :=
  row ← index converted (- Z.of_nat i);
  x ← item row 3;
  y ← item row 4;
  z ← item row 5;
  mret (PrimFloat.sqrt (x * x + y * y + z * z))%float.

(** [imu_conversion(address)] *)
Definition imu_conversion (address : string) : M state unit :=
  s ← get;
  let a := [[0.0175; 0.0175; 0.0175; 0.000598; 0.000598; 0.000598]%float] in
  let conversion_matrix := np_diag (default [] (head a)) in
  raw ← lift (subscript (local_imu_raw s) address);
  let converted := np_matmul raw conversion_matrix in
  modify (λ s, set_local_imu_converted
                 (<[address := converted]> (local_imu_converted s)) s);;
  xmx ← lift (py_max (fcolumn 3 (last_n 120 converted)));
  xmy ← lift (py_max (fcolumn 4 (last_n 120 converted)));
  xmz ← lift (py_max (fcolumn 5 (last_n 120 converted)));
  abs_xl ← lift (for_each (λ abs_xl i, m ← magnitude_at converted i;
                                      mret (<[i := m]> abs_xl))
                        (replicate 120 0%float) (seq 0 120));
  strongest ← lift (py_max abs_xl);
  let activity := if (12.0 <? strongest)%float then 1 else 0 in
  modify (λ s, set_local_activity_level
                 (append_at address activity (local_activity_level s)) s).

(** [calc_battery_percentage(address)] *)
Definition calc_battery_percentage (address : string) : M state unit :=
  s ← get;
  match local_voltage s !! address with
  | Some voltages =>
      voltage ← lift (index voltages (-1));
      if 3650 <? voltage
      then modify (λ s, set_local_battery_percentage
                          (<[address := (float_of_Z 12
                                         + 0.176 * float_of_Z (voltage - 3650))%float]>
                             (local_battery_percentage s)) s)
      else modify (λ s, set_local_battery_percentage
                          (<[address := (0.0342 * float_of_Z (voltage - 3650))%float]>
                             (local_battery_percentage s)) s)
  | None => ret tt
  end.

(** What [hp.process] reports, as far as the stage reads it. *)
Record measures : Type := {
  bpm : float;
  rmssd : float;
  breathingrate : float;
}.

Section signal_libraries.

(** The numerical libraries the stage calls into: scipy's filter design
    and FFT, numpy's complex modulus and heartpy.  Each is a function of
    its arguments that may raise. *)
Context {complex : Type}.
(** [filtfilt(b, a, x)] for [b, a = butter(3, [low, high], 'band', fs=100)] *)
Variable butter_filtfilt : float → float → list Z → result (list float).
Variable fft : list float → result (list complex).
Variable np_abs : complex → float.
(** [hp.filter_signal(x, [0.05, 3.5], sample_rate=100.0, order=3,
    filtertype='bandpass')] *)
Variable hp_filter_signal : list Z → result (list float).
(** [hp.process(filtered, sample_rate=100.0, report_time=False)]; it
    raises [BadSignalWarning] on a signal it cannot use. *)
Variable hp_process : list float → result measures.
(** The message heartpy raises [BadSignalWarning] with. *)
Variable bad_signal_message : string.

(** The blood oxygen estimate of [ppg_analysis] from the AC and DC
    components: [R], the polynomial, [round] and the clip. *)
Definition ratio_of_ratios (ac_red dc_red ac_ir dc_ir : float) : float :=
  ((ac_red / dc_red) / (ac_ir / dc_ir))%float.
(** [a_coeff * (R ** 2) + b_coeff * R + c_coeff], the square being the
    correctly rounded product *)
Definition spo2_polynomial (R : float) : float :=
  (a_coeff * (R * R) + b_coeff * R + c_coeff)%float.
Definition spo2_clip (SPO2 : Z) : Z := if 100 <? SPO2 then 100 else SPO2.

(** [ppg_analysis(address)] *)
Definition ppg_analysis (address : string) : M state unit :=
  s ← get;
  ppg ← lift (subscript (local_ppg s) address);
  filtered_red ← lift (butter_filtfilt 0.7 3.5 (column 0 (last_n SAMPLE_LENGTH ppg)));
  filtered_ir ← lift (butter_filtfilt 0.7 3.5 (column 1 (last_n SAMPLE_LENGTH ppg)));
  filtered_green ← lift (butter_filtfilt 0.7 3.5 (column 2 (last_n SAMPLE_LENGTH ppg)));
  (* heart rate from the dominant frequency of the green channel *)
  yf ← lift (fft filtered_green);
  let plot_start := 15%nat in (* int(0.75 * SAMPLE_DURATION) *)
  let plot_stop := 70%nat in (* int(3.5 * SAMPLE_DURATION) *)
  let a := np_abs <$> slice yf plot_start plot_stop in
  argmax ← lift (np_argmax a);
  let hr_index := (argmax + plot_start)%nat in
  HR ← lift (item xf hr_index ≫= λ f, py_round (float_of_Z 60 * f));
  modify (λ s, set_local_HR (append_at address HR (local_HR s)) s);;
  (* AC and DC components of the red and IR channels *)
  ac_red ← lift (fft filtered_red ≫= λ spectrum, item (np_abs <$> spectrum) hr_index);
  ac_ir ← lift (fft filtered_ir ≫= λ spectrum, item (np_abs <$> spectrum) hr_index);
  let dc_red := (float_of_Z (py_sum (column 0 (last_n SAMPLE_LENGTH ppg)))
                 / float_of_Z (Z.of_nat SAMPLE_LENGTH))%float in
  let dc_ir := (float_of_Z (py_sum (column 1 (last_n SAMPLE_LENGTH ppg)))
                / float_of_Z (Z.of_nat SAMPLE_LENGTH))%float in
  let R := ratio_of_ratios ac_red dc_red ac_ir dc_ir in
  SPO2 ← lift (py_round (spo2_polynomial R));
  let SPO2 := spo2_clip SPO2 in
  modify (λ s, set_local_SPO2 (append_at address SPO2 (local_SPO2 s)) s).

(** [heartpy_analysis(address)] *)
Definition heartpy_analysis (address : string) : M state unit :=
  s ← get;
  ppg ← lift (subscript (local_ppg s) address);
  filtered ← lift (hp_filter_signal (column 2 (last_n 2000 ppg)));
  measures ← lift (hp_process filtered);
  modify (λ s, set_hp_HR (append_at address (bpm measures) (hp_HR s)) s);;
  modify (λ s, set_hp_RMSSD (append_at address (rmssd measures) (hp_RMSSD s)) s);;
  modify (λ s, set_hp_RR (append_at address (breathingrate measures) (hp_RR s)) s).

(** The exceptions the per-patch iteration is guarded against. *)
Definition key_error_or_bad_signal (e : exn) : bool :=
  bool_decide (e = KeyError) || bool_decide (e = BadSignalWarning).

(** The pipeline inside [try:] for one patch. *)
Definition pipeline (address : string) : M state unit :=
  split_data address;;
  ppg_analysis address;;
  imu_conversion address;;
  calc_battery_percentage address;;
  heartpy_analysis address;;
  write_back address;;
  delete_old_data address.

(** [str(e)] for an exception [e] caught by [data_processing], as the
    f-string [f"{address} {e}"] shows it.  A [KeyError] shows the [repr]
    of the missing key, and every dictionary of the pipeline is read at
    the address of the patch; a [BadSignalWarning] shows the message
    heartpy raised it with. *)
Definition str_of_caught (address : string) (e : exn) : string :=
  if bool_decide (e = KeyError) then py_repr address else bad_signal_message.

(** One pass of [for address in Globals.unprocessed_data] in
    [data_processing]; [batch] is [Globals.unprocessed_data[address]]. *)
Definition process_patch (address : string) (batch : list raw_sample) : M state unit :=
  start ← lift (ts <$> item batch 0);
  end_ ← lift (ts <$> index batch (-1));
  modify (λ s, set_duration (<[address := end_ - start]> (duration s)) s);;
  modify (λ s, set_current_ts (<[address := end_]> (current_ts s)) s);;
  modify (set_local_data batch);;
  try_except (pipeline address) key_error_or_bad_signal
    (λ e, modify (λ s, set_globals
                         (logging_exception (address +:+ " " +:+ str_of_caught address e)
                            (globals s)) s)).

(** One iteration of [while True] in [data_processing] (between two
    sleeps). *)
Definition data_processing_tick : M state unit :=
  s ← get;
  if bool_decide (unprocessed_data (globals s) ≠ ∅) then
    mapM (λ entry : string * list raw_sample, process_patch entry.1 entry.2)
         (map_to_list (unprocessed_data (globals s)));;
    modify (λ s, set_globals (set_unprocessed_data ∅ (globals s)) s)
  else ret tt.

End signal_libraries.

(** One iteration of [while True] in [no_data_processing]: the raw mailbox
    itself becomes the processed mailbox. *)
Definition no_data_processing_tick : M Globals.t unit :=
  g ← get;
  if bool_decide (unprocessed_data g ≠ ∅) then
    let current_data := unprocessed_data g in
    modify (set_unprocessed_data ∅);;
    modify (set_processed_data ((λ samples : list raw_sample, Raw <$> samples) <$> current_data))
  else ret tt.

End DataProcessing.

(** ** PublishToThingsboard.py *)

Module PublishToThingsboard.
Import Globals.

(** What is published for a patient: a datapoint of the mailbox, or the
    record [{"firmwareVersion": version}] appended to the datapoints. *)
Inductive telemetry : Type :=
  | Datapoint (x : sample)
  | FirmwareVersion (version : string).

(** A message handed to the MQTT client: the access token the client
    authenticated with, the topic, and the datapoint whose [str] is the
    payload. *)
Record message : Type := {
  access_token : string;
  topic : string;
  payload : telemetry;
}.

(** The store of the publishing thread: the shared globals and the
    messages delivered to the broker so far. *)
Record state : Type := {
  globals : Globals.t;
  delivered : list message;
}.

Definition set_globals (v : Globals.t) (s : state) : state :=
  {| globals := v; delivered := delivered s |}.
Definition set_delivered (v : list message) (s : state) : state :=
  {| globals := globals s; delivered := v |}.

Definition telemetry_message (accesstoken : string) (datapoint : telemetry) : message :=
  {| access_token := accesstoken;
     topic := "v1/devices/me/telemetry";
     payload := datapoint |}.

Section mqtt_client.

(** paho's client: [connect] after [username_pw_set(access_token)], and
    [publish] followed by [wait_for_publish]; each is a function of its
    arguments that may raise. *)
Variable client_connect : string → result unit.
Variable client_publish : message → result unit.

(** [DataLogger(input_data={accesstoken: data}).publish_telemetry()] *)
Definition publish_telemetry (accesstoken : string) (data : list telemetry)
    : M state unit :=
  lift (client_connect accesstoken);;
  mapM (λ datapoint : telemetry,
          lift (client_publish (telemetry_message accesstoken datapoint));;
          modify (λ s, set_delivered
                         (delivered s ++ [telemetry_message accesstoken datapoint]) s))
       data;;
  ret tt.

(** One pass of [for macAddress in local_data] in [publishing_loop];
    [if accesstoken] is false for [None] and for the empty string. *)
Definition publish_patch (macAddress : string) (data : list sample) : M state unit :=
  s ← get;
  match Mapping.get_matching_device macAddress (patient_mapping (globals s)) with
  | Some accesstoken =>
      if bool_decide (accesstoken ≠ "") then
        let assigned_data :=
          match connected_devices (globals s) !! macAddress with
          | Some version => (Datapoint <$> data) ++ [FirmwareVersion version]
          | None => Datapoint <$> data
          end in
        publish_telemetry accesstoken assigned_data
      else ret tt
  | None => ret tt
  end.

(** One iteration of [while True] in [publishing_loop].  Its [try] is
    guarded against [ApiException] only, which none of the calls inside
    raises: an exception of the client propagates. *)
Definition publishing_pass : M state unit :=
  s ← get;
  if bool_decide (processed_data (globals s) = ∅) then ret tt
  else
    let local_data := processed_data (globals s) in
    modify (λ s, set_globals (set_processed_data ∅ (globals s)) s);;
    mapM (λ entry : string * list sample, publish_patch entry.1 entry.2)
         (map_to_list local_data);;
    ret tt.

(** One pass of [for macAddress in local_data] in
    [raw_data_publishing_loop]. *)
Definition publish_raw_patch (macAddress : string) (data : list raw_sample)
    : M state unit :=
  s ← get;
  match Mapping.get_matching_device macAddress (patient_mapping (globals s)) with
  | Some accesstoken =>
      if bool_decide (accesstoken ≠ "") then
        publish_telemetry (accesstoken +:+ " Raw Data")
          ((λ x : raw_sample, Datapoint (Raw x)) <$> data)
      else ret tt
  | None => ret tt
  end.

(** One iteration of [while True] in [raw_data_publishing_loop]: the raw
    mailbox is read, not emptied. *)
Definition raw_data_publishing_pass : M state unit :=
  s ← get;
  if bool_decide (unprocessed_data (globals s) = ∅) then ret tt
  else
    let local_data := unprocessed_data (globals s) in
    mapM (λ entry : string * list raw_sample, publish_raw_patch entry.1 entry.2)
         (map_to_list local_data);;
    ret tt.

End mqtt_client.

End PublishToThingsboard.

(** ** SaveLocally.py *)

Module SaveLocally.
Import Globals.

(** A csv file is the list of its rows.  A row written by [write_log] has
    the one column named by the MAC address; its cell is
    [str(data[mac_address])], or the writer's [restval] when [data] has
    no such key. *)
Definition row : Type := option (list sample).

(** The store of the logging thread: the shared globals and the files of
    the log directories. *)
Record state : Type := {
  globals : Globals.t;
  files : gmap string (list row);
}.

Definition set_globals (v : Globals.t) (s : state) : state :=
  {| globals := v; files := files s |}.
Definition set_files (v : gmap string (list row)) (s : state) : state :=
  {| globals := globals s; files := v |}.

(** Paths *)
Definition BACKUP_LOG_PATH : string := "Logs/BackupData/".
Definition RAW_LOG_PATH : string := "Logs/RawData/".

Section file_system.

(** [open(file_name, 'a')]: it may raise; when it returns the file
    exists. *)
Variable open_append : string → result unit.

(** [LocalLogger(data, log_filepath).write_log(mac_address)].
    [csv.DictWriter(log, fieldnames=[mac_address]).writerow(data)] raises
    [ValueError] when [data] has a key that is no field name. *)
Definition write_log (data : gmap string (list sample))
    (log_filepath mac_address : string) : M state unit :=
  let file_name := log_filepath +:+ mac_address +:+ ".csv" in
  lift (open_append file_name);;
  modify (λ s, set_files
                 (<[file_name := default [] (files s !! file_name)]> (files s)) s);;
  let wrong_fields := filter (λ key, key ≠ mac_address) (map_to_list data).*1 in
  if bool_decide (wrong_fields ≠ []) then raise ValueError
  else
    modify (λ s, set_files
                   (<[file_name := default [] (files s !! file_name)
                                   ++ [data !! mac_address]]> (files s)) s).

(** One iteration of [while True] in [local_logging_loop]. *)
Definition local_logging_pass : M state unit :=
  s ← get;
  if bool_decide (processed_data (globals s) = ∅) then ret tt
  else
    let local_data := processed_data (globals s) in
    modify (λ s, set_globals (set_processed_data ∅ (globals s)) s);;
    mapM (λ macAddress : string, write_log local_data BACKUP_LOG_PATH macAddress)
         (map_to_list local_data).*1;;
    ret tt.

(** One iteration of [while True] in [raw_data_logging_loop]: the raw
    mailbox is read, not emptied. *)
Definition raw_data_logging_pass : M state unit :=
  s ← get;
  if bool_decide (unprocessed_data (globals s) = ∅) then ret tt
  else
    let local_data :=
      (λ samples : list raw_sample, Raw <$> samples) <$> unprocessed_data (globals s) in
    mapM (λ macAddress : string, write_log local_data RAW_LOG_PATH macAddress)
         (map_to_list local_data).*1;;
    ret tt.

End file_system.

End SaveLocally.

(** * Specification vocabulary

    The words of the specification, stated on their own so that the code
    above can be compared with them. *)

Module Spec.
Import Globals.

(** The mailboxes a control-plane event on the mapping leaves alone. *)
Definition same_other_mailboxes (g g' : Globals.t) : Prop :=
  connected_devices g' = connected_devices g ∧
  smartpatch_config_update g' = smartpatch_config_update g ∧
  unprocessed_data g' = unprocessed_data g ∧
  processed_data g' = processed_data g ∧
  log g' = log g.

(** [connected_devices] is left as it was. *)
Definition same_connected_devices (g g' : Globals.t) : Prop :=
  connected_devices g' = connected_devices g.

(** The value of a byte group read as a little-endian unsigned integer:
    byte [i] weighs [256^i]. *)
Fixpoint little_endian (group : list Byte.byte) : Z :=
  match group with
  | [] => 0
  | b :: rest => Ble.byte_value b + 256 * little_endian rest
  end.

(** The two's-complement reading of an unsigned [bits]-bit value. *)
Definition twos_complement (bits : Z) (u : Z) : Z :=
  if 2 * u <? 2 ^ bits then u else u - 2 ^ bits.

(** A fixed-width little-endian integer, signed or unsigned. *)
Definition decode_group (signed : bool) (group : list Byte.byte) : Z :=
  if signed
  then twos_complement (8 * Z.of_nat (length group)) (little_endian group)
  else little_endian group.

(** The first [count] consecutive groups of [width] elements. *)
Fixpoint groups_of {A} (count width : nat) (data : list A) : list (list A) :=
  match count with
  | O => []
  | S count' => take width data :: groups_of count' width (drop width data)
  end.

(** The complete consecutive [width]-byte groups of a payload; trailing
    bytes that do not fill a group belong to none. *)
Definition consecutive_groups {A} (width : nat) (data : list A) : list (list A) :=
  groups_of (length data / width) width data.

(** A window trimmed as [delete_old_data] does it: once it holds more
    than [cap] elements, its [k] oldest are dropped. *)
Definition trimmed {A} (cap k : nat) (window : list A) : list A :=
  if (cap <? length window)%nat then drop k window else window.


(** The two branches of [calc_battery_percentage] as a function of the
    latest voltage: above 3650 mV [12 + 0.176 (v - 3650)], otherwise
    [0.0342 (v - 3650)]. *)
Definition battery_curve (v : Z) : float :=
  if 3650 <? v
  then (12 + 0.176 * float_of_Z (v - 3650))%float
  else (0.0342 * float_of_Z (v - 3650))%float.

(** The accelerometer magnitude of a converted IMU row (columns 3 to 5). *)
Definition accelerometer_magnitude (row : list float) : float :=
  let x := default 0%float (row !! 3%nat) in
  let y := default 0%float (row !! 4%nat) in
  let z := default 0%float (row !! 5%nat) in
  PrimFloat.sqrt (x * x + y * y + z * z)%float.

(** The activity the specification asks for: 1 if the magnitude of any
    of the last 120 converted rows exceeds 12.0, else 0. *)
Definition activity_of_last_120 (converted : list (list float)) : Z :=
  if existsb (λ row, (12.0 <? accelerometer_magnitude row)%float)
             (last_n 120 converted)
  then 1 else 0.

(** Raw IMU rows for the examples: a strong acceleration along z
    ([30000 * 0.000598 = 17.94]) and rest. *)
Definition shaken : list Z := [0; 0; 0; 0; 0; 30000].
Definition at_rest : list Z := [0; 0; 0; 0; 0; 0].

(** Every list of [d] is still there in [d'], possibly with newer
    elements appended. *)
Definition grows {A} (d d' : gmap string (list A)) : Prop :=
  ∀ address window, d !! address = Some window →
    ∃ newer, d' !! address = Some (window ++ newer).

(** The rolling windows and histories of every patch are retained from
    [s] to [s']: nothing is removed from them (the converted IMU window,
    recomputed from the raw one at every pass, stays present). *)
Definition windows_retained (s s' : DataProcessing.state) : Prop :=
  grows (DataProcessing.local_ppg s) (DataProcessing.local_ppg s') ∧
  grows (DataProcessing.local_imu_raw s) (DataProcessing.local_imu_raw s') ∧
  grows (DataProcessing.local_temp s) (DataProcessing.local_temp s') ∧
  grows (DataProcessing.local_voltage s) (DataProcessing.local_voltage s') ∧
  grows (DataProcessing.local_activity_level s)
        (DataProcessing.local_activity_level s') ∧
  grows (DataProcessing.local_HR s) (DataProcessing.local_HR s') ∧
  grows (DataProcessing.local_SPO2 s) (DataProcessing.local_SPO2 s') ∧
  grows (DataProcessing.hp_HR s) (DataProcessing.hp_HR s') ∧
  grows (DataProcessing.hp_RMSSD s) (DataProcessing.hp_RMSSD s') ∧
  grows (DataProcessing.hp_RR s) (DataProcessing.hp_RR s') ∧
  (∀ address, is_Some (DataProcessing.local_imu_converted s !! address) →
              is_Some (DataProcessing.local_imu_converted s' !! address)).

(** The windows are retained and the shared mailboxes are untouched. *)
Definition stage_private (s s' : DataProcessing.state) : Prop :=
  windows_retained s s' ∧ DataProcessing.globals s' = DataProcessing.globals s.

(** The state in which the pipeline of a patch starts: the batch's time
    span and last timestamp are recorded and the batch is the local
    data. *)
Definition prepared (address : string) (first final : raw_sample)
    (batch : list raw_sample) (s : DataProcessing.state) : DataProcessing.state :=
  DataProcessing.set_local_data batch
    (DataProcessing.set_current_ts
       (<[address := ts final]> (DataProcessing.current_ts s))
       (DataProcessing.set_duration
          (<[address := ts final - ts first]> (DataProcessing.duration s)) s)).

(** What the stage maintains about the voltage windows: a patch without
    a voltage window has no stored battery percentage, and a voltage
    window that exists holds at least one sample. *)
Definition battery_follows_voltage (s : DataProcessing.state) : Prop :=
  ∀ address,
    (DataProcessing.local_voltage s !! address = None →
     DataProcessing.local_battery_percentage s !! address = None) ∧
    (∀ voltages, DataProcessing.local_voltage s !! address = Some voltages →
                 voltages ≠ []).

(** [s'] maintains it if [s] did. *)
Definition keeps_battery_follows_voltage (s s' : DataProcessing.state) : Prop :=
  battery_follows_voltage s → battery_follows_voltage s'.

(** The exceptions the last two stages of the pipeline can raise. *)
Definition key_or_index_error (e : exn) : Prop := e = KeyError ∨ e = IndexError.

(** No patient is bound to two patches. *)
Definition one_patch_per_patient (patient_mapping : gmap string string) : Prop :=
  ∀ patch patch' patient,
    patient_mapping !! patch = Some patient →
    patient_mapping !! patch' = Some patient → patch = patch'.

(** The range of a [width]-byte integer, signed or unsigned. *)
Definition in_width_range (signed : bool) (width : nat) (v : Z) : Prop :=
  if signed
  then - 2 ^ (8 * Z.of_nat width - 1) ≤ v < 2 ^ (8 * Z.of_nat width - 1)
  else 0 ≤ v < 2 ^ (8 * Z.of_nat width).

(** What a dominant frequency between 0.75 Hz and 3.5 Hz yields: a
    multiple of 3 between 45 and 207 beats per minute. *)
Definition heart_rate_in_range (HR : Z) : Prop := 45 ≤ HR ≤ 207 ∧ HR `mod` 3 = 0.

Definition activity_flag (activity : Z) : Prop := activity = 0 ∨ activity = 1.

Definition vital_signs_in_range (x : sample) : Prop :=
  match x with
  | Processed dp =>
      heart_rate_in_range (heartrate dp) ∧
      bloodOxygenation dp ≤ 100 ∧
      activity_flag (activityLevel dp)
  | Raw _ => True
  end.

(** The estimates the stage keeps and the datapoints it has published
    are within their ranges. *)
Definition histories_in_range (s : DataProcessing.state) : Prop :=
  (∀ address history, DataProcessing.local_HR s !! address = Some history →
                      Forall heart_rate_in_range history) ∧
  (∀ address history, DataProcessing.local_SPO2 s !! address = Some history →
                      Forall (λ SPO2, SPO2 ≤ 100) history) ∧
  (∀ address history, DataProcessing.local_activity_level s !! address = Some history →
                      Forall activity_flag history) ∧
  (∀ address datapoints,
     processed_data (DataProcessing.globals s) !! address = Some datapoints →
     Forall vital_signs_in_range datapoints).

(** [s'] maintains it if [s] did. *)
Definition keeps_histories_in_range (s s' : DataProcessing.state) : Prop :=
  histories_in_range s → histories_in_range s'.

(** All the stage does to the shared store is publish: datapoints are
    appended to [processed_data] and lines to the log. *)
Definition publishes_only (s s' : DataProcessing.state) : Prop :=
  grows (processed_data (DataProcessing.globals s))
        (processed_data (DataProcessing.globals s')) ∧
  log (DataProcessing.globals s) `prefix_of` log (DataProcessing.globals s') ∧
  unprocessed_data (DataProcessing.globals s')
  = unprocessed_data (DataProcessing.globals s) ∧
  connected_devices (DataProcessing.globals s')
  = connected_devices (DataProcessing.globals s) ∧
  mac_address_update (DataProcessing.globals s')
  = mac_address_update (DataProcessing.globals s) ∧
  patient_mapping (DataProcessing.globals s')
  = patient_mapping (DataProcessing.globals s) ∧
  smartpatch_config_update (DataProcessing.globals s')
  = smartpatch_config_update (DataProcessing.globals s).

(** The time stamps recorded for the batches are as before. *)
Definition same_time_stamps (s s' : DataProcessing.state) : Prop :=
  DataProcessing.current_ts s' = DataProcessing.current_ts s.

(** The shared store is as before. *)
Definition same_globals (s s' : DataProcessing.state) : Prop :=
  DataProcessing.globals s' = DataProcessing.globals s.

(** What is to be published for a patch of the processed mailbox: under
    the token of the patient bound to it, its datapoints in order, then
    its firmware version when the patch is connected; nothing for a patch
    without a patient. *)
Definition messages_for (g : Globals.t) (entry : string * list sample)
    : list PublishToThingsboard.message :=
  match patient_mapping g !! entry.1 with
  | Some accesstoken =>
      if bool_decide (accesstoken ≠ "") then
        PublishToThingsboard.telemetry_message accesstoken
          <$> ((PublishToThingsboard.Datapoint <$> entry.2)
               ++ match connected_devices g !! entry.1 with
                  | Some version => [PublishToThingsboard.FirmwareVersion version]
                  | None => []
                  end)
      else []
  | None => []
  end.

(** [ppg] and [imu] are the signed characteristics. *)
Definition signed_characteristic (char : string) : bool :=
  bool_decide (char = "ppg" ∨ char = "imu").

End Spec.

(** * Reasoning about computations *)

(** [m] relates every store it starts from to the store it leaves,
    whether it returns or raises. *)
Definition preserves {S A} (R : S → S → Prop) (m : M S A) : Prop :=
  ∀ s, R s (m s).1.

(** [m] raises nothing but exceptions in [E]. *)
Definition raises_only {S A} (E : exn → Prop) (m : M S A) : Prop :=
  ∀ s s' e, m s = (s', Raise e) → E e.

(** * Properties *)

(** ** Rules for [preserves] and [raises_only] *)

Section preservation.
Context {S : Type} (R : S → S → Prop) `{!Reflexive R, !Transitive R}.

Lemma preserves_ret {A} (a : A) : preserves R (mret a : M S A).
Proof. intros s. simpl. reflexivity. Qed.

Lemma preserves_raise {A} (e : exn) : preserves R (raise e : M S A).
Proof. intros s. simpl. reflexivity. Qed.

Lemma preserves_lift {A} (r : result A) : preserves R (lift r : M S A).
Proof. intros s. simpl. reflexivity. Qed.

Lemma preserves_get : preserves R (get : M S S).
Proof. intros s. simpl. reflexivity. Qed.

Lemma preserves_modify (f : S → S) : (∀ s, R s (f s)) → preserves R (modify f).
Proof. intros Hf s. apply Hf. Qed.

Lemma preserves_bind {A B} (m : M S A) (k : A → M S B) :
  preserves R m → (∀ a, preserves R (k a)) → preserves R (m ≫= k).
Proof.
  intros Hm Hk s. unfold mbind, M_bind, bind. specialize (Hm s).
  destruct (m s) as [s1 [a|e]]; simpl in *; [|done].
  etrans; [exact Hm|apply Hk].
Qed.

Lemma preserves_when (b : bool) (m : M S unit) :
  preserves R m → preserves R (when b m).
Proof. intros Hm. destruct b; [done|apply preserves_ret]. Qed.

Lemma preserves_try_except {A} (body : M S A) classes handler :
  preserves R body → (∀ e, preserves R (handler e)) →
  preserves R (try_except body classes handler).
Proof.
  intros Hb Hh s. unfold try_except. specialize (Hb s).
  destruct (body s) as [s1 [a|e]]; simpl in *; [done|].
  destruct (classes e); simpl; [|done].
  etrans; [exact Hb|apply Hh].
Qed.

Lemma preserves_mapM {A B} (f : A → M S B) (l : list A) :
  (∀ x, preserves R (f x)) → preserves R (mapM f l).
Proof.
  intros Hf. induction l as [|x l IH]; [apply preserves_ret|].
  cbn [mapM]. apply preserves_bind; [apply Hf|]. intros y.
  apply preserves_bind; [exact IH|]. intros k. apply preserves_ret.
Qed.

End preservation.

Section exceptions.
Context {S : Type}.

Lemma bind_raise_inv {A B} (m : M S A) (k : A → M S B) s s' e :
  (m ≫= k) s = (s', Raise e) →
  m s = (s', Raise e) ∨ ∃ a s1, m s = (s1, Ok a) ∧ k a s1 = (s', Raise e).
Proof.
  unfold mbind, M_bind, bind. destruct (m s) as [s1 [a|e1]]; [|intros [= -> ->]; by left].
  intros Hk. right. by exists a, s1.
Qed.

Lemma raises_only_ret {A} E (a : A) : raises_only E (mret a : M S A).
Proof. intros s s' e. discriminate. Qed.

Lemma raises_only_get E : raises_only E (get : M S S).
Proof. intros s s' e. discriminate. Qed.

Lemma raises_only_modify E (f : S → S) : raises_only E (modify f).
Proof. intros s s' e. discriminate. Qed.

Lemma raises_only_lift {A} (E : exn → Prop) (r : result A) :
  (∀ e, r = Raise e → E e) → raises_only E (lift r : M S A).
Proof. intros Hr s s' e [= _ ->]. by apply Hr. Qed.

Lemma raises_only_bind {A B} E (m : M S A) (k : A → M S B) :
  raises_only E m → (∀ a, raises_only E (k a)) → raises_only E (m ≫= k).
Proof.
  intros Hm Hk s s' e [H|(a & s1 & _ & H)]%bind_raise_inv; [by eapply Hm|by eapply Hk].
Qed.

Lemma raises_only_when E (b : bool) (m : M S unit) :
  raises_only E m → raises_only E (when b m).
Proof. intros Hm. destruct b; [done|apply raises_only_ret]. Qed.

End exceptions.

(** ** Sequencing *)

Section sequencing.

Lemma bind_run {S A B} (m : M S A) (k : A → M S B) s s1 a :
  m s = (s1, Ok a) → (m ≫= k) s = k a s1.
Proof. intros Hm. unfold mbind, M_bind, bind. by rewrite Hm. Qed.

Lemma raise_through {S A B} (R : S → S → Prop) `{!PreOrder R}
    (m : M S A) (k : A → M S B) (s s' : S) (e : exn) :
  preserves R m →
  (∀ a s1, k a s1 = (s', Raise e) → R s1 s') →
  (m ≫= k) s = (s', Raise e) → R s s'.
Proof.
  intros Hm Hk [H|(a & s1 & H1 & H)]%bind_raise_inv.
  - specialize (Hm s). by rewrite H in Hm.
  - specialize (Hm s). rewrite H1 in Hm. etrans; [exact Hm|by eapply Hk].
Qed.

End sequencing.

(** ** Python lists and dictionaries *)

Section python_values.
Import DataProcessing.

Lemma index_last {A} (l : list A) (x : A) : index (l ++ [x]) (-1) = Ok x.
Proof.
  unfold index, item. rewrite length_app. simpl length.
  replace (-1 <? 0) with true by done.
  replace (-1 + Z.of_nat (length l + 1)) with (Z.of_nat (length l)) by lia.
  rewrite (proj2 (Z.leb_le 0 _)) by lia.
  rewrite (proj2 (Z.ltb_lt _ _)) by lia. simpl.
  rewrite Nat2Z.id, lookup_app_r by lia.
  by rewrite Nat.sub_diag.
Qed.

Lemma item_head {A} (l : list A) (x : A) : head l = Some x → item l 0 = Ok x.
Proof. destruct l; [done|]. by intros [= ->]. Qed.

Lemma index_final {A} (l : list A) (x : A) : last l = Some x → index l (-1) = Ok x.
Proof.
  intros Hlast. destruct l as [|y l] using rev_ind; [done|].
  rewrite last_snoc in Hlast. injection Hlast as ->. apply index_last.
Qed.

Lemma lookup_append_at {A} (address : string) (x : A) (d : gmap string (list A)) :
  append_at address x d !! address = Some (default [] (d !! address) ++ [x]).
Proof.
  unfold append_at. destruct (d !! address); simpl; apply lookup_insert_eq.
Qed.

End python_values.

(** ** Mapping: the connect flow *)

Section connect_flow.
Import Globals Mapping Spec.

Lemma elem_of_gather_previous patient_name (pm : gmap string string) address :
  address ∈ gather_previous patient_name pm ↔ pm !! address = Some patient_name.
Proof.
  unfold gather_previous. rewrite list_elem_of_fmap. split.
  - intros [[k v] [-> [Hv Hin]%list_elem_of_filter]].
    simpl in *. subst v. by apply elem_of_map_to_list.
  - intros Hlk. exists (address, patient_name). split; [done|].
    apply list_elem_of_filter. split; [done|]. by apply elem_of_map_to_list.
Qed.

Lemma NoDup_gather_previous patient_name (pm : gmap string string) :
  NoDup (gather_previous patient_name pm).
Proof.
  unfold gather_previous.
  eapply sublist_NoDup; [apply (NoDup_fst_map_to_list pm)|].
  apply fmap_sublist, sublist_filter.
Qed.

Lemma gather_previous_absent patient_name (pm : gmap string string) :
  patient_name ∉ (map_to_list pm).*2 → gather_previous patient_name pm = [].
Proof.
  intros Hnot. destruct (gather_previous patient_name pm) as [|a l] eqn:E; [done|].
  exfalso. apply Hnot.
  assert (a ∈ gather_previous patient_name pm) as Ha by (rewrite E; left).
  apply elem_of_gather_previous in Ha.
  apply list_elem_of_fmap. exists (a, patient_name). split; [done|].
  by apply elem_of_map_to_list.
Qed.

(** What the deletion loop leaves behind, given the addresses are distinct
    keys of the mapping: it never raises. *)
Lemma delete_previous_run (to_delete : list string) (g : Globals.t) :
  NoDup to_delete →
  (∀ a, a ∈ to_delete → is_Some (patient_mapping g !! a)) →
  ∃ g', delete_previous to_delete g = (g', Ok tt) ∧
    (∀ a, patient_mapping g' !! a =
            if decide (a ∈ to_delete) then None else patient_mapping g !! a) ∧
    (∀ a, mac_address_update g' !! a =
            if decide (a ∈ to_delete) then Some "remove"
            else mac_address_update g !! a) ∧
    same_other_mailboxes g g'.
Proof.
  revert g. induction to_delete as [|k ks IH]; intros g Hnd Hin.
  - exists g. split; [done|]. repeat split; intros; by rewrite ?decide_False by set_solver.
  - apply NoDup_cons in Hnd as [Hk Hnd].
    destruct (Hin k) as [v Hv]; [left|].
    set (g1 := set_mac_address_update (<[k := "remove"]> (mac_address_update g))
                 (set_patient_mapping (delete k (patient_mapping g)) g)).
    destruct (IH g1 Hnd) as (g' & Hrun & Hpm & Hmau & Hsame).
    { intros a Ha. simpl. rewrite lookup_delete_ne by set_solver.
      apply Hin. by right. }
    exists g'. split.
    { simpl. unfold mbind, M_bind, bind, patient_mapping_pop, mbind, M_bind, bind,
        get, lift, subscript, modify, ret. simpl. rewrite Hv. simpl. exact Hrun. }
    split; [|split].
    + intros a. rewrite Hpm. simpl.
      destruct (decide (a = k)) as [->|Hne].
      * rewrite lookup_delete_eq. rewrite (decide_True (P := k ∈ k :: ks)) by left.
        by destruct (decide (k ∈ ks)).
      * rewrite lookup_delete_ne by done.
        destruct (decide (a ∈ ks)).
        -- rewrite decide_True; [done|by right].
        -- rewrite decide_False; [done|]. by intros [?|?]%elem_of_cons.
    + intros a. rewrite Hmau. simpl.
      destruct (decide (a = k)) as [->|Hne].
      * rewrite lookup_insert_eq. rewrite (decide_True (P := k ∈ k :: ks)) by left.
        by destruct (decide (k ∈ ks)).
      * rewrite lookup_insert_ne by done.
        destruct (decide (a ∈ ks)).
        -- rewrite decide_True; [done|by right].
        -- rewrite decide_False; [done|]. by intros [?|?]%elem_of_cons.
    + destruct Hsame as (? & ? & ? & ? & ?). by repeat split.
Qed.

(** C1.  A [Connected] event for [(patient_name, mac_address)] never
    raises; it removes every entry of the patient mapping whose value is
    [patient_name], files a ['remove'] request for each removed address,
    then binds [mac_address] to [patient_name] and files its ['add']
    request; afterwards [mac_address] is the one address mapped to
    [patient_name]. *)
Theorem connect_update_rebinds_patient (patient_name mac_address : string)
    (g : Globals.t) :
  let previous := filter (λ kv, kv.2 = patient_name) (patient_mapping g) in
  ∃ g', connect_update patient_name mac_address g = (g', Ok tt) ∧
    patient_mapping g' =
      <[mac_address := patient_name]>
        (filter (λ kv, kv.2 ≠ patient_name) (patient_mapping g)) ∧
    mac_address_update g' =
      <[mac_address := "add"]>
        (((λ _, "remove") <$> previous) ∪ mac_address_update g) ∧
    (∀ address, patient_mapping g' !! address = Some patient_name
                ↔ address = mac_address) ∧
    same_other_mailboxes g g'.
Proof.
  intros previous.
  destruct (delete_previous_run (gather_previous patient_name (patient_mapping g)) g)
    as (g1 & Hrun & Hpm & Hmau & Hsame).
  { apply NoDup_gather_previous. }
  { intros a Ha%elem_of_gather_previous. eauto. }
  assert (Hguard :
    (if bool_decide (patient_name ∈ (map_to_list (patient_mapping g)).*2)
     then delete_previous (gather_previous patient_name (patient_mapping g))
     else ret tt) g = (g1, Ok tt)).
  { case_bool_decide as Hin; [done|].
    rewrite (gather_previous_absent _ _ Hin) in Hrun. exact Hrun. }
  set (g' := set_mac_address_update (<[mac_address := "add"]> (mac_address_update g1))
               (set_patient_mapping
                  (<[mac_address := patient_name]> (patient_mapping g1)) g1)).
  assert (Hpm' : patient_mapping g' =
      <[mac_address := patient_name]>
        (filter (λ kv, kv.2 ≠ patient_name) (patient_mapping g))).
  { simpl. f_equal. apply map_eq. intros a. rewrite Hpm.
    destruct (decide (a ∈ gather_previous patient_name (patient_mapping g))) as [Ha|Ha].
    - apply elem_of_gather_previous in Ha. symmetry.
      apply map_lookup_filter_None. right. intros x Hx Hne. simpl in Hne. congruence.
    - rewrite elem_of_gather_previous in Ha.
      destruct (patient_mapping g !! a) as [x|] eqn:Hx.
      + symmetry. apply map_lookup_filter_Some. split; [done|]. simpl. congruence.
      + symmetry. apply map_lookup_filter_None. by left. }
  exists g'. split; [|split; [|split; [|split]]].
  - unfold connect_update, mbind, M_bind, bind, get. rewrite Hguard. reflexivity.
  - exact Hpm'.
  - simpl. f_equal. apply map_eq. intros a. rewrite Hmau.
    rewrite lookup_union, lookup_fmap. subst previous.
    destruct (decide (a ∈ gather_previous patient_name (patient_mapping g))) as [Ha|Ha].
    + apply elem_of_gather_previous in Ha.
      rewrite (map_lookup_filter_Some_2 _ _ _ _ Ha) by done. simpl.
      by destruct (mac_address_update g !! a).
    + rewrite elem_of_gather_previous in Ha.
      rewrite (proj2 (map_lookup_filter_None _ _ _)).
      * simpl. by destruct (mac_address_update g !! a).
      * destruct (patient_mapping g !! a) as [x|] eqn:Hx; [right|by left].
        intros y [= <-] Hy. simpl in Hy. congruence.
  - intros a. rewrite Hpm'. split.
    + intros Hlk. destruct (decide (mac_address = a)) as [|Hne]; [done|].
      rewrite lookup_insert_ne in Hlk by done.
      apply map_lookup_filter_Some in Hlk as [_ Hne']. by simpl in Hne'.
    + intros ->. apply lookup_insert_eq.
  - destruct Hsame as (? & ? & ? & ? & ?). by repeat split.
Qed.

(** A patient migration: with patch [..:01] bound to ["P1"], a
    [Connected] event binding ["P1"] to patch [..:02] revokes the first
    patch. *)
Example connect_update_migration :
  let g := set_patient_mapping {["AA:BB:CC:DD:EE:01" := "P1"]} Globals.initial in
  let g' := (connect_update "P1" "AA:BB:CC:DD:EE:02" g).1 in
  patient_mapping g' = {["AA:BB:CC:DD:EE:02" := "P1"]} ∧
  mac_address_update g'
  = {["AA:BB:CC:DD:EE:01" := "remove"; "AA:BB:CC:DD:EE:02" := "add"]}.
Proof. split; vm_compute; reflexivity. Qed.

End connect_flow.

(** ** Ble: the connected-devices mailbox *)

Section connected_devices.
Import Globals Ble.

#[local] Instance same_connected_devices_preorder : PreOrder Spec.same_connected_devices.
Proof.
  split; [by intros g|]. intros g1 g2 g3 H12 H23.
  unfold Spec.same_connected_devices in *. by rewrite H23.
Qed.

(** X16.  [disconnect] never touches [connected_devices], whatever the
    link calls do: whether it returns or raises, the patch it was called
    for is as much a connected device afterwards as before. *)
Lemma disconnect_keeps_connected_devices (stop_notify : Z → result unit)
    (device_disconnect : result unit) (address : string) :
  preserves Spec.same_connected_devices
    (disconnect stop_notify device_disconnect address).
Proof.
  unfold disconnect.
  repeat first
    [ apply preserves_bind; [apply _| |intros ?]
    | apply preserves_mapM; [apply _|apply _|intros ?]
    | apply preserves_try_except; [apply _| |intros ?]
    | apply preserves_lift; apply _
    | apply preserves_get; apply _
    | apply preserves_modify; by intros ? ].
Qed.

(** C2 at a concrete run: a worker completes the handshake with a patch,
    the control plane files the disconnect, the worker sees the request
    and runs the disconnect flow without any link error.  Afterwards the
    request is gone, but the patch is still a key of
    [connected_devices]. *)
Theorem disconnect_flow_keeps_connected_entry :
  let address := "F6:E0:95:D5:9C:95" in
  ∃ g1 g2 g3 g4,
    add_connected (Ok "1.0.0") address Globals.initial = (g1, Ok tt) ∧
    connected_devices g1 !! address = Some "1.0.0" ∧
    Mapping.disconnect_update address g1 = (g2, Ok tt) ∧
    search_remove_request address g2 = (g3, Ok true) ∧
    disconnect (λ _, Ok tt) (Ok tt) address g3 = (g4, Ok tt) ∧
    mac_address_update g4 = ∅ ∧
    connected_devices g4 !! address = Some "1.0.0".
Proof.
  intros address. do 4 eexists.
  split; [reflexivity|]. split; [reflexivity|].
  split; [reflexivity|]. split; [reflexivity|].
  split; [reflexivity|]. split; [|reflexivity].
  apply map_eq. intros a. vm_compute. by destruct a.
Qed.

End connected_devices.

(** ** Ble: decoding notification payloads *)

Section decoding.
Import Globals Ble Spec.

Lemma byte_value_range b : 0 ≤ byte_value b < 256.
Proof.
  unfold byte_value. pose proof (Byte.to_N_bounded b). lia.
Qed.

Lemma little_endian_nonneg group : 0 ≤ little_endian group.
Proof.
  induction group as [|b rest IH]; simpl; [lia|].
  pose proof (byte_value_range b). lia.
Qed.

(** Or-ing a byte below a value shifted by eight bits adds them. *)
Lemma lor_shiftl_byte b acc :
  0 ≤ b < 256 → Z.lor b (Z.shiftl acc 8) = b + 256 * acc.
Proof.
  intros Hb. rewrite Z.shiftl_mul_pow2 by lia.
  assert (Hdisjoint : Z.land b (acc * 2 ^ 8) = 0).
  { apply Z.bits_inj'. intros n Hn. rewrite Z.land_spec, Z.bits_0.
    destruct (Z_lt_dec n 8).
    - rewrite (Z.mul_pow2_bits_low acc 8 n) by lia. apply andb_false_r.
    - rewrite (Z.bits_above_log2 b n); [done|lia|].
      destruct (Z.eq_dec b 0) as [->|]; [simpl; lia|].
      assert (Z.log2 b < 8) by (apply Z.log2_lt_pow2; lia). lia. }
  rewrite <- Z.lxor_lor, <- Z.add_nocarry_lxor by exact Hdisjoint.
  change (2 ^ 8) with 256. lia.
Qed.

Lemma magnitude_little_endian bytes :
  foldr (λ b acc, Z.lor (byte_value b) (Z.shiftl acc 8)) 0 bytes
  = little_endian bytes.
Proof.
  induction bytes as [|b rest IH]; simpl; [done|].
  rewrite IH. apply lor_shiftl_byte, byte_value_range.
Qed.

(** The top bit of the last byte is the top bit of the whole group. *)
Lemma negative_top_bit bytes :
  match last bytes with
  | Some msb => 128 <=? byte_value msb
  | None => false
  end = negb (2 * little_endian bytes <? 2 ^ (8 * Z.of_nat (length bytes))).
Proof.
  induction bytes as [|b rest IH]; [done|].
  destruct rest as [|c rest].
  - cbn [last little_endian length]. pose proof (byte_value_range b).
    change (2 ^ (8 * Z.of_nat 1)) with 256.
    destruct (Z.leb_spec 128 (byte_value b)),
             (Z.ltb_spec (2 * (byte_value b + 256 * 0)) 256); simpl; lia.
  - change (last (b :: c :: rest)) with (last (c :: rest)). rewrite IH.
    change (little_endian (b :: c :: rest))
      with (byte_value b + 256 * little_endian (c :: rest)).
    set (L := little_endian (c :: rest)).
    replace (8 * Z.of_nat (length (b :: c :: rest)))
      with (8 + 8 * Z.of_nat (length (c :: rest))) by (simpl length; lia).
    replace (8 * Z.of_nat (length (c :: rest)))
      with (1 + (8 * Z.of_nat (length rest) + 7)) by (simpl length; lia).
    rewrite (Z.pow_add_r 2 8) by lia.
    rewrite (Z.pow_add_r 2 1) by lia.
    change (2 ^ 8) with 256. change (2 ^ 1) with 2.
    set (Y := 2 ^ (8 * Z.of_nat (length rest) + 7)).
    pose proof (byte_value_range b).
    f_equal.
    destruct (Z.ltb_spec (2 * L) (2 * Y)),
             (Z.ltb_spec (2 * (byte_value b + 256 * L)) (256 * (2 * Y))); lia.
Qed.

(** [int.from_bytes] reads a group as the specification words it. *)
Lemma int_from_bytes_decode_group bytes signed :
  int_from_bytes bytes signed = decode_group signed bytes.
Proof.
  unfold int_from_bytes, decode_group, twos_complement.
  rewrite magnitude_little_endian, negative_top_bit.
  rewrite Z.shiftl_1_l.
  destruct signed; simpl; [|done].
  by destruct (2 * little_endian bytes <? 2 ^ (8 * Z.of_nat (length bytes))).
Qed.

(** The assignment loop of [convert_data] fills every slot. *)
Lemma fill_by_index {A} (f : nat → A) (n : nat) (l : list A) :
  length l = n →
  foldl (λ acc index, <[index := f index]> acc) l (seq 0 n) = f <$> seq 0 n.
Proof.
  intros Hlen.
  assert (Hgen : ∀ k, (k ≤ n)%nat →
    foldl (λ acc index, <[index := f index]> acc) l (seq 0 k)
    = (f <$> seq 0 k) ++ drop k l).
  { induction k as [|k IH]; intros Hk.
    - simpl. by rewrite drop_0.
    - rewrite seq_S, foldl_app, IH by lia. simpl.
      rewrite fmap_app. simpl.
      assert (Hlk : length (f <$> seq 0 k) = k) by (by rewrite length_fmap, length_seq).
      destruct (drop k l) as [|x rest] eqn:Hd.
      { apply (f_equal length) in Hd. rewrite length_drop in Hd. simpl in Hd. lia. }
      assert (Hrest : drop (S k) l = rest).
      { replace (S k) with (k + 1)%nat by lia. by rewrite <- drop_drop, Hd. }
      rewrite insert_app_r_alt by lia. rewrite Hlk, Nat.sub_diag. simpl.
      by rewrite <- app_assoc, Hrest. }
  rewrite Hgen by lia. rewrite drop_ge by lia. apply app_nil_r.
Qed.

Lemma slices_are_groups {A} (data : list A) (width n : nat) :
  (λ index, slice data (width * index) (width * (index + 1))) <$> seq 0 n
  = groups_of n width data.
Proof.
  revert data. induction n as [|n IH]; intros data; [done|].
  simpl. f_equal.
  - unfold slice. rewrite Nat.mul_0_r, drop_0. f_equal. lia.
  - rewrite <- IH, <- fmap_S_seq, <- list_fmap_compose.
    apply list_fmap_ext. intros _ index _. simpl. unfold slice.
    rewrite drop_drop. f_equal; [lia|]. f_equal. lia.
Qed.

(** What [convert_data] returns on any payload. *)
Lemma convert_data_groups char width data :
  bytes_per_int !! char = Some width →
  convert_data char data
  = Ok (decode_group (signed_characteristic char) <$> consecutive_groups width data).
Proof.
  intros Hw. unfold convert_data, subscript. rewrite Hw.
  rewrite length_replicate.
  rewrite (fill_by_index
             (λ index, int_from_bytes
                         (slice data (width * index) (width * (index + 1)))
                         (bool_decide (char = "ppg") || bool_decide (char = "imu"))))
    by apply length_replicate.
  f_equal. unfold consecutive_groups. rewrite <- slices_are_groups.
  rewrite <- list_fmap_compose. apply list_fmap_ext. intros _ index _. simpl.
  rewrite int_from_bytes_decode_group. f_equal.
  unfold signed_characteristic. by rewrite bool_decide_or.
Qed.

Lemma bytes_per_int_width char width :
  bytes_per_int !! char = Some width → width = 2%nat ∨ width = 4%nat.
Proof.
  unfold bytes_per_int. intros Hlk%elem_of_list_to_map_2.
  repeat (apply elem_of_cons in Hlk as [[= -> ->]|Hlk]; [auto|]).
  by apply elem_of_nil in Hlk.
Qed.

Lemma notify_handles_char sender char :
  notify_handles !! sender = Some char → is_Some (bytes_per_int !! char).
Proof.
  unfold notify_handles, notify_handles_items. intros Hlk%elem_of_list_to_map_2.
  repeat (apply elem_of_cons in Hlk as [[= -> ->]|Hlk]; [by eexists|]).
  by apply elem_of_nil in Hlk.
Qed.

Lemma length_groups_of {A} (count width : nat) (data : list A) :
  length (groups_of count width data) = count.
Proof.
  revert data. induction count as [|count IH]; intros data; simpl; [done|].
  by rewrite IH.
Qed.

(** The groups are the payload cut at every [width] bytes: together they
    are its first [count * width] bytes, and each is [width] long. *)
Lemma groups_of_cover {A} (count width : nat) (data : list A) :
  (count * width ≤ length data)%nat →
  concat (groups_of count width data) = take (count * width) data ∧
  Forall (λ group, length group = width) (groups_of count width data).
Proof.
  revert data. induction count as [|count IH]; intros data Hlen; simpl.
  - by rewrite take_0.
  - destruct (IH (drop width data)) as [Hcat Hall].
    { rewrite length_drop. lia. }
    split.
    + rewrite Hcat, take_drop_commute.
      rewrite <- (take_drop width (take (width + count * width) data)) at 2.
      rewrite take_take.
      by replace (width `min` (width + count * width))%nat with width by lia.
    + constructor; [|done]. rewrite length_take. lia.
Qed.

(** C4.  On a payload whose length is a multiple of the characteristic's
    element width, [convert_data] returns one integer per consecutive
    [width]-byte group (the groups cover the payload exactly), each group
    read as a little-endian integer, in two's complement for [ppg] and
    [imu] and unsigned for the other characteristics; the imu bytes
    [00 00 FF FF 02 00] decode to [0; -1; 2]. *)
Theorem convert_data_decodes (char : string) (width : nat) (data : list Byte.byte) :
  bytes_per_int !! char = Some width →
  (length data `mod` width = 0)%nat →
  ∃ converted,
    convert_data char data = Ok converted ∧
    converted = decode_group (signed_characteristic char)
                  <$> consecutive_groups width data ∧
    length converted = (length data / width)%nat ∧
    concat (consecutive_groups width data) = data ∧
    Forall (λ group, length group = width) (consecutive_groups width data) ∧
    convert_data "imu" [Byte.x00; Byte.x00; Byte.xff; Byte.xff; Byte.x02; Byte.x00]
    = Ok [0; -1; 2].
Proof.
  intros Hw Hmod. eexists. split; [by apply convert_data_groups|].
  split; [done|].
  assert (width ≠ 0)%nat as Hpos by (apply bytes_per_int_width in Hw; lia).
  assert (length data / width * width = length data)%nat as Hexact.
  { pose proof (Nat.div_mod_eq (length data) width). lia. }
  destruct (groups_of_cover (length data / width) width data) as [Hcat Hall]; [lia|].
  split; [|split; [|split]].
  - unfold consecutive_groups. by rewrite length_fmap, length_groups_of.
  - unfold consecutive_groups. rewrite Hcat, Hexact. by apply take_ge.
  - exact Hall.
  - reflexivity.
Qed.

Lemma convert_data_decodes_witness :
  ∃ converted,
    convert_data "ppg" [Byte.xfe; Byte.xff; Byte.xff; Byte.xff;
                        Byte.x10; Byte.x27; Byte.x00; Byte.x00] = Ok converted ∧
    converted = [-2; 10000].
Proof.
  destruct (convert_data_decodes "ppg" 4
              [Byte.xfe; Byte.xff; Byte.xff; Byte.xff;
               Byte.x10; Byte.x27; Byte.x00; Byte.x00] eq_refl eq_refl)
    as (converted & Hrun & Hval & _).
  exists converted. split; [exact Hrun|]. rewrite Hval. reflexivity.
Defined.

(** C3, as stated, fails: a 3-byte imu payload (not a multiple of the
    2-byte width) is neither dropped nor logged; its one complete group
    is stored. *)
Lemma callback_drops_ragged_payload_counterexample :
  ¬ (∀ address timestamp sender char width data g,
       notify_handles !! sender = Some char →
       bytes_per_int !! char = Some width →
       (length data `mod` width ≠ 0)%nat →
       unprocessed_data (callback address timestamp sender data g).1
       = unprocessed_data g) ∧
  ¬ (∀ address timestamp sender char width data g,
       notify_handles !! sender = Some char →
       bytes_per_int !! char = Some width →
       (length data `mod` width ≠ 0)%nat →
       log (callback address timestamp sender data g).1 ≠ log g).
Proof.
  split; intros Hclaim.
  - specialize (Hclaim "F6:E0:95:D5:9C:95" 1000 2 "imu" 2%nat
                  [Byte.x00; Byte.x00; Byte.xff] Globals.initial
                  eq_refl eq_refl ltac:(done)).
    apply (f_equal (λ m, m !! "F6:E0:95:D5:9C:95")) in Hclaim.
    vm_compute in Hclaim. discriminate Hclaim.
  - by apply (Hclaim "F6:E0:95:D5:9C:95" 1000 2 "imu" 2%nat
                [Byte.x00; Byte.x00; Byte.xff] Globals.initial
                eq_refl eq_refl ltac:(done)).
Qed.

(** C3, amended.  A notification whose payload length is not a multiple
    of the element width is not dropped and nothing is logged: the
    callback appends one sample holding the decoded complete leading
    groups, the trailing bytes that do not fill a group being ignored. *)
Theorem callback_stores_complete_groups (address : string) (timestamp sender : Z)
    (char : string) (width : nat) (data : list Byte.byte) (g : Globals.t) :
  notify_handles !! sender = Some char →
  bytes_per_int !! char = Some width →
  (length data `mod` width ≠ 0)%nat →
  let stored :=
    {| ts := timestamp;
       values := {[char := decode_group (signed_characteristic char)
                             <$> consecutive_groups width data]} |} in
  ∃ g', callback address timestamp sender data g = (g', Ok tt) ∧
    unprocessed_data g' !! address
    = Some (default [] (unprocessed_data g !! address) ++ [stored]) ∧
    (∀ other, other ≠ address →
              unprocessed_data g' !! other = unprocessed_data g !! other) ∧
    log g' = log g ∧
    concat (consecutive_groups width data)
    = take (length data / width * width) data ∧
    (length data / width * width < length data)%nat.
Proof.
  intros Hchar Hw Hmod stored.
  assert (width ≠ 0)%nat as Hpos by (apply bytes_per_int_width in Hw; lia).
  pose proof (Nat.div_mod_eq (length data) width) as Hdiv.
  destruct (groups_of_cover (length data / width) width data) as [Hcat _]; [lia|].
  unfold callback, mbind, M_bind, bind, lift, subscript. rewrite Hchar.
  rewrite (convert_data_groups _ _ _ Hw). unfold modify. fold stored.
  eexists. split; [reflexivity|].
  split; [|split; [|split; [|split]]].
  - destruct (unprocessed_data g !! address); simpl; by rewrite lookup_insert_eq.
  - intros other Hother.
    destruct (unprocessed_data g !! address); simpl; by rewrite lookup_insert_ne.
  - by destruct (unprocessed_data g !! address).
  - exact Hcat.
  - lia.
Qed.

Lemma callback_stores_complete_groups_witness :
  ∃ g', callback "F6:E0:95:D5:9C:95" 1000 2 [Byte.x00; Byte.x00; Byte.xff]
          Globals.initial = (g', Ok tt) ∧
    unprocessed_data g' !! "F6:E0:95:D5:9C:95"
    = Some [{| ts := 1000; values := {["imu" := [0]]} |}].
Proof.
  destruct (callback_stores_complete_groups "F6:E0:95:D5:9C:95" 1000 2 "imu" 2%nat
              [Byte.x00; Byte.x00; Byte.xff] Globals.initial
              eq_refl eq_refl ltac:(done))
    as (g' & Hrun & Hstored & _).
  exists g'. split; [exact Hrun|]. rewrite Hstored. reflexivity.
Defined.

End decoding.

(** ** DataProcessing: trimming the rolling windows *)

Section trimming.
Import Globals DataProcessing Spec.

Lemma trimmed_length {A} (cap k : nat) (window : list A) :
  length (trimmed cap k window)
  = (if (cap <? length window)%nat then length window - k else length window)%nat.
Proof.
  unfold trimmed.
  destruct (cap <? length window)%nat; [apply length_drop|done].
Qed.

(** A trimmed window is the newest part of the window. *)
Lemma trimmed_newest {A} (cap k : nat) (window : list A) :
  trimmed cap k window = last_n (length (trimmed cap k window)) window.
Proof.
  rewrite trimmed_length. unfold trimmed, last_n.
  destruct (Nat.ltb_spec cap (length window)).
  - destruct (Nat.le_gt_cases k (length window)).
    + f_equal. lia.
    + rewrite !drop_ge by lia. done.
  - by rewrite Nat.sub_diag, drop_0.
Qed.

(** One trimming statement on a window that is present. *)
Lemma trim_window_run {A} (window_of : state → gmap string (list A))
    set_window (cap k : nat) (address : string) (s : state) (window : list A) :
  window_of s !! address = Some window →
  trim_window window_of set_window cap k address s
  = (if (cap <? length window)%nat
     then set_window (<[address := drop k window]> (window_of s)) s
     else s, Ok tt).
Proof.
  intros Hw. unfold trim_window, mbind, M_bind, bind, get, lift, subscript.
  rewrite Hw. unfold when, modify. by destruct (cap <? length window)%nat.
Qed.

(** Carry what is known of the window [p] over a trimming statement on
    another window. *)
Ltac carry Es p :=
  match goal with
  | H : p ?s0 !! ?a = ?X |- _ =>
      match type of Es with
      | ?s1 = _ =>
          let H' := fresh H in
          assert (H' : p s1 !! a = X)
            by (rewrite Es; destruct (_ <? _)%nat; exact H);
          clear H; rename H' into H
      end
  end.
Ltac carry_all Es :=
  try carry Es local_ppg; try carry Es local_imu_raw; try carry Es local_temp;
  try carry Es local_voltage; try carry Es local_activity_level;
  try carry Es local_imu_converted; try carry Es local_HR; try carry Es local_SPO2.

(** Name the state a trimming statement on the window [p] (known by [H])
    has left, and carry everything known over to it. *)
Ltac settle p H :=
  let s1 := fresh "s" in
  let Es := fresh "Es" in
  let H' := fresh H in
  match goal with
  | |- context [if (?cap <? length ?w)%nat then ?t else ?s0] =>
      remember (if (cap <? length w)%nat then t else s0) as s1 eqn:Es;
      assert (H' : p s1 !! _ = Some (trimmed cap _ w))
        by (rewrite Es; unfold trimmed; destruct (cap <? length w)%nat;
            [apply lookup_insert_eq|exact H]);
      clear H; rename H' into H; carry_all Es; clear Es
  end.

(** Run the next trimming statement, on the window [p] known by [H]. *)
Ltac trim_next p H :=
  (rewrite (bind_run _ _ _ _ _ (trim_window_run p _ _ _ _ _ _ H))
   || rewrite (trim_window_run p _ _ _ _ _ _ H));
  settle p H.

(** The guarded statement on the voltage window. *)
Lemma trim_voltage_run (address : string) (s : state) :
  (s ← get;
   when (bool_decide (is_Some (local_voltage s !! address)))
     (trim_window local_voltage set_local_voltage 200 100 address)) s
  = (match local_voltage s !! address with
     | Some window =>
         if (200 <? length window)%nat
         then set_local_voltage (<[address := drop 100 window]> (local_voltage s)) s
         else s
     | None => s
     end, Ok tt).
Proof.
  unfold mbind at 1. unfold M_bind, bind, get.
  destruct (local_voltage s !! address) as [window|] eqn:Hv.
  - rewrite bool_decide_eq_true_2 by done. by apply trim_window_run.
  - rewrite bool_decide_eq_false_2; [done|]. by intros [? ?].
Qed.

(** With every window of the patch present (the voltage window may be
    absent), [delete_old_data] returns with every window trimmed. *)
Lemma delete_old_data_run (address : string) (s : state)
    (ppg imu_raw : list (list Z)) (temp : list float) (activity : list Z)
    (imu_converted : list (list float)) (HR SPO2 : list Z) :
  local_ppg s !! address = Some ppg →
  local_imu_raw s !! address = Some imu_raw →
  local_temp s !! address = Some temp →
  local_activity_level s !! address = Some activity →
  local_imu_converted s !! address = Some imu_converted →
  local_HR s !! address = Some HR →
  local_SPO2 s !! address = Some SPO2 →
  ∃ s', delete_old_data address s = (s', Ok tt) ∧
    local_ppg s' !! address = Some (trimmed 5000 4000 ppg) ∧
    local_imu_raw s' !! address = Some (trimmed 2000 1000 imu_raw) ∧
    local_temp s' !! address = Some (trimmed 200 100 temp) ∧
    local_voltage s' !! address = trimmed 200 100 <$> local_voltage s !! address ∧
    local_activity_level s' !! address = Some (trimmed 200 100 activity) ∧
    local_imu_converted s' !! address = Some (trimmed 2000 1000 imu_converted) ∧
    local_HR s' !! address = Some (trimmed 200 100 HR) ∧
    local_SPO2 s' !! address = Some (trimmed 200 100 SPO2).
Proof.
  intros Hppg Himu Htemp Hact Hconv HHR HSPO2.
  destruct (local_voltage s !! address) as [voltage|] eqn:Hvolt;
    unfold delete_old_data;
    trim_next (@local_ppg) Hppg;
    trim_next (@local_imu_raw) Himu;
    trim_next (@local_temp) Htemp;
    rewrite (bind_run _ _ _ _ _ (trim_voltage_run _ _)), Hvolt;
    try settle (@local_voltage) Hvolt;
    trim_next (@local_activity_level) Hact;
    trim_next (@local_imu_converted) Hconv;
    trim_next (@local_HR) HHR;
    trim_next (@local_SPO2) HSPO2;
    (eexists; split; [reflexivity|]; by repeat split).
Qed.

(** What trimming means: the trimmed window is the newest part of the
    window; beyond the cap exactly the [k] oldest elements are gone, within
    the cap nothing changes; the cap holds afterwards for a window of at
    most [cap + k] elements. *)
Lemma trimmed_spec {A} (cap k : nat) (window : list A) :
  trimmed cap k window = last_n (length (trimmed cap k window)) window ∧
  ((cap < length window)%nat →
     trimmed cap k window = drop k window ∧
     length (trimmed cap k window) = (length window - k)%nat) ∧
  ((length window ≤ cap)%nat → trimmed cap k window = window) ∧
  ((length window ≤ cap + k)%nat → (length (trimmed cap k window) ≤ cap)%nat).
Proof.
  split; [apply trimmed_newest|].
  rewrite trimmed_length. unfold trimmed.
  destruct (Nat.ltb_spec cap (length window)).
  - split; [intros _; split; [done|done]|]. split; intros; lia.
  - split; [intros; lia|]. split; intros; [done|lia].
Qed.

(** The state the examples on trimming start from: a patch whose
    temperature window holds [n] samples and whose PPG window holds [m]
    rows. *)
Lemma example_windows (n m : nat) :
  let address := "F6:E0:95:D5:9C:95" in
  let s :=
    set_local_ppg {[address := replicate m [1; 2; 3]]}
      (set_local_imu_raw {[address := []]}
         (set_local_temp {[address := replicate n 36.5%float]}
            (set_local_activity_level {[address := [0; 1]]}
               (set_local_imu_converted {[address := []]}
                  (set_local_HR {[address := [72]]}
                     (set_local_SPO2 {[address := [98]]} DataProcessing.initial)))))) in
  local_ppg s !! address = Some (replicate m [1; 2; 3]) ∧
  local_imu_raw s !! address = Some [] ∧
  local_temp s !! address = Some (replicate n 36.5%float) ∧
  local_activity_level s !! address = Some [0; 1] ∧
  local_imu_converted s !! address = Some [] ∧
  local_HR s !! address = Some [72] ∧
  local_SPO2 s !! address = Some [98].
Proof. intros address s. by repeat split; apply lookup_singleton_eq. Defined.

(** C5, as stated, fails: a temperature window of 201 elements keeps its
    newest 101 (not 100), and one of 301 elements keeps 201, more than
    its cap of 200. *)
Lemma delete_old_data_halves_counterexample :
  ¬ (∀ address s s' window window',
       delete_old_data address s = (s', Ok tt) →
       local_temp s !! address = Some window →
       local_temp s' !! address = Some window' →
       (200 < length window)%nat → window' = last_n 100 window) ∧
  ¬ (∀ address s s' window',
       delete_old_data address s = (s', Ok tt) →
       local_temp s' !! address = Some window' →
       (length window' ≤ 200)%nat).
Proof.
  split; intros Hclaim.
  - destruct (example_windows 201 3) as (H1 & H2 & H3 & H4 & H5 & H6 & H7).
    destruct (delete_old_data_run _ _ _ _ _ _ _ _ _ H1 H2 H3 H4 H5 H6 H7)
      as (s' & Hrun & _ & _ & Htemp & _).
    specialize (Hclaim _ _ _ _ _ Hrun H3 Htemp).
    rewrite length_replicate in Hclaim. specialize (Hclaim ltac:(lia)).
    apply (f_equal length) in Hclaim. vm_compute in Hclaim. discriminate Hclaim.
  - destruct (example_windows 301 3) as (H1 & H2 & H3 & H4 & H5 & H6 & H7).
    destruct (delete_old_data_run _ _ _ _ _ _ _ _ _ H1 H2 H3 H4 H5 H6 H7)
      as (s' & Hrun & _ & _ & Htemp & _).
    specialize (Hclaim _ _ _ _ Hrun Htemp).
    vm_compute in Hclaim. lia.
Qed.

(** C5, amended.  With every window of the patch present (the voltage
    window may be absent), [delete_old_data] returns.  Each window other
    than the PPG one that held more than its cap has lost exactly its
    [cap/2] oldest elements and kept all the newer ones.  The PPG window
    keeps only newer rows once it is over its cap of 5000 (how many it
    keeps is left open here).  A window within its cap is unchanged, and
    a window is within its cap afterwards whenever it held at most
    [cap + cap/2] elements before. *)
Theorem delete_old_data_drops_oldest (address : string) (s : state)
    (ppg imu_raw : list (list Z)) (temp : list float) (activity : list Z)
    (imu_converted : list (list float)) (HR SPO2 : list Z) :
  local_ppg s !! address = Some ppg →
  local_imu_raw s !! address = Some imu_raw →
  local_temp s !! address = Some temp →
  local_activity_level s !! address = Some activity →
  local_imu_converted s !! address = Some imu_converted →
  local_HR s !! address = Some HR →
  local_SPO2 s !! address = Some SPO2 →
  ∃ s' ppg', delete_old_data address s = (s', Ok tt) ∧
    local_ppg s' !! address = Some ppg' ∧
    ppg' = last_n (length ppg') ppg ∧
    ((length ppg ≤ 5000)%nat → ppg' = ppg) ∧
    ((5000 < length ppg)%nat → (length ppg' < length ppg)%nat) ∧
    ((length ppg ≤ 5000 + 2500)%nat → (length ppg' ≤ 5000)%nat) ∧
    local_imu_raw s' !! address = Some (trimmed 2000 1000 imu_raw) ∧
    local_temp s' !! address = Some (trimmed 200 100 temp) ∧
    local_voltage s' !! address = trimmed 200 100 <$> local_voltage s !! address ∧
    local_activity_level s' !! address = Some (trimmed 200 100 activity) ∧
    local_imu_converted s' !! address = Some (trimmed 2000 1000 imu_converted) ∧
    local_HR s' !! address = Some (trimmed 200 100 HR) ∧
    local_SPO2 s' !! address = Some (trimmed 200 100 SPO2) ∧
    (∀ A (cap k : nat) (window : list A),
       trimmed cap k window = last_n (length (trimmed cap k window)) window ∧
       ((cap < length window)%nat →
          trimmed cap k window = drop k window ∧
          length (trimmed cap k window) = (length window - k)%nat) ∧
       ((length window ≤ cap)%nat → trimmed cap k window = window) ∧
       ((length window ≤ cap + k)%nat → (length (trimmed cap k window) ≤ cap)%nat)).
Proof.
  intros Hppg Himu Htemp Hact Hconv HHR HSPO2.
  destruct (delete_old_data_run _ _ _ _ _ _ _ _ _ Hppg Himu Htemp Hact Hconv HHR HSPO2)
    as (s' & Hrun & H1 & H2 & H3 & H4 & H5 & H6 & H7 & H8).
  exists s', (trimmed 5000 4000 ppg). split; [exact Hrun|]. split; [exact H1|].
  destruct (trimmed_spec 5000 4000 ppg) as (Hnewest & Hover & Hwithin & _).
  split; [exact Hnewest|]. split; [exact Hwithin|].
  split; [intros Hlen; destruct (Hover Hlen) as [_ ->]; lia|].
  split.
  { intros Hlen. destruct (Nat.le_gt_cases (length ppg) 5000) as [Hle|Hgt].
    - by rewrite (Hwithin Hle).
    - destruct (Hover Hgt) as [_ ->]. lia. }
  repeat (split; [assumption|]). intros A cap k window.
  apply trimmed_spec.
Qed.

Lemma delete_old_data_drops_oldest_witness :
  let address := "F6:E0:95:D5:9C:95" in
  let s :=
    set_local_ppg {[address := replicate 3 [1; 2; 3]]}
      (set_local_imu_raw {[address := []]}
         (set_local_temp {[address := replicate 201 36.5%float]}
            (set_local_activity_level {[address := [0; 1]]}
               (set_local_imu_converted {[address := []]}
                  (set_local_HR {[address := [72]]}
                     (set_local_SPO2 {[address := [98]]} DataProcessing.initial)))))) in
  ∃ s', delete_old_data address s = (s', Ok tt) ∧
    local_ppg s' !! address = Some (replicate 3 [1; 2; 3]) ∧
    local_temp s' !! address = Some (replicate 101 36.5%float) ∧
    local_HR s' !! address = Some [72].
Proof.
  intros address s.
  destruct (example_windows 201 3) as (H1 & H2 & H3 & H4 & H5 & H6 & H7).
  destruct (delete_old_data_drops_oldest _ _ _ _ _ _ _ _ _ H1 H2 H3 H4 H5 H6 H7)
    as (s' & ppg' & Hrun & Hppg & _ & Hwithin & _ & _ & _ & Htemp & _ & _ & _ & HHR & _).
  exists s'. split; [exact Hrun|]. split; [|split; [exact Htemp|exact HHR]].
  etrans; [exact Hppg|]. f_equal. apply Hwithin. rewrite length_replicate. lia.
Defined.

End trimming.

(** ** Floats: rounding a value above 100 *)

Section rounding.




End rounding.

(** ** Floats: the order of binary64 values *)

Section float_order.

(** The classification of a binary64 value through its specification. *)
Lemma is_nan_spec (x : float) :
  is_nan x = match Prim2SF x with S754_nan => true | _ => false end.
Proof.
  unfold is_nan. rewrite FloatAxioms.eqb_spec. unfold SFeqb, SFcompare.
  destruct (Prim2SF x) as [[]|[]| |[] m e]; try done.
  - by rewrite Z.compare_refl, Pos.compare_cont_refl.
  - by rewrite Z.compare_refl, Pos.compare_cont_refl.
Qed.







End float_order.

(** ** numpy: the dominant bin *)

Section dominant_bin.
Import Spec.




Lemma float_lt_not_nan_r (x y : float) : (x <? y)%float = true → is_nan y = false.
Proof.
  rewrite ltb_spec, is_nan_spec. unfold SFltb, SFcompare.
  by destruct (Prim2SF x) as [[]|[]| |[] ? ?], (Prim2SF y) as [[]|[]| |[] ? ?].
Qed.









End dominant_bin.

(** ** DataProcessing: blood oxygen estimate *)

Section blood_oxygen.
Import Globals DataProcessing Spec.

Context {complex : Type}.
Variable butter_filtfilt : float → float → list Z → result (list float).
Variable fft : list float → result (list complex).
Variable np_abs : complex → float.

Lemma argmax_from_range (mp : float) (max_ind i : nat) (ip : list float) :
  argmax_from mp max_ind i ip = max_ind ∨
  (i ≤ argmax_from mp max_ind i ip < i + length ip)%nat.
Proof.
  revert mp max_ind i. induction ip as [|x ip IH]; intros mp max_ind i; [by left|].
  simpl. destruct (negb (x <=? mp)%float).
  - destruct (is_nan x); [right; lia|].
    destruct (IH x i (S i)) as [->|?]; right; lia.
  - destruct (IH mp max_ind (S i)) as [->|?]; [by left|right; lia].
Qed.

Lemma np_argmax_lt (a : list float) (k : nat) :
  np_argmax a = Ok k → (k < length a)%nat.
Proof.
  destruct a as [|mp ip]; [done|]. simpl. intros [= <-].
  destruct (is_nan mp); [lia|].
  destruct (argmax_from_range mp 0 1 ip) as [->|?]; lia.
Qed.


Lemma spo2_clip_min (SPO2 : Z) : spo2_clip SPO2 = Z.min SPO2 100.
Proof. unfold spo2_clip. destruct (Z.ltb_spec 100 SPO2); lia. Qed.





End blood_oxygen.



(** ** DataProcessing: activity detection *)

Section activity.
Import Globals DataProcessing Spec.

(** The first pass of the magnitude loop ([i = 0]) indexes with [-0],
    which is index 0: it reads the oldest row of the window, not one of
    the newest. *)
Lemma magnitude_at_first_pass (converted : list (list float)) (row : list float)
    (x y z : float) :
  converted !! 0%nat = Some row →
  row !! 3%nat = Some x → row !! 4%nat = Some y → row !! 5%nat = Some z →
  magnitude_at converted 0 = Ok (PrimFloat.sqrt (x * x + y * y + z * z)%float).
Proof.
  intros Hrow Hx Hy Hz. unfold magnitude_at, index, item. simpl.
  destruct converted as [|row' rest]; [done|]. simpl in Hrow.
  injection Hrow as ->. simpl.
  replace (0 <? Z.pos (Pos.of_succ_nat (length rest))) with true
    by (symmetry; apply Z.ltb_lt; lia).
  simpl. by rewrite Hx, Hy, Hz.
Qed.

(** C7 on two windows of 121 rows.  When only the oldest row, which is
    not among the last 120, is shaken, [imu_conversion] appends activity
    1 although no magnitude of the last 120 rows exceeds 12.0; when only
    row 1, the oldest of the last 120, is shaken, it appends activity 0
    although that row's magnitude exceeds 12.0. *)
Theorem imu_conversion_reads_oldest_row :
  let address := "F6:E0:95:D5:9C:95" in
  let before := set_local_imu_raw {[address := shaken :: replicate 120 at_rest]}
                  DataProcessing.initial in
  let inside := set_local_imu_raw {[address := at_rest :: shaken :: replicate 119 at_rest]}
                  DataProcessing.initial in
  (∃ s' converted,
     imu_conversion address before = (s', Ok tt) ∧
     local_imu_converted s' !! address = Some converted ∧
     length converted = 121%nat ∧
     activity_of_last_120 converted = 0 ∧
     local_activity_level s' !! address = Some [1]) ∧
  (∃ s' converted,
     imu_conversion address inside = (s', Ok tt) ∧
     local_imu_converted s' !! address = Some converted ∧
     length converted = 121%nat ∧
     activity_of_last_120 converted = 1 ∧
     local_activity_level s' !! address = Some [0]).
Proof.
  intros address before inside. split.
  - exists (imu_conversion address before).1.
    eexists. split; [|split; [|split; [|split]]].
    + vm_compute. reflexivity.
    + vm_compute. reflexivity.
    + vm_compute. reflexivity.
    + vm_compute. reflexivity.
    + vm_compute. reflexivity.
  - exists (imu_conversion address inside).1.
    eexists. split; [|split; [|split; [|split]]].
    + vm_compute. reflexivity.
    + vm_compute. reflexivity.
    + vm_compute. reflexivity.
    + vm_compute. reflexivity.
    + vm_compute. reflexivity.
Qed.

End activity.

(** ** DataProcessing: battery percentage *)

Section battery.
Import Globals DataProcessing Spec.

(** [calc_battery_percentage] stores the curve's value for the latest
    voltage sample. *)
Lemma calc_battery_percentage_run (address : string) (s : state)
    (voltages : list Z) (v : Z) :
  local_voltage s !! address = Some (voltages ++ [v]) →
  calc_battery_percentage address s
  = (set_local_battery_percentage
       (<[address := battery_curve v]> (local_battery_percentage s)) s, Ok tt).
Proof.
  intros Hv. unfold calc_battery_percentage, mbind, M_bind, bind, get, lift.
  rewrite Hv, index_last. unfold battery_curve, modify.
  by destruct (3650 <? v).
Qed.

Lemma calc_battery_percentage_absent (address : string) (s : state) :
  local_voltage s !! address = None →
  calc_battery_percentage address s = (s, Ok tt).
Proof.
  intros Hv. unfold calc_battery_percentage, mbind, M_bind, bind, get.
  by rewrite Hv.
Qed.

(** [write_back] emits one datapoint, whose battery percentage is the
    stored one, or the integer 100 when none is stored. *)
Lemma write_back_run (address : string) (s : state) (now : Z)
    (temps : list float) (t : float) (HRs : list Z) (hr : Z)
    (RRs : list float) (rr : float) (SPO2s : list Z) (spo2 : Z)
    (activities : list Z) (activity : Z) :
  current_ts s !! address = Some now →
  local_temp s !! address = Some (temps ++ [t]) →
  local_HR s !! address = Some (HRs ++ [hr]) →
  hp_RR s !! address = Some (RRs ++ [rr]) →
  local_SPO2 s !! address = Some (SPO2s ++ [spo2]) →
  local_activity_level s !! address = Some (activities ++ [activity]) →
  let emitted :=
    {| dp_ts := now; firmwareVersion := 1.23%float;
       batteryPercentage :=
         match local_battery_percentage s !! address with
         | Some percentage => Float percentage
         | None => Int 100
         end;
       temperature := t; heartrate := hr; respirationRate := rr;
       bloodOxygenation := spo2; activityLevel := activity |} in
  write_back address s
  = (set_globals
       (set_processed_data
          (append_at address (Processed emitted) (processed_data (globals s)))
          (globals s)) s, Ok tt).
Proof.
  intros Hts Ht Hhr Hrr Hspo2 Hact emitted.
  unfold write_back, mbind, M_bind, bind, get, lift, subscript.
  rewrite Hts, Ht, Hhr, Hrr, Hspo2, Hact. simpl.
  unfold mbind, result_bind. by rewrite !index_last.
Qed.

(** C8 at the knee of the curve.  With 3650 mV as the latest voltage
    sample the emitted datapoint carries the battery percentage 0, where
    the claim has 12 and the docstring of [calc_battery_percentage] has
    an eighth of the charge left at 3.65 V; one millivolt higher the
    datapoint carries 12.176.  The second branch lacks the offset 12 of
    the first, so every voltage below the knee yields a negative
    percentage: -0.0342 at 3649 mV and -11.97 at 3300 mV, 350 mV below
    the knee.  The first branch is as claimed: 4150 mV gives 100. *)
Theorem battery_percentage_misses_offset :
  let address := "F6:E0:95:D5:9C:95" in
  let stage (v : Z) :=
    set_current_ts {[address := 1000]}
      (set_local_temp {[address := [36.5%float]]}
         (set_local_HR {[address := [72]]}
            (set_hp_RR {[address := [0.25%float]]}
               (set_local_SPO2 {[address := [98]]}
                  (set_local_activity_level {[address := [0]]}
                     (set_local_voltage {[address := [4100; v]]}
                        DataProcessing.initial)))))) in
  let carries (v : Z) (percentage : float) :=
    ∃ s' emitted,
      (calc_battery_percentage address;; write_back address) (stage v) = (s', Ok tt) ∧
      processed_data (globals s') !! address = Some [Processed emitted] ∧
      batteryPercentage emitted = Float percentage in
  carries 3650 0%float ∧
  carries 3651 12.176%float ∧
  carries 3649 (-0.0342)%float ∧
  carries 3300 (-11.97)%float ∧
  carries 4150 100%float ∧
  (0 <? 12)%float = true.
Proof.
  intros address stage carries.
  assert (Hcarries : ∀ v percentage,
            battery_curve v = percentage → carries v percentage).
  { intros v percentage <-.
    assert (Hv : local_voltage (stage v) !! address = Some ([4100] ++ [v]))
      by apply lookup_singleton_eq.
    unfold carries.
    rewrite (bind_run _ _ _ _ _ (calc_battery_percentage_run _ _ _ _ Hv)).
    erewrite (write_back_run address _ 1000 [] 36.5%float [] 72 [] 0.25%float [] 98 [] 0);
      try apply lookup_singleton_eq.
    do 2 eexists. split; [reflexivity|]. split; [by simpl|].
    simpl. by rewrite lookup_insert_eq. }
  repeat split; try apply Hcarries; vm_compute; reflexivity.
Qed.

End battery.

(** ** DataProcessing: voltage windows and stored percentages *)

Section voltage_invariant.
Import Globals DataProcessing Spec.

Context {complex : Type}.
Variable butter_filtfilt : float → float → list Z → result (list float).
Variable fft : list float → result (list complex).
Variable np_abs : complex → float.
Variable hp_filter_signal : list Z → result (list float).
Variable hp_process : list float → result measures.
Variable bad_signal_message : string.

#[local] Instance keeps_battery_follows_voltage_preorder :
  PreOrder keeps_battery_follows_voltage.
Proof.
  split.
  - intros s Hinv. exact Hinv.
  - intros s1 s2 s3 H12 H23 Hinv. apply H23, H12, Hinv.
Qed.

(** An update that touches neither the voltage windows nor the stored
    percentages. *)
Ltac unrelated_update := intros ? Hinv; exact Hinv.

Ltac invariant_step :=
  first
    [ apply preserves_bind; [apply _| |intros ?]
    | apply preserves_mapM; [apply _|apply _|intros ?]
    | apply preserves_try_except; [apply _| |intros ?]
    | apply preserves_when; [apply _|]
    | apply preserves_lift; apply _
    | apply preserves_get; apply _
    | apply (preserves_ret keeps_battery_follows_voltage)
    | apply preserves_modify; unrelated_update ].

Lemma split_data_keeps (address : string) :
  preserves keeps_battery_follows_voltage (split_data address).
Proof.
  unfold split_data. repeat invariant_step.
  unfold split_value. repeat case_bool_decide; repeat invariant_step.
  apply preserves_modify. intros s Hinv key. simpl. unfold append_at.
  destruct (Hinv key) as [Hnone Hsome].
  destruct (decide (key = address)) as [->|Hne].
  - split.
    + destruct (local_voltage s !! address); by rewrite lookup_insert_eq.
    + intros voltages.
      destruct (local_voltage s !! address); rewrite lookup_insert_eq;
        intros [= <-]; [by destruct l|done].
  - destruct (local_voltage s !! address); by rewrite lookup_insert_ne.
Qed.

Lemma calc_battery_percentage_keeps (address : string) :
  preserves keeps_battery_follows_voltage (calc_battery_percentage address).
Proof.
  intros s Hinv. unfold calc_battery_percentage, mbind, M_bind, bind, get, lift.
  destruct (local_voltage s !! address) as [voltages|] eqn:Hv; [|exact Hinv].
  destruct (index voltages (-1)) as [voltage|e]; [|exact Hinv].
  assert (∀ x, battery_follows_voltage
                 (set_local_battery_percentage
                    (<[address := x]> (local_battery_percentage s)) s)) as Hset.
  { intros x key. simpl. destruct (Hinv key) as [Hnone Hsome]. split; [|done].
    intros Hkey. rewrite lookup_insert_ne; [auto|]. intros <-. congruence. }
  destruct (3650 <? voltage); apply Hset.
Qed.

Lemma trim_window_keeps {A} (window_of : state → gmap string (list A))
    set_window (cap k : nat) (address : string) :
  (∀ v s, battery_follows_voltage s → battery_follows_voltage (set_window v s)) →
  preserves keeps_battery_follows_voltage
    (trim_window window_of set_window cap k address).
Proof.
  intros Hset. unfold trim_window. repeat invariant_step.
  apply preserves_modify. intros s Hinv. by apply Hset.
Qed.

Lemma trim_voltage_keeps (address : string) :
  preserves keeps_battery_follows_voltage
    (trim_window local_voltage set_local_voltage 200 100 address).
Proof.
  intros s Hinv. unfold trim_window, mbind, M_bind, bind, get, lift, subscript.
  destruct (local_voltage s !! address) as [window|] eqn:Hv; [|exact Hinv].
  unfold when. destruct (Nat.ltb_spec 200 (length window)); [|exact Hinv].
  intros key. simpl. destruct (Hinv key) as [Hnone Hsome].
  destruct (decide (key = address)) as [->|Hne].
  - rewrite lookup_insert_eq. split; [done|]. intros voltages [= <-].
    intros Hempty. apply (f_equal length) in Hempty.
    rewrite length_drop in Hempty. simpl in Hempty. lia.
  - by rewrite lookup_insert_ne.
Qed.

Lemma delete_old_data_keeps (address : string) :
  preserves keeps_battery_follows_voltage (delete_old_data address).
Proof.
  unfold delete_old_data.
  repeat first
    [ apply trim_voltage_keeps
    | apply trim_window_keeps; [intros ? ? Hinv; exact Hinv]
    | invariant_step ].
Qed.

Lemma pipeline_keeps (address : string) :
  preserves keeps_battery_follows_voltage
    (pipeline butter_filtfilt fft np_abs hp_filter_signal hp_process address).
Proof.
  assert (preserves keeps_battery_follows_voltage
            (ppg_analysis butter_filtfilt fft np_abs address)) as Hppg
    by (unfold ppg_analysis; cbv zeta; repeat invariant_step).
  assert (preserves keeps_battery_follows_voltage (imu_conversion address)) as Himu
    by (unfold imu_conversion; cbv zeta; repeat invariant_step).
  assert (preserves keeps_battery_follows_voltage
            (heartpy_analysis hp_filter_signal hp_process address)) as Hhp
    by (unfold heartpy_analysis; repeat invariant_step).
  assert (preserves keeps_battery_follows_voltage (write_back address)) as Hwb
    by (unfold write_back; cbv zeta; repeat invariant_step).
  unfold pipeline.
  apply preserves_bind; [apply _|apply split_data_keeps|intros _].
  apply preserves_bind; [apply _|exact Hppg|intros _].
  apply preserves_bind; [apply _|exact Himu|intros _].
  apply preserves_bind; [apply _|apply calc_battery_percentage_keeps|intros _].
  apply preserves_bind; [apply _|exact Hhp|intros _].
  apply preserves_bind; [apply _|exact Hwb|intros _].
  apply delete_old_data_keeps.
Qed.

(** Every iteration of the stage maintains the invariant, whether it
    returns or raises; it holds when the module is loaded. *)
Lemma data_processing_tick_keeps :
  preserves keeps_battery_follows_voltage
    (data_processing_tick butter_filtfilt fft np_abs hp_filter_signal hp_process bad_signal_message).
Proof.
  unfold data_processing_tick. invariant_step. invariant_step.
  destruct (bool_decide _); [|invariant_step].
  invariant_step; [|invariant_step].
  invariant_step. unfold process_patch.
  repeat first [ apply pipeline_keeps | invariant_step ].
Qed.

Lemma battery_follows_voltage_initial : battery_follows_voltage DataProcessing.initial.
Proof. intros key. split; [done|]. intros voltages Hv. by simpl in Hv. Qed.

End voltage_invariant.

(** ** DataProcessing: a rejected signal *)

Section rejected_signal.
Import Globals DataProcessing Spec.

Context {complex : Type}.
Variable butter_filtfilt : float → float → list Z → result (list float).
Variable fft : list float → result (list complex).
Variable np_abs : complex → float.
Variable hp_filter_signal : list Z → result (list float).
Variable hp_process : list float → result measures.
Variable bad_signal_message : string.

Lemma grows_refl {A} (d : gmap string (list A)) : grows d d.
Proof. intros a w Hw. exists []. by rewrite app_nil_r. Qed.

Lemma grows_trans {A} (d1 d2 d3 : gmap string (list A)) :
  grows d1 d2 → grows d2 d3 → grows d1 d3.
Proof.
  intros H12 H23 a w Hw.
  destruct (H12 a w Hw) as [n1 H1]. destruct (H23 a _ H1) as [n2 H2].
  exists (n1 ++ n2). by rewrite app_assoc.
Qed.

Lemma grows_append_at {A} (address : string) (x : A) (d : gmap string (list A)) :
  grows d (append_at address x d).
Proof.
  intros a w Hw. unfold append_at.
  destruct (decide (a = address)) as [->|Hne].
  - rewrite Hw. exists [x]. apply lookup_insert_eq.
  - exists []. rewrite app_nil_r.
    destruct (d !! address); by rewrite lookup_insert_ne.
Qed.

Lemma grows_append_rows_at {A} (address : string) (rows : list A)
    (d : gmap string (list A)) :
  grows d (append_rows_at address rows d).
Proof.
  intros a w Hw. unfold append_rows_at.
  destruct (decide (a = address)) as [->|Hne].
  - rewrite Hw. exists rows. apply lookup_insert_eq.
  - exists []. rewrite app_nil_r.
    destruct (d !! address); by rewrite lookup_insert_ne.
Qed.

#[local] Instance windows_retained_preorder : PreOrder windows_retained.
Proof.
  split.
  - intros s. unfold windows_retained. repeat split; auto using @grows_refl.
  - intros s1 s2 s3 H12 H23. unfold windows_retained in *.
    destruct H12 as (?&?&?&?&?&?&?&?&?&?&?), H23 as (?&?&?&?&?&?&?&?&?&?&?).
    repeat split; eauto using @grows_trans.
Qed.

#[local] Instance stage_private_preorder : PreOrder stage_private.
Proof.
  split.
  - intros s. split; reflexivity.
  - intros s1 s2 s3 [H12 G12] [H23 G23]. split; [by etrans|congruence].
Qed.

(** An update of one field with a grown window is private to the stage. *)
Ltac private_update :=
  intros ?; split; [|reflexivity]; unfold windows_retained; simpl;
  repeat split;
  first [ apply grows_refl | apply grows_append_at | apply grows_append_rows_at
        | done ].

Ltac private_step :=
  first
    [ apply preserves_bind; [apply _| |intros ?]
    | apply preserves_mapM; [apply _|apply _|intros ?]
    | apply preserves_lift; apply _
    | apply preserves_get; apply _
    | apply (preserves_ret stage_private)
    | apply preserves_modify; private_update ].

Lemma split_data_private (address : string) :
  preserves stage_private (split_data address).
Proof.
  unfold split_data. repeat private_step.
  unfold split_value. repeat case_bool_decide; repeat private_step.
Qed.

Lemma ppg_analysis_private (address : string) :
  preserves stage_private (ppg_analysis butter_filtfilt fft np_abs address).
Proof. unfold ppg_analysis. cbv zeta. repeat private_step. Qed.

Lemma imu_conversion_private (address : string) :
  preserves stage_private (imu_conversion address).
Proof.
  unfold imu_conversion. cbv zeta. repeat private_step.
  intros s0. split; [|reflexivity]. unfold windows_retained. simpl.
  repeat split; try apply grows_refl.
  intros key Hkey. destruct (decide (key = address)) as [->|Hne].
  - eexists. apply lookup_insert_eq.
  - by rewrite lookup_insert_ne.
Qed.

Lemma calc_battery_percentage_private (address : string) :
  preserves stage_private (calc_battery_percentage address).
Proof.
  unfold calc_battery_percentage. private_step. private_step.
  destruct (local_voltage _ !! address); [|private_step].
  private_step; [private_step|]. destruct (3650 <? _); private_step.
Qed.

Lemma heartpy_analysis_private (address : string) :
  preserves stage_private (heartpy_analysis hp_filter_signal hp_process address).
Proof. unfold heartpy_analysis. repeat private_step. Qed.

(** *** What the last two stages can raise *)

Lemma subscript_raises {V} (d : gmap string V) (k : string) (e : exn) :
  subscript d k = Raise e → Spec.key_or_index_error e.
Proof. unfold subscript. destruct (d !! k); [done|]. intros [= <-]. by left. Qed.

Lemma index_raises {A} (l : list A) (j : Z) (e : exn) :
  index l j = Raise e → Spec.key_or_index_error e.
Proof.
  unfold index, item. destruct (_ && _); [|intros [= <-]; by right].
  destruct (l !! _); [done|]. intros [= <-]. by right.
Qed.

Lemma latest_raises {A} (d : gmap string (list A)) (k : string) (e : exn) :
  (subscript d k ≫= λ l, index l (-1)) = Raise e → Spec.key_or_index_error e.
Proof.
  unfold mbind, result_bind. destruct (subscript d k) as [l|e'] eqn:Hd.
  - apply index_raises.
  - intros [= <-]. by eapply subscript_raises.
Qed.

Ltac raises_step :=
  first
    [ apply raises_only_bind; [|intros ?]
    | apply raises_only_get
    | apply raises_only_modify
    | apply raises_only_when
    | apply raises_only_lift; intros ?;
      first [ apply subscript_raises | apply latest_raises ] ].

Lemma write_back_raises (address : string) :
  raises_only Spec.key_or_index_error (write_back address).
Proof. unfold write_back. cbv zeta. repeat raises_step. Qed.

Lemma trim_window_raises {A} (window_of : state → gmap string (list A))
    set_window (cap k : nat) (address : string) :
  raises_only Spec.key_or_index_error (trim_window window_of set_window cap k address).
Proof. unfold trim_window. repeat raises_step. Qed.

Lemma delete_old_data_raises (address : string) :
  raises_only Spec.key_or_index_error (delete_old_data address).
Proof.
  unfold delete_old_data.
  repeat first [ apply trim_window_raises | raises_step ].
Qed.

(** *** The pipeline under a rejection *)

(** A pipeline aborted by [BadSignalWarning] was aborted before
    [write_back]: it has only extended the patch's windows and has not
    touched the shared mailboxes. *)
Lemma pipeline_rejected (address : string) (s s' : state) :
  pipeline butter_filtfilt fft np_abs hp_filter_signal hp_process address s
  = (s', Raise BadSignalWarning) →
  stage_private s s'.
Proof.
  unfold pipeline.
  apply raise_through; [apply _|apply split_data_private|intros _ s1].
  apply raise_through; [apply _|apply ppg_analysis_private|intros _ s2].
  apply raise_through; [apply _|apply imu_conversion_private|intros _ s3].
  apply raise_through; [apply _|apply calc_battery_percentage_private|intros _ s4].
  apply raise_through; [apply _|apply heartpy_analysis_private|intros _ s5].
  intros Hrest. exfalso.
  assert (Spec.key_or_index_error BadSignalWarning) as [?|?]; [|done|done].
  eapply (raises_only_bind Spec.key_or_index_error (write_back address)
            (λ _, delete_old_data address)); [| |exact Hrest].
  - apply write_back_raises.
  - intros _. apply delete_old_data_raises.
Qed.

(** [process_patch] runs the guarded pipeline from the prepared state. *)
Lemma process_patch_prepared (address : string) (batch : list raw_sample)
    (first final : raw_sample) (s : state) :
  head batch = Some first →
  last batch = Some final →
  process_patch butter_filtfilt fft np_abs hp_filter_signal hp_process bad_signal_message
    address batch s
  = try_except
      (pipeline butter_filtfilt fft np_abs hp_filter_signal hp_process address)
      key_error_or_bad_signal
      (λ e, modify (λ s, set_globals
                           (logging_exception
                              (address +:+ " " +:+ str_of_caught bad_signal_message address e)
                              (globals s)) s))
      (prepared address first final batch s).
Proof.
  intros Hfirst Hfinal. unfold process_patch.
  unfold mbind at 1, M_bind, bind at 1, lift.
  rewrite (item_head _ _ Hfirst). cbn [fmap result_fmap].
  unfold mbind at 1, M_bind, bind at 1, lift.
  rewrite (index_final _ _ Hfinal). cbn [fmap result_fmap].
  reflexivity.
Qed.

(** C9.  When the pipeline of a patch is aborted by [BadSignalWarning],
    the iteration for that patch ends normally: one line, which starts
    with the address of the patch, is appended to the log, no datapoint
    is appended to [processed_data] (no shared mailbox changes), and
    every rolling window and history of every patch is retained for the
    next attempt. *)
Theorem rejected_signal_skips_patch (address : string) (batch : list raw_sample)
    (first final : raw_sample) (s rejected : state) :
  head batch = Some first →
  last batch = Some final →
  pipeline butter_filtfilt fft np_abs hp_filter_signal hp_process address
    (prepared address first final batch s)
  = (rejected, Raise BadSignalWarning) →
  ∃ s',
    process_patch butter_filtfilt fft np_abs hp_filter_signal hp_process
      bad_signal_message address batch s = (s', Ok tt) ∧
    processed_data (globals s') = processed_data (globals s) ∧
    unprocessed_data (globals s') = unprocessed_data (globals s) ∧
    (∃ text, log (globals s') = log (globals s) ++ [address +:+ " " +:+ text]) ∧
    windows_retained s s'.
Proof.
  intros Hfirst Hfinal Hrejected.
  destruct (pipeline_rejected _ _ _ Hrejected) as [Hwindows Hglobals].
  eexists. split; [|split; [|split; [|split]]].
  - rewrite (process_patch_prepared _ _ _ _ _ Hfirst Hfinal).
    unfold try_except. rewrite Hrejected. reflexivity.
  - simpl. by rewrite Hglobals.
  - simpl. by rewrite Hglobals.
  - eexists. simpl. by rewrite Hglobals.
  - etrans; [|etrans; [exact Hwindows|]].
    + unfold windows_retained, prepared. simpl. repeat split; auto using @grows_refl.
    + unfold windows_retained. simpl. repeat split; auto using @grows_refl.
Qed.

End rejected_signal.

Lemma rejected_signal_skips_patch_witness :
  let address := "F6:E0:95:D5:9C:95" in
  let butter_filtfilt := λ (_ _ : float) (x : list Z), Ok (float_of_Z <$> x) in
  let fft := λ _ : list float, Ok (replicate 70 1%float) in
  let np_abs := λ z : float, z in
  let hp_filter_signal := λ x : list Z, Ok (float_of_Z <$> x) in
  let hp_process := λ _ : list float, @Raise DataProcessing.measures BadSignalWarning in
  let bad_signal_message := "Could not determine best fit for given signal." in
  let first := {| Globals.ts := 1000; Globals.values := {["ppg" := [2000; 2000; 7]]} |} in
  let final := {| Globals.ts := 1010; Globals.values := {["imu" := replicate 720 0]} |} in
  ∃ s',
    DataProcessing.process_patch butter_filtfilt fft np_abs hp_filter_signal hp_process
      bad_signal_message address [first; final] DataProcessing.initial = (s', Ok tt) ∧
    Globals.processed_data (DataProcessing.globals s') = ∅ ∧
    ∃ text, Globals.log (DataProcessing.globals s') = [address +:+ " " +:+ text].
Proof.
  intros address butter_filtfilt fft np_abs hp_filter_signal hp_process
    bad_signal_message first final.
  destruct (rejected_signal_skips_patch butter_filtfilt fft np_abs hp_filter_signal
              hp_process bad_signal_message address [first; final] first final
              DataProcessing.initial
              (DataProcessing.pipeline butter_filtfilt fft np_abs hp_filter_signal
                 hp_process address
                 (Spec.prepared address first final [first; final]
                    DataProcessing.initial)).1
              eq_refl eq_refl)
    as (s' & Hrun & Hprocessed & _ & Hlog & _).
  { vm_compute. reflexivity. }
  exists s'. split; [exact Hrun|]. split; [exact Hprocessed|exact Hlog].
Defined.

(** ** DataProcessing: pass-through mode *)

Section pass_through.
Import Globals DataProcessing.

(** C10.  An iteration of [no_data_processing] that finds the raw mailbox
    non-empty makes the whole raw mailbox the processed mailbox and
    empties the raw one; the outcome does not depend on what
    [processed_data] held, so every sample in it afterwards is a raw
    sample of the drained mailbox and whatever was pending is gone. *)
Theorem no_data_processing_replaces_processed (g : Globals.t) :
  unprocessed_data g ≠ ∅ →
  ∃ g', no_data_processing_tick g = (g', Ok tt) ∧
    processed_data g' = (λ samples : list raw_sample, Raw <$> samples) <$> unprocessed_data g ∧
    unprocessed_data g' = ∅ ∧
    (∀ pending, no_data_processing_tick (set_processed_data pending g) = (g', Ok tt)) ∧
    (∀ address samples x,
       processed_data g' !! address = Some samples → x ∈ samples →
       ∃ r batch, x = Raw r ∧ unprocessed_data g !! address = Some batch ∧ r ∈ batch).
Proof.
  intros Hne. unfold no_data_processing_tick, mbind, M_bind, bind, get, modify.
  eexists. split; [by rewrite bool_decide_eq_true_2|].
  split; [done|]. split; [done|]. split.
  - intros pending. simpl. by rewrite bool_decide_eq_true_2.
  - intros address samples x. simpl. rewrite lookup_fmap.
    destruct (unprocessed_data g !! address) as [batch|]; [|done].
    intros [= <-] (r & -> & Hr)%list_elem_of_fmap. eauto.
Qed.

Lemma no_data_processing_replaces_processed_witness :
  let sample := {| ts := 1000; values := {["imu" := [0; -1; 2]]} |} in
  let pending :=
    Processed {| dp_ts := 900; firmwareVersion := 1.23; batteryPercentage := Int 100;
                 temperature := 36.5; heartrate := 72; respirationRate := 0.25;
                 bloodOxygenation := 98; activityLevel := 0 |} in
  let g := set_processed_data {["F6:E0:95:D5:9C:95" := [pending]]}
             (set_unprocessed_data {["F6:E0:95:D5:9C:95" := [sample]]} Globals.initial) in
  ∃ g', no_data_processing_tick g = (g', Ok tt) ∧
    processed_data g' = {["F6:E0:95:D5:9C:95" := [Raw sample]]} ∧
    unprocessed_data g' = ∅.
Proof.
  intros sample pending g.
  destruct (no_data_processing_replaces_processed g) as (g' & Hrun & Hp & Hu & _).
  { intros Hempty. apply (f_equal (λ m, m !! "F6:E0:95:D5:9C:95")) in Hempty.
    vm_compute in Hempty. discriminate Hempty. }
  exists g'. split; [exact Hrun|]. split; [|exact Hu].
  rewrite Hp. unfold g. simpl. by rewrite map_fmap_singleton.
Defined.

End pass_through.

(** * The request protocol, the stage and the sinks

    The rest of the request protocol between [Mapping] and [Ble], the
    byte conversions, what an iteration of the stage does to the shared
    store, and the two sinks of [processed_data]. *)

(** ** More on sequencing *)
Section more_sequencing.

Lemma bind_raise_run {S A B} (m : M S A) (k : A → M S B) s s1 e :
  m s = (s1, Raise e) → (m ≫= k) s = (s1, Raise e).
Proof. intros Hm. unfold mbind, M_bind, bind. by rewrite Hm. Qed.

Lemma bind_ok_inv {S A B} (m : M S A) (k : A → M S B) s s' b :
  (m ≫= k) s = (s', Ok b) → ∃ a s1, m s = (s1, Ok a) ∧ k a s1 = (s', Ok b).
Proof.
  unfold mbind, M_bind, bind. destruct (m s) as [s1 [a|e]]; [|done].
  intros Hk. by exists a, s1.
Qed.

Lemma preserves_run {S A} (R : S → S → Prop) (m : M S A) s s' r :
  preserves R m → m s = (s', r) → R s s'.
Proof. intros Hm Hrun. specialize (Hm s). by rewrite Hrun in Hm. Qed.

Lemma raises_only_mapM {S A B} (E : exn → Prop) (f : A → M S B) (l : list A) :
  (∀ x, raises_only E (f x)) → raises_only E (mapM f l).
Proof.
  intros Hf. induction l as [|x l IH]; [apply raises_only_ret|].
  cbn [mapM]. apply raises_only_bind; [apply Hf|]. intros y.
  apply raises_only_bind; [exact IH|]. intros k. apply raises_only_ret.
Qed.

(** A value computed before the store is touched is known in what
    follows. *)
Lemma preserves_bind_lift {S A B} (R : S → S → Prop) `{!Reflexive R}
    (r : result A) (k : A → M S B) :
  (∀ a, r = Ok a → preserves R (k a)) → preserves R (lift r ≫= k).
Proof.
  intros Hk s. unfold mbind, M_bind, bind, lift.
  destruct r as [a|e]; [by apply Hk|simpl; reflexivity].
Qed.

End more_sequencing.

(** ** Mapping: disconnects, start-up and the one-to-one binding *)

Section mapping_more.
Import Globals Mapping Spec.

Lemma patient_mapping_pop_run key patient (g : Globals.t) :
  patient_mapping g !! key = Some patient →
  patient_mapping_pop key g
  = (set_patient_mapping (delete key (patient_mapping g)) g, Ok patient).
Proof.
  intros Hpm.
  unfold patient_mapping_pop, mbind, M_bind, bind, get, modify, lift, subscript.
  by rewrite Hpm.
Qed.

(** What [disconnect_update] leaves behind. *)
Lemma disconnect_update_run (mac_address : string) (g : Globals.t) :
  ∃ g', disconnect_update mac_address g = (g', Ok tt) ∧
    patient_mapping g' = delete mac_address (patient_mapping g) ∧
    mac_address_update g'
    = (if decide (mac_address = "disconnected") then mac_address_update g
       else <[mac_address := "remove"]> (mac_address_update g)) ∧
    same_other_mailboxes g g'.
Proof.
  unfold disconnect_update, mbind, M_bind, bind, get.
  set (g1 := (if bool_decide (mac_address ≠ "disconnected")
              then modify _ else ret tt) g).
  assert (Hg1 : g1 = ((if decide (mac_address = "disconnected") then g
                      else set_mac_address_update
                        (<[mac_address := "remove"]> (mac_address_update g)) g), Ok tt)).
  { subst g1. destruct (decide (mac_address = "disconnected")) as [->|Hne].
    - by rewrite bool_decide_eq_false_2 by (intros H; by apply H).
    - by rewrite bool_decide_eq_true_2. }
  rewrite Hg1. clear g1 Hg1. cbv beta iota.
  set (g1 := if decide (mac_address = "disconnected") then g else _).
  assert (Hpm : patient_mapping g1 = patient_mapping g)
    by (subst g1; by destruct (decide _)).
  assert (Hmau : mac_address_update g1
    = if decide (mac_address = "disconnected") then mac_address_update g
      else <[mac_address := "remove"]> (mac_address_update g))
    by (subst g1; by destruct (decide _)).
  assert (Hothers : same_other_mailboxes g g1)
    by (subst g1; destruct (decide _); by repeat split).
  clearbody g1.
  destruct (patient_mapping g1 !! mac_address) as [patient|] eqn:Hbound.
  - rewrite bool_decide_eq_true_2 by done.
    rewrite (patient_mapping_pop_run _ _ _ Hbound). cbv beta iota.
    eexists. split; [reflexivity|]. simpl. rewrite Hpm.
    repeat split; try done; apply Hothers.
  - rewrite bool_decide_eq_false_2 by (by intros [? ?]).
    eexists. split; [reflexivity|]. rewrite <- Hpm, Hmau.
    rewrite delete_id by done. repeat split; try done; apply Hothers.
Qed.

(** X1.  A [Disconnected] event for a patch never raises: the patch is
    removed from the patient mapping if it was bound (and only it), a
    ['remove'] request is filed for it unless its address is the
    placeholder ["disconnected"], and no other mailbox changes. *)
Theorem disconnect_update_effect (mac_address : string) (g : Globals.t) :
  ∃ g', disconnect_update mac_address g = (g', Ok tt) ∧
    patient_mapping g' !! mac_address = None ∧
    (∀ other, other ≠ mac_address →
              patient_mapping g' !! other = patient_mapping g !! other) ∧
    mac_address_update g'
    = (if decide (mac_address = "disconnected") then mac_address_update g
       else <[mac_address := "remove"]> (mac_address_update g)) ∧
    same_other_mailboxes g g'.
Proof.
  destruct (disconnect_update_run mac_address g) as (g' & Hrun & Hpm & Hmau & Hsame).
  exists g'. split; [exact Hrun|]. rewrite Hpm.
  split; [apply lookup_delete_eq|]. split; [|by split].
  intros other Hother. by apply lookup_delete_ne.
Qed.


Lemma connect_update_run (patient_name mac_address : string) (g : Globals.t) :
  ∃ g1, connect_update patient_name mac_address g
        = (set_mac_address_update (<[mac_address := "add"]> (mac_address_update g1))
             (set_patient_mapping
                (<[mac_address := patient_name]> (patient_mapping g1)) g1), Ok tt) ∧
    (∀ a, patient_mapping g1 !! a =
            if decide (patient_mapping g !! a = Some patient_name) then None
            else patient_mapping g !! a) ∧
    (∀ a, mac_address_update g1 !! a =
            if decide (patient_mapping g !! a = Some patient_name) then Some "remove"
            else mac_address_update g !! a) ∧
    same_other_mailboxes g g1.
Proof.
  destruct (delete_previous_run (gather_previous patient_name (patient_mapping g)) g)
    as (g1 & Hrun & Hpm & Hmau & Hsame).
  { apply NoDup_gather_previous. }
  { intros a Ha%elem_of_gather_previous. eauto. }
  exists g1. split; [|split; [|split]].
  - unfold connect_update, mbind, M_bind, bind, get.
    case_bool_decide as Hin.
    + by rewrite Hrun.
    + rewrite (gather_previous_absent _ _ Hin) in Hrun.
      change (delete_previous [] g) with (ret (S := Globals.t) tt g) in Hrun.
      by rewrite Hrun.
  - intros a. rewrite Hpm.
    destruct (decide (a ∈ _)) as [Ha|Ha]; rewrite elem_of_gather_previous in Ha.
    + by rewrite decide_True.
    + by rewrite decide_False.
  - intros a. rewrite Hmau.
    destruct (decide (a ∈ _)) as [Ha|Ha]; rewrite elem_of_gather_previous in Ha.
    + by rewrite decide_True.
    + by rewrite decide_False.
  - exact Hsame.
Qed.

(** X2.  If no patient is bound to two patches, this is still so after a
    [Connected] and after a [Disconnected] event, whatever patient and
    patch the event names. *)
Theorem updates_keep_one_patch_per_patient (patient_name mac_address : string)
    (g : Globals.t) :
  one_patch_per_patient (patient_mapping g) →
  one_patch_per_patient (patient_mapping (connect_update patient_name mac_address g).1) ∧
  one_patch_per_patient (patient_mapping (disconnect_update mac_address g).1).
Proof.
  intros Hone. split.
  - destruct (connect_update_run patient_name mac_address g)
      as (g1 & -> & Hpm & _ & _). simpl.
    assert (Hleft : ∀ a p, patient_mapping g1 !! a = Some p →
              patient_mapping g !! a = Some p ∧ p ≠ patient_name).
    { intros a p. rewrite Hpm. destruct (decide _) as [|Hne]; [done|].
      intros Hp. split; [done|]. congruence. }
    intros a b p Ha Hb.
    destruct (decide (a = mac_address)) as [->|Hna],
             (decide (b = mac_address)) as [->|Hnb]; [done| | |].
    + rewrite lookup_insert_eq in Ha. rewrite lookup_insert_ne in Hb by done.
      injection Ha as <-. by apply Hleft in Hb as [_ ?].
    + rewrite lookup_insert_eq in Hb. rewrite lookup_insert_ne in Ha by done.
      injection Hb as <-. by apply Hleft in Ha as [_ ?].
    + rewrite lookup_insert_ne in Ha, Hb by done.
      apply Hleft in Ha as [Ha _]. apply Hleft in Hb as [Hb _]. by eapply Hone.
  - destruct (disconnect_update_run mac_address g) as (g' & -> & Hpm & _).
    simpl. rewrite Hpm.
    intros a b p [_ Ha]%lookup_delete_Some [_ Hb]%lookup_delete_Some. by eapply Hone.
Qed.

Lemma updates_keep_one_patch_per_patient_witness :
  let g := set_patient_mapping {["AA:01" := "P1"; "AA:02" := "P2"]} Globals.initial in
  one_patch_per_patient (patient_mapping (connect_update "P2" "AA:01" g).1) ∧
  one_patch_per_patient (patient_mapping (disconnect_update "AA:01" g).1).
Proof.
  apply updates_keep_one_patch_per_patient.
  intros a b p Ha Hb. simpl in Ha, Hb.
  apply lookup_insert_Some in Ha as [[<- <-]|[Hna Ha]].
  - apply lookup_insert_Some in Hb as [[<- _]|[_ Hb]]; [done|].
    apply lookup_singleton_Some in Hb as [_ [=]].
  - apply lookup_singleton_Some in Ha as [<- <-].
    apply lookup_insert_Some in Hb as [[_ [=]]|[_ Hb]].
    by apply lookup_singleton_Some in Hb as [<- _].
Defined.

(** X3.  After a [Connected] event, [get_matching_device] finds the
    patient for the patch; after a [Disconnected] event for the same
    patch it finds none, the patient is bound to no patch at all, and the
    pending request of the patch is ['remove'], the ['add'] being
    overwritten (for the placeholder address ["disconnected"] the ['add']
    stays). *)
Theorem connect_then_disconnect (patient_name mac_address : string) (g : Globals.t) :
  let g1 := (connect_update patient_name mac_address g).1 in
  let g2 := (disconnect_update mac_address g1).1 in
  get_matching_device mac_address (patient_mapping g1) = Some patient_name ∧
  get_matching_device mac_address (patient_mapping g2) = None ∧
  (∀ address, patient_mapping g2 !! address ≠ Some patient_name) ∧
  mac_address_update g2 !! mac_address
  = Some (if decide (mac_address = "disconnected") then "add" else "remove").
Proof.
  intros g1 g2. subst g2.
  destruct (disconnect_update_run mac_address g1) as (g2 & -> & Hpm2 & Hmau2 & _).
  subst g1.
  destruct (connect_update_run patient_name mac_address g) as (g1 & Hrun & Hpm & _ & _).
  rewrite Hrun in Hpm2, Hmau2 |- *. simpl in *. unfold get_matching_device. rewrite Hpm2.
  rewrite lookup_insert_eq, lookup_delete_eq. repeat split.
  - intros a. destruct (decide (a = mac_address)) as [->|Hne].
    + by rewrite lookup_delete_eq.
    + rewrite lookup_delete_ne, lookup_insert_ne, Hpm by done.
      by destruct (decide (patient_mapping g !! a = Some patient_name)).
  - rewrite Hmau2. destruct (decide _).
    + apply lookup_insert_eq.
    + apply lookup_insert_eq.
Qed.

Lemma seed_requests_run (addresses : list string) (g : Globals.t) :
  ∃ g' done, mapM (λ macAddress : string,
                 modify (λ g, set_mac_address_update
                                (<[macAddress := "add"]> (mac_address_update g)) g))
               addresses g = (g', Ok done) ∧
    (∀ a, mac_address_update g' !! a
          = if decide (a ∈ addresses) then Some "add" else mac_address_update g !! a) ∧
    patient_mapping g' = patient_mapping g ∧
    same_other_mailboxes g g'.
Proof.
  revert g. induction addresses as [|k ks IH]; intros g.
  - exists g, []. split; [done|].
    repeat split; intros; by rewrite ?decide_False by set_solver.
  - set (g1 := set_mac_address_update (<[k := "add"]> (mac_address_update g)) g).
    destruct (IH g1) as (g' & done & Hrun & Hmau & Hpm & Hsame).
    exists g', (tt :: done). split; [|split; [|split]].
    + cbn [mapM]. rewrite (bind_run _ _ g g1 tt) by done.
      by rewrite (bind_run _ _ _ _ _ Hrun).
    + intros a. rewrite Hmau. simpl.
      destruct (decide (a = k)) as [->|Hne].
      * rewrite lookup_insert_eq. rewrite (decide_True (P := k ∈ k :: ks)) by left.
        by destruct (decide (k ∈ ks)).
      * rewrite lookup_insert_ne by done.
        destruct (decide (a ∈ ks)).
        -- rewrite decide_True; [done|by right].
        -- rewrite decide_False; [done|]. by intros [?|?]%elem_of_cons.
    + by rewrite Hpm.
    + destruct Hsame as (? & ? & ? & ? & ?). by repeat split.
Qed.

(** X4.  The start of [patient_mapping_loop] never raises: the fetched
    mapping becomes the patient mapping, every patch of it gets an
    ['add'] request (replacing a request it had), the requests of other
    patches stay, and no other mailbox changes. *)
Theorem patient_mapping_init_seeds_requests (fetched : gmap string string)
    (g : Globals.t) :
  ∃ g', patient_mapping_init fetched g = (g', Ok tt) ∧
    patient_mapping g' = fetched ∧
    mac_address_update g' = ((λ _, "add") <$> fetched) ∪ mac_address_update g ∧
    same_other_mailboxes g g'.
Proof.
  unfold patient_mapping_init.
  rewrite (bind_run _ _ g (set_patient_mapping fetched g) tt) by done.
  rewrite (bind_run _ _ _ (set_patient_mapping fetched g)
             (set_patient_mapping fetched g)) by done.
  change (patient_mapping (set_patient_mapping fetched g)) with fetched.
  destruct (seed_requests_run (map_to_list fetched).*1 (set_patient_mapping fetched g))
    as (g' & done & Hrun & Hmau & Hpm & Hsame).
  rewrite (bind_run _ _ _ _ _ Hrun).
  exists g'. split; [done|]. split; [by rewrite Hpm|]. split; [|exact Hsame].
  apply map_eq. intros a. rewrite Hmau, lookup_union, lookup_fmap. simpl.
  destruct (fetched !! a) as [p|] eqn:Hf; simpl.
  - rewrite decide_True.
    + by destruct (mac_address_update g !! a).
    + apply list_elem_of_fmap. exists (a, p). split; [done|].
      by apply elem_of_map_to_list.
  - rewrite decide_False.
    + by destruct (mac_address_update g !! a).
    + intros [[k v] [-> Hin%elem_of_map_to_list]]%list_elem_of_fmap. simpl in Hf.
      congruence.
Qed.

End mapping_more.

(** ** Ble: the request protocol *)

Section requests.
Import Globals Ble Spec.

Lemma get_key_from_value_found (d : gmap string string) (val key : string) :
  get_key_from_value d val = Ok key → d !! key = Some val.
Proof.
  unfold get_key_from_value, item.
  destruct (_ !! 0%nat) as [k|] eqn:Hk; [|done]. intros [= ->].
  apply list_elem_of_lookup_2 in Hk.
  apply list_elem_of_fmap in Hk as [[k v] [-> [Hv Hin]%list_elem_of_filter]].
  simpl in *. subst v. by apply elem_of_map_to_list.
Qed.

Lemma get_key_from_value_some (d : gmap string string) (val key : string) :
  d !! key = Some val → ∃ first, get_key_from_value d val = Ok first.
Proof.
  intros Hkey. unfold get_key_from_value, item.
  destruct (_ !! 0%nat) as [k|] eqn:Hk; [by eexists|]. exfalso.
  apply lookup_ge_None_1 in Hk.
  assert (Hin : key ∈ (filter (λ kv, kv.2 = val) (map_to_list d)).*1).
  { apply list_elem_of_fmap. exists (key, val). split; [done|].
    apply list_elem_of_filter. split; [done|]. by apply elem_of_map_to_list. }
  destruct (filter _ _).*1; [by apply elem_of_nil in Hin|simpl in Hk; lia].
Qed.

Lemma elem_of_values (d : gmap string string) (val : string) :
  val ∈ (map_to_list d).*2 ↔ ∃ key, d !! key = Some val.
Proof.
  rewrite list_elem_of_fmap. split.
  - intros [[k v] [-> Hin%elem_of_map_to_list]]. by exists k.
  - intros [k Hk]. exists (k, val). split; [done|]. by apply elem_of_map_to_list.
Qed.

(** X5.  [get_key_from_value] returns a key that holds the value; it
    raises, and then [IndexError], exactly when no key holds it. *)
Theorem get_key_from_value_outcome (d : gmap string string) (val : string) :
  match get_key_from_value d val with
  | Ok key => d !! key = Some val
  | Raise e => e = IndexError ∧ ∀ key, d !! key ≠ Some val
  end.
Proof.
  destruct (get_key_from_value d val) as [key|e] eqn:Hrun.
  - by apply get_key_from_value_found.
  - split.
    + unfold get_key_from_value, item in Hrun.
      destruct (_ !! 0%nat); congruence.
    + intros key Hkey. apply get_key_from_value_some in Hkey as [first Hfirst].
      congruence.
Qed.

Lemma del_mac_address_update_run (address request : string) (g : Globals.t) :
  mac_address_update g !! address = Some request →
  del_mac_address_update address g
  = (set_mac_address_update (delete address (mac_address_update g)) g, Ok tt).
Proof.
  intros Hreq.
  unfold del_mac_address_update, mbind, M_bind, bind, get, lift, subscript.
  by rewrite Hreq.
Qed.

(** X6.  [search_connectable_devices] never raises.  Either no ['add']
    request is pending, it returns ['None'] and changes nothing; or it
    returns an address whose request was ['add'] and deletes that one
    request, leaving everything else as it was. *)
Theorem search_connectable_devices_takes_request (g : Globals.t) :
  ∃ g' address, search_connectable_devices g = (g', Ok address) ∧
    ((address = "None" ∧ g' = g ∧ ∀ a, mac_address_update g !! a ≠ Some "add") ∨
     (mac_address_update g !! address = Some "add" ∧
      g' = set_mac_address_update (delete address (mac_address_update g)) g)).
Proof.
  unfold search_connectable_devices.
  rewrite (bind_run _ _ g g g) by done.
  case_bool_decide as Hin.
  - apply elem_of_values in Hin as [key Hkey].
    destruct (get_key_from_value_some _ _ _ Hkey) as [address Hfirst].
    pose proof (get_key_from_value_found _ _ _ Hfirst) as Hreq.
    rewrite (bind_run _ _ g g address) by (unfold lift; by rewrite Hfirst).
    rewrite (bind_run _ _ _ _ _ (del_mac_address_update_run _ _ _ Hreq)).
    eexists _, address. split; [done|]. right. by split.
  - exists g, "None". split; [done|]. left. repeat split.
    intros a Ha. apply Hin, elem_of_values. by exists a.
Qed.

(** X7.  A pass of [invalid_remove_request_task] never raises.  It
    changes nothing, or it deletes one ['remove'] request of a patch that
    is not among the connected devices and logs it; an ['add'] request
    and the request of a connected patch are never deleted. *)
Theorem invalid_remove_request_pass_effect (g : Globals.t) :
  ∃ g', invalid_remove_request_pass g = (g', Ok tt) ∧
    (g' = g ∨
     ∃ address,
       mac_address_update g !! address = Some "remove" ∧
       connected_devices g !! address = None ∧
       g' = set_mac_address_update (delete address (mac_address_update g))
              (logging_exception ("invalid remove request from " +:+ address) g)) ∧
    (∀ address,
       mac_address_update g !! address = Some "add" ∨
       is_Some (connected_devices g !! address) →
       mac_address_update g' !! address = mac_address_update g !! address).
Proof.
  assert (Hmain : ∃ g', invalid_remove_request_pass g = (g', Ok tt) ∧
    (g' = g ∨
     ∃ address,
       mac_address_update g !! address = Some "remove" ∧
       connected_devices g !! address = None ∧
       g' = set_mac_address_update (delete address (mac_address_update g))
              (logging_exception ("invalid remove request from " +:+ address) g))).
  { unfold invalid_remove_request_pass.
    rewrite (bind_run _ _ g g g) by done.
    case_bool_decide as Hin; [|exists g; split; [done|by left]].
    apply elem_of_values in Hin as [key Hkey].
    destruct (get_key_from_value_some _ _ _ Hkey) as [address Hfirst].
    pose proof (get_key_from_value_found _ _ _ Hfirst) as Hreq.
    rewrite (bind_run _ _ g g address) by (unfold lift; by rewrite Hfirst).
    case_bool_decide as Hconn; [|exists g; split; [done|by left]].
    rewrite (bind_run _ _ g (logging_exception _ g) tt) by done.
    rewrite (del_mac_address_update_run address "remove") by done.
    eexists. split; [done|]. right. by exists address. }
  destruct Hmain as (g' & Hrun & Hcases). exists g'. split; [done|]. split; [done|].
  intros a Ha. destruct Hcases as [->|(address & Hreq & Hconn & ->)]; [done|].
  simpl. apply lookup_delete_ne. intros <-.
  destruct Ha as [Ha|[v Hv]]; congruence.
Qed.

End requests.

(** ** Ble: integers and bytes *)

Section byte_strings.
Import Globals Ble Spec.

Lemma byte_value_of_value (z : Z) : byte_value (byte_of_value z) = z `mod` 256.
Proof.
  unfold byte_value, byte_of_value.
  pose proof (Z.mod_pos_bound z 256 ltac:(lia)) as Hrange.
  destruct (Byte.of_N (Z.to_N (z `mod` 256))) as [b|] eqn:Hb.
  - apply Byte.to_of_N in Hb. simpl. rewrite Hb. lia.
  - apply Byte.of_N_None_iff in Hb. lia.
Qed.

Lemma byte_of_value_value (b : Byte.byte) : byte_of_value (byte_value b) = b.
Proof.
  unfold byte_value, byte_of_value.
  pose proof (Byte.to_N_bounded b) as Hrange.
  rewrite Z.mod_small by lia. rewrite N2Z.id. by rewrite Byte.of_to_N.
Qed.

Lemma length_little_endian_bytes (n : Z) (length : nat) :
  List.length (little_endian_bytes n length) = length.
Proof.
  revert n. induction length as [|length IH]; intros n; simpl; [done|].
  by rewrite IH.
Qed.

Lemma little_endian_of_bytes (n : Z) (length : nat) :
  little_endian (little_endian_bytes n length) = n `mod` 256 ^ Z.of_nat length.
Proof.
  revert n. induction length as [|length IH]; intros n.
  - simpl. by rewrite Z.mod_1_r.
  - cbn [little_endian_bytes little_endian].
    rewrite byte_value_of_value, IH.
    rewrite Nat2Z.inj_succ, Z.pow_succ_r by lia.
    rewrite Z.rem_mul_r by lia. done.
Qed.

Lemma little_endian_upper (group : list Byte.byte) :
  little_endian group < 256 ^ Z.of_nat (length group).
Proof.
  induction group as [|b rest IH]; [done|].
  cbn [little_endian length]. rewrite Nat2Z.inj_succ, Z.pow_succ_r by lia.
  pose proof (byte_value_range b). lia.
Qed.

Lemma bytes_of_little_endian (group : list Byte.byte) :
  little_endian_bytes (little_endian group) (length group) = group.
Proof.
  induction group as [|b rest IH]; [done|].
  cbn [little_endian length little_endian_bytes].
  pose proof (byte_value_range b) as Hb. f_equal.
  - transitivity (byte_of_value (byte_value b)); [|apply byte_of_value_value].
    unfold byte_of_value. by rewrite (Z.mul_comm 256), Z.mod_add by lia.
  - rewrite (Z.mul_comm 256), Z.div_add by lia.
    rewrite Z.div_small by lia. exact IH.
Qed.

(** X8.  [n.to_bytes(length, 'little')] returns exactly for
    [0 <= n < 256^length]; the result has [length] bytes and
    [int.from_bytes] reads [n] back from it.  Otherwise it raises
    [OverflowError]. *)
Theorem int_to_bytes_round_trip (n : Z) (length : nat) :
  match int_to_bytes n length with
  | Ok bytes =>
      0 ≤ n < 256 ^ Z.of_nat length ∧
      List.length bytes = length ∧
      int_from_bytes bytes false = n
  | Raise e => e = OverflowError ∧ (n < 0 ∨ 256 ^ Z.of_nat length ≤ n)
  end.
Proof.
  unfold int_to_bytes.
  destruct (Z.ltb_spec n 0) as [Hneg|Hpos]; [split; [done|by left]|].
  destruct (Z.leb_spec (256 ^ Z.of_nat length) n) as [Hbig|Hfit];
    [split; [done|by right]|].
  split; [lia|]. split; [apply length_little_endian_bytes|].
  rewrite int_from_bytes_decode_group. simpl.
  rewrite little_endian_of_bytes. apply Z.mod_small. lia.
Qed.

(** X9.  Writing the unsigned value of a byte string back into as many
    bytes returns the byte string. *)
Theorem int_from_bytes_round_trip (bytes : list Byte.byte) :
  int_to_bytes (int_from_bytes bytes false) (length bytes) = Ok bytes.
Proof.
  rewrite int_from_bytes_decode_group. simpl. unfold int_to_bytes.
  pose proof (little_endian_nonneg bytes). pose proof (little_endian_upper bytes).
  destruct (Z.ltb_spec (little_endian bytes) 0); [lia|].
  destruct (Z.leb_spec (256 ^ Z.of_nat (length bytes)) (little_endian bytes)); [lia|].
  by rewrite bytes_of_little_endian.
Qed.

Lemma decode_group_range (signed : bool) (width : nat) (group : list Byte.byte) :
  length group = width → width ≠ 0%nat →
  in_width_range signed width (decode_group signed group).
Proof.
  intros <- Hpos. unfold in_width_range, decode_group, twos_complement.
  pose proof (little_endian_nonneg group) as Hlo.
  pose proof (little_endian_upper group) as Hhi.
  replace (256 ^ Z.of_nat (length group)) with (2 ^ (8 * Z.of_nat (length group)))
    in Hhi by (rewrite Z.pow_mul_r by lia; done).
  destruct signed; [|lia].
  set (bits := 8 * Z.of_nat (length group)) in *.
  assert (Hbits : 2 ^ bits = 2 * 2 ^ (bits - 1)).
  { rewrite <- Z.pow_succ_r by lia. f_equal. lia. }
  destruct (Z.ltb_spec (2 * little_endian group) (2 ^ bits)); lia.
Qed.

(** X10.  For a characteristic of the width table, [convert_data]
    returns on every payload, complete or not: one value per complete
    group, each within the range of the width, signed for [ppg] and [imu]
    and unsigned otherwise. *)
Theorem convert_data_values_in_range (char : string) (width : nat)
    (data : list Byte.byte) :
  bytes_per_int !! char = Some width →
  ∃ converted, convert_data char data = Ok converted ∧
    length converted = (length data / width)%nat ∧
    Forall (in_width_range (signed_characteristic char) width) converted.
Proof.
  intros Hw. eexists. split; [by apply convert_data_groups|].
  assert (width ≠ 0)%nat as Hpos by (apply bytes_per_int_width in Hw; lia).
  unfold consecutive_groups. split; [by rewrite length_fmap, length_groups_of|].
  destruct (groups_of_cover (length data / width) width data) as [_ Hall].
  { pose proof (Nat.div_mod_eq (length data) width). lia. }
  apply Forall_fmap. eapply Forall_impl; [exact Hall|].
  intros group Hlen. by apply decode_group_range.
Qed.

Lemma convert_data_values_in_range_witness :
  ∃ converted,
    convert_data "imu" [Byte.x00; Byte.x80; Byte.xff; Byte.x7f; Byte.x01] = Ok converted ∧
    length converted = 2%nat ∧
    Forall (in_width_range true 2) converted.
Proof.
  exact (convert_data_values_in_range "imu" 2
           [Byte.x00; Byte.x80; Byte.xff; Byte.x7f; Byte.x01] eq_refl).
Defined.

(** X11.  A notification from a handle outside [notify_handles] makes
    the callback raise [KeyError] and store nothing.  For a known handle
    the callback returns on every payload: the conversion cannot fail,
    since every characteristic of [notify_handles] has a width, and the
    store changes by exactly one sample appended to the patch's list. *)
Theorem callback_outcome (address : string) (timestamp sender : Z)
    (data : list Byte.byte) (g : Globals.t) :
  match notify_handles !! sender with
  | None => callback address timestamp sender data g = (g, Raise KeyError)
  | Some char =>
      ∃ converted,
        convert_data char data = Ok converted ∧
        callback address timestamp sender data g
        = (set_unprocessed_data
             (<[address := default [] (unprocessed_data g !! address)
                           ++ [{| ts := timestamp; values := {[char := converted]} |}]]>
                (unprocessed_data g)) g, Ok tt)
  end.
Proof.
  destruct (notify_handles !! sender) as [char|] eqn:Hchar.
  - destruct (notify_handles_char _ _ Hchar) as [width Hw].
    eexists. split; [by apply convert_data_groups|].
    unfold callback, mbind, M_bind, bind, lift, subscript. rewrite Hchar.
    rewrite (convert_data_groups _ _ _ Hw). unfold modify.
    by destruct (unprocessed_data g !! address).
  - unfold callback, mbind, M_bind, bind, lift, subscript. by rewrite Hchar.
Qed.

End byte_strings.

(** ** Ble: disconnecting and configuring a patch *)

Section handshake.
Import Globals Ble Spec.

(** A guarded link call returns: a failure in the guarded classes is
    logged, and the requests are as before. *)
Lemma guarded_call_run (call : result unit) (classes : exn → bool) (msg : string)
    (g : Globals.t) :
  (∀ e, call = Raise e → classes e = true) →
  ∃ g1, try_except (lift call) classes (λ _, modify (logging_exception msg)) g
        = (g1, Ok tt) ∧
    mac_address_update g1 = mac_address_update g.
Proof.
  intros Hguard. unfold try_except, lift.
  destruct call as [[]|e]; [by exists g|].
  rewrite (Hguard e eq_refl). by eexists.
Qed.

Lemma stop_notifications_run (stop_notify : Z → result unit) (address : string)
    (handles : list (Z * string)) (g : Globals.t) :
  (∀ handle e, stop_notify handle = Raise e → key_or_bleak_error e = true) →
  ∃ g1 done,
    mapM (λ handle : Z * string,
            try_except (lift (stop_notify handle.1)) key_or_bleak_error
              (λ _, modify (logging_exception
                              (address +:+ " : " +:+ handle.2
                               +:+ " notifications could not be stopped"))))
         handles g = (g1, Ok done) ∧
    mac_address_update g1 = mac_address_update g.
Proof.
  intros Hguard. revert g. induction handles as [|handle handles IH]; intros g.
  - by exists g, [].
  - destruct (guarded_call_run (stop_notify handle.1) key_or_bleak_error
                (address +:+ " : " +:+ handle.2
                 +:+ " notifications could not be stopped") g (Hguard _))
      as (g1 & Hcall & Hreq1).
    destruct (IH g1) as (g2 & done & Hrest & Hreq2).
    exists g2, (tt :: done). split; [|congruence].
    cbn [mapM]. rewrite (bind_run _ _ _ _ _ Hcall).
    by rewrite (bind_run _ _ _ _ _ Hrest).
Qed.

(** What [disconnect] does up to the deletion of the request. *)
Lemma disconnect_run (stop_notify : Z → result unit) (device_disconnect : result unit)
    (address : string) (g : Globals.t) :
  (∀ handle e, stop_notify handle = Raise e → key_or_bleak_error e = true) →
  (∀ e, device_disconnect = Raise e → e = BleakError) →
  ∃ g1, mac_address_update g1 = mac_address_update g ∧
    disconnect stop_notify device_disconnect address g
    = del_mac_address_update address g1.
Proof.
  intros Hstop Hdisc.
  destruct (stop_notifications_run stop_notify address notify_handles_items g Hstop)
    as (g1 & done & Hrun1 & Hreq1).
  destruct (guarded_call_run device_disconnect (λ e, bool_decide (e = BleakError))
              (address +:+ " unexpected disconnection") g1) as (g2 & Hrun2 & Hreq2).
  { intros e He. apply bool_decide_eq_true_2. by apply Hdisc. }
  exists g2. split; [congruence|].
  unfold disconnect.
  rewrite (bind_run _ _ _ _ _ Hrun1). by rewrite (bind_run _ _ _ _ _ Hrun2).
Qed.

(** X12.  When [search_remove_request] returns [True] it has changed
    nothing and the request of the patch is ['remove'].  [disconnect]
    then returns, provided the link calls raise nothing but what they are
    guarded against, and it deletes exactly that request. *)
Theorem disconnect_after_remove_request (stop_notify : Z → result unit)
    (device_disconnect : result unit) (address : string) (g g1 : Globals.t) :
  (∀ handle e, stop_notify handle = Raise e → key_or_bleak_error e = true) →
  (∀ e, device_disconnect = Raise e → e = BleakError) →
  search_remove_request address g = (g1, Ok true) →
  g1 = g ∧
  mac_address_update g !! address = Some "remove" ∧
  ∃ g2, disconnect stop_notify device_disconnect address g1 = (g2, Ok tt) ∧
    mac_address_update g2 = delete address (mac_address_update g).
Proof.
  intros Hstop Hdisc Hsearch.
  assert (Hfound : g1 = g ∧ mac_address_update g !! address = Some "remove").
  { revert Hsearch.
    unfold search_remove_request, mbind, M_bind, bind, get, modify, ret.
    destruct (mac_address_update g !! address) as [request|]; [|done].
    case_bool_decide as Hremove; [intros [= <-]; by subst|].
    by case_bool_decide. }
  destruct Hfound as [-> Hrequest]. split; [done|]. split; [done|].
  destruct (disconnect_run stop_notify device_disconnect address g Hstop Hdisc)
    as (g2 & Hreq & ->).
  rewrite <- Hreq in Hrequest.
  rewrite (del_mac_address_update_run _ _ _ Hrequest).
  eexists. split; [done|]. simpl. by rewrite Hreq.
Qed.

Lemma disconnect_after_remove_request_witness :
  let address := "F6:E0:95:D5:9C:95" in
  let g := set_mac_address_update {[address := "remove"]} Globals.initial in
  ∃ g2, disconnect (λ _, Raise BleakError) (Ok tt) address g = (g2, Ok tt) ∧
    mac_address_update g2 = delete address (mac_address_update g).
Proof.
  intros address g.
  destruct (disconnect_after_remove_request (λ _, Raise BleakError) (Ok tt) address g g)
    as (_ & _ & Hrun).
  - intros handle e [= <-]. reflexivity.
  - intros e [=].
  - reflexivity.
  - exact Hrun.
Defined.

(** X13.  Without a pending request for the patch, [disconnect] raises
    [KeyError] at its last statement, after the notifications were
    stopped and the link closed; the requests are as before. *)
Theorem disconnect_without_request (stop_notify : Z → result unit)
    (device_disconnect : result unit) (address : string) (g : Globals.t) :
  (∀ handle e, stop_notify handle = Raise e → key_or_bleak_error e = true) →
  (∀ e, device_disconnect = Raise e → e = BleakError) →
  mac_address_update g !! address = None →
  ∃ g1, disconnect stop_notify device_disconnect address g = (g1, Raise KeyError) ∧
    mac_address_update g1 = mac_address_update g.
Proof.
  intros Hstop Hdisc Hrequest.
  destruct (disconnect_run stop_notify device_disconnect address g Hstop Hdisc)
    as (g1 & Hreq & ->).
  exists g1. split; [|done].
  unfold del_mac_address_update, mbind, M_bind, bind, get, lift, subscript.
  by rewrite Hreq, Hrequest.
Qed.

Lemma disconnect_without_request_witness :
  ∃ g1, disconnect (λ _, Ok tt) (Ok tt) "F6:E0:95:D5:9C:95" Globals.initial
        = (g1, Raise KeyError) ∧
    mac_address_update g1 = mac_address_update Globals.initial.
Proof.
  apply (disconnect_without_request (λ _, Ok tt) (Ok tt)).
  - intros handle e [=].
  - intros e [=].
  - reflexivity.
Defined.

(** X14.  A pending configuration between 1 and 255 is written as the
    one byte that holds it.  When the write returns, or raises
    [BleakError] (which is logged), the pending update is cleared to 0
    and the function returns; another exception of the write propagates
    and leaves the update pending. *)
Theorem search_config_update_writes (write_gatt_char : Z → list Byte.byte → result unit)
    (address : string) (g : Globals.t) :
  0 < smartpatch_config_update g < 256 →
  let config_bytes := [byte_of_value (smartpatch_config_update g)] in
  int_from_bytes config_bytes false = smartpatch_config_update g ∧
  search_config_update write_gatt_char address g
  = match write_gatt_char 38 config_bytes with
    | Ok _ => (set_smartpatch_config_update 0 g, Ok tt)
    | Raise e =>
        if bool_decide (e = BleakError)
        then (set_smartpatch_config_update 0
                (logging_exception
                   (address +:+ ": unable to write configuration update") g), Ok tt)
        else (g, Raise e)
    end.
Proof.
  intros Hrange config_bytes. split.
  - rewrite int_from_bytes_decode_group. subst config_bytes. simpl.
    rewrite byte_value_of_value. rewrite Z.mod_small by lia. lia.
  - unfold search_config_update.
    rewrite (bind_run _ _ g g g) by done.
    rewrite bool_decide_eq_true_2 by lia. cbv zeta.
    unfold int_to_bytes.
    destruct (Z.ltb_spec (smartpatch_config_update g) 0); [lia|].
    destruct (Z.leb_spec (256 ^ Z.of_nat 1) (smartpatch_config_update g)) as [Hbig|_].
    { change (256 ^ Z.of_nat 1) with 256 in Hbig. lia. }
    rewrite (bind_run _ _ g g [byte_of_value (smartpatch_config_update g)]) by done.
    fold config_bytes.
    unfold mbind at 1, M_bind at 1, bind at 1, try_except.
    rewrite (bind_run _ _ g g 38) by done. unfold lift.
    destruct (write_gatt_char 38 config_bytes) as [[]|e]; [done|].
    by destruct (bool_decide (e = BleakError)).
Qed.

Lemma search_config_update_writes_witness :
  let g := set_smartpatch_config_update 3 Globals.initial in
  search_config_update (λ _ _, Raise BleakError) "F6:E0:95:D5:9C:95" g
  = (set_smartpatch_config_update 0
       (logging_exception
          "F6:E0:95:D5:9C:95: unable to write configuration update" g), Ok tt).
Proof.
  intros g.
  exact (proj2 (search_config_update_writes (λ _ _, Raise BleakError)
                  "F6:E0:95:D5:9C:95" g ltac:(simpl; lia))).
Defined.

(** X15.  A pending configuration below 0 or above 255 makes
    [search_config_update] raise [OverflowError] before anything is
    written: the result does not depend on the write, and the update
    stays pending. *)
Theorem search_config_update_out_of_range
    (write_gatt_char : Z → list Byte.byte → result unit)
    (address : string) (g : Globals.t) :
  smartpatch_config_update g < 0 ∨ 256 ≤ smartpatch_config_update g →
  search_config_update write_gatt_char address g = (g, Raise OverflowError).
Proof.
  intros Hrange. unfold search_config_update.
  rewrite (bind_run _ _ g g g) by done.
  rewrite bool_decide_eq_true_2 by lia. cbv zeta.
  unfold int_to_bytes, mbind, M_bind, bind, lift.
  destruct (Z.ltb_spec (smartpatch_config_update g) 0); [done|].
  destruct (Z.leb_spec (256 ^ Z.of_nat 1) (smartpatch_config_update g)) as [|Hfit];
    [done|].
  change (256 ^ Z.of_nat 1) with 256 in Hfit. lia.
Qed.

Lemma search_config_update_out_of_range_witness :
  search_config_update (λ _ _, Ok tt) "F6:E0:95:D5:9C:95"
    (set_smartpatch_config_update 256 Globals.initial)
  = (set_smartpatch_config_update 256 Globals.initial, Raise OverflowError).
Proof.
  apply search_config_update_out_of_range. right. simpl. lia.
Defined.

End handshake.

(** ** Mapping and Ble: requests from end to end *)

Section protocol.
Import Globals Ble Spec.

(** X29.  The hand-over of a connection request.  When no ['add'] request
    is pending, a [Connected] event followed by
    [search_connectable_devices] hands the worker the address of the
    event and consumes the request; the ['remove'] requests the event
    filed for the patient's former patches stay. *)
Theorem connect_update_hands_over (patient_name mac_address : string)
    (g : Globals.t) :
  (∀ address, mac_address_update g !! address ≠ Some "add") →
  ∃ g1, Mapping.connect_update patient_name mac_address g = (g1, Ok tt) ∧
    search_connectable_devices g1
    = (set_mac_address_update (delete mac_address (mac_address_update g1)) g1,
       Ok mac_address).
Proof.
  intros Hnone.
  destruct (connect_update_run patient_name mac_address g)
    as (g0 & Hrun & _ & Hrequests & _).
  eexists. split; [exact Hrun|].
  set (g1 := set_mac_address_update _ _).
  assert (Hadd : mac_address_update g1 !! mac_address = Some "add")
    by apply lookup_insert_eq.
  assert (Honly : ∀ address, mac_address_update g1 !! address = Some "add" →
                             address = mac_address).
  { intros address. destruct (decide (address = mac_address)) as [|Hne]; [done|].
    subst g1. simpl. rewrite lookup_insert_ne by done. rewrite Hrequests.
    destruct (decide _); [done|]. intros Hrequest. by destruct (Hnone address). }
  unfold search_connectable_devices.
  rewrite (bind_run _ _ g1 g1 g1) by done.
  rewrite bool_decide_eq_true_2 by (apply elem_of_values; eauto).
  destruct (get_key_from_value_some _ _ _ Hadd) as [first Hfirst].
  pose proof (Honly _ (get_key_from_value_found _ _ _ Hfirst)) as ->.
  rewrite (bind_run _ _ g1 g1 mac_address) by (unfold lift; by rewrite Hfirst).
  by rewrite (bind_run _ _ _ _ _ (del_mac_address_update_run _ _ _ Hadd)).
Qed.

(** X30.  A patch whose firmware version could not be read is not among
    the connected devices, so the request to remove it counts as invalid.
    When the read fails with a guarded exception and no other ['remove']
    request is pending: [add_connected] returns, a [Disconnected] event
    files the ['remove'] request, a pass of [invalid_remove_request_task]
    deletes it, and [search_remove_request] then answers [False]: the
    worker is not told to disconnect. *)
Theorem unread_firmware_voids_remove_request (address : string) (e : exn)
    (g : Globals.t) :
  key_or_bleak_error e = true →
  address ≠ "disconnected" →
  connected_devices g !! address = None →
  (∀ other, mac_address_update g !! other ≠ Some "remove") →
  ∃ g1 g2 g3,
    add_connected (Raise e) address g = (g1, Ok tt) ∧
    Mapping.disconnect_update address g1 = (g2, Ok tt) ∧
    mac_address_update g2 !! address = Some "remove" ∧
    invalid_remove_request_pass g2 = (g3, Ok tt) ∧
    mac_address_update g3 !! address = None ∧
    search_remove_request address g3 = (g3, Ok false).
Proof.
  intros Hguarded Hplace Hunread Hnone.
  set (g1 := logging_exception (address +:+ ": unable to read firmware version") g).
  destruct (disconnect_update_run address g1) as (g2 & Hrun2 & _ & Hrequests & Hsame).
  rewrite decide_False in Hrequests by done.
  assert (Hremove : mac_address_update g2 !! address = Some "remove")
    by (rewrite Hrequests; apply lookup_insert_eq).
  assert (Honly : ∀ other, mac_address_update g2 !! other = Some "remove" →
                           other = address).
  { intros other. destruct (decide (other = address)) as [|Hne]; [done|].
    rewrite Hrequests, lookup_insert_ne by done. intros Hother.
    by destruct (Hnone other). }
  assert (Hconnected : connected_devices g2 !! address = None)
    by (destruct Hsame as [-> _]; exact Hunread).
  set (g3 := set_mac_address_update (delete address (mac_address_update g2))
               (logging_exception ("invalid remove request from " +:+ address) g2)).
  exists g1, g2, g3. split; [|split; [exact Hrun2|split; [exact Hremove|split; [|split]]]].
  - unfold add_connected, try_except.
    rewrite (bind_raise_run _ _ g g e) by done. by rewrite Hguarded.
  - unfold invalid_remove_request_pass.
    rewrite (bind_run _ _ g2 g2 g2) by done.
    rewrite bool_decide_eq_true_2 by (apply elem_of_values; eauto).
    destruct (get_key_from_value_some _ _ _ Hremove) as [first Hfirst].
    pose proof (Honly _ (get_key_from_value_found _ _ _ Hfirst)) as ->.
    rewrite (bind_run _ _ g2 g2 address) by (unfold lift; by rewrite Hfirst).
    rewrite bool_decide_eq_true_2 by done.
    rewrite (bind_run _ _ g2 (logging_exception _ g2) tt) by done.
    by rewrite (del_mac_address_update_run address "remove").
  - apply lookup_delete_eq.
  - unfold search_remove_request.
    rewrite (bind_run _ _ g3 g3 g3) by done.
    subst g3. simpl. by rewrite lookup_delete_eq.
Qed.

End protocol.

Section protocol_examples.
Import Globals Ble Spec.

Lemma connect_update_hands_over_witness :
  ∃ g1, Mapping.connect_update "P1" "F6:E0:95:D5:9C:95" Globals.initial = (g1, Ok tt) ∧
    search_connectable_devices g1
    = (set_mac_address_update (delete "F6:E0:95:D5:9C:95" (mac_address_update g1)) g1,
       Ok "F6:E0:95:D5:9C:95").
Proof.
  apply connect_update_hands_over. intros address. simpl.
  by rewrite lookup_empty.
Defined.

Lemma unread_firmware_voids_remove_request_witness :
  ∃ g1 g2 g3,
    add_connected (Raise BleakError) "F6:E0:95:D5:9C:95" Globals.initial = (g1, Ok tt) ∧
    Mapping.disconnect_update "F6:E0:95:D5:9C:95" g1 = (g2, Ok tt) ∧
    mac_address_update g2 !! "F6:E0:95:D5:9C:95" = Some "remove" ∧
    invalid_remove_request_pass g2 = (g3, Ok tt) ∧
    mac_address_update g3 !! "F6:E0:95:D5:9C:95" = None ∧
    search_remove_request "F6:E0:95:D5:9C:95" g3 = (g3, Ok false).
Proof.
  apply unread_firmware_voids_remove_request.
  - reflexivity.
  - done.
  - reflexivity.
  - intros other. simpl. by rewrite lookup_empty.
Defined.

End protocol_examples.

(** ** DataProcessing: the voltage invariant over the iterations *)

Section voltage_invariant_kept.
Import Globals DataProcessing Spec.

Context {complex : Type}.
Variable butter_filtfilt : float → float → list Z → result (list float).
Variable fft : list float → result (list complex).
Variable np_abs : complex → float.
Variable hp_filter_signal : list Z → result (list float).
Variable hp_process : list float → result measures.
Variable bad_signal_message : string.

(** X17.  Voltage windows and stored percentages.  The property that a
    patch without a voltage window has no stored battery percentage, and
    that a voltage window that exists holds at least one sample, holds
    when the module is loaded and is kept by every iteration of
    [data_processing], whether it returns or raises. *)
Theorem stage_keeps_battery_follows_voltage :
  battery_follows_voltage DataProcessing.initial ∧
  preserves keeps_battery_follows_voltage
    (data_processing_tick butter_filtfilt fft np_abs hp_filter_signal hp_process bad_signal_message).
Proof.
  split; [apply battery_follows_voltage_initial|apply data_processing_tick_keeps].
Qed.

End voltage_invariant_kept.

(** ** DataProcessing: what a pass publishes *)

Section publishing.
Import Globals DataProcessing Spec.

Context {complex : Type}.
Variable butter_filtfilt : float → float → list Z → result (list float).
Variable fft : list float → result (list complex).
Variable np_abs : complex → float.
Variable hp_filter_signal : list Z → result (list float).
Variable hp_process : list float → result measures.
Variable bad_signal_message : string.

#[local] Existing Instance windows_retained_preorder.

#[local] Existing Instance stage_private_preorder.

Lemma grows_present {A} (d d' : gmap string (list A)) (address : string) :
  grows d d' → is_Some (d !! address) → is_Some (d' !! address).
Proof. intros Hgrows [w Hw]. destruct (Hgrows _ _ Hw) as [newer ->]. by eexists. Qed.

Lemma append_at_present {A} (address : string) (x : A) (d : gmap string (list A)) :
  is_Some (append_at address x d !! address).
Proof. rewrite lookup_append_at. by eexists. Qed.

(** A stage that returned has found its inputs and left its outputs. *)
Lemma ppg_analysis_returned (address : string) (s s' : state) :
  ppg_analysis butter_filtfilt fft np_abs address s = (s', Ok tt) →
  is_Some (local_ppg s' !! address) ∧
  is_Some (local_HR s' !! address) ∧
  is_Some (local_SPO2 s' !! address).
Proof.
  unfold ppg_analysis. cbv zeta. intros Hrun.
  apply bind_ok_inv in Hrun as (s0 & ? & [= <- <-] & Hrun).
  apply bind_ok_inv in Hrun as (ppg & ? & [= <- Hppg] & Hrun).
  apply bind_ok_inv in Hrun as (red & ? & [= <- _] & Hrun).
  apply bind_ok_inv in Hrun as (ir & ? & [= <- _] & Hrun).
  apply bind_ok_inv in Hrun as (green & ? & [= <- _] & Hrun).
  apply bind_ok_inv in Hrun as (yf & ? & [= <- _] & Hrun).
  apply bind_ok_inv in Hrun as (argmax & ? & [= <- _] & Hrun).
  apply bind_ok_inv in Hrun as (HR & ? & [= <- _] & Hrun).
  apply bind_ok_inv in Hrun as ([] & ? & [= <-] & Hrun).
  apply bind_ok_inv in Hrun as (ac_red & ? & [= <- _] & Hrun).
  apply bind_ok_inv in Hrun as (ac_ir & ? & [= <- _] & Hrun).
  apply bind_ok_inv in Hrun as (SPO2 & ? & [= <- _] & Hrun).
  injection Hrun as <-. simpl.
  unfold subscript in Hppg. destruct (local_ppg s !! address) eqn:E; [|done].
  split; [by eexists|]. split; apply append_at_present.
Qed.

Lemma imu_conversion_returned (address : string) (s s' : state) :
  imu_conversion address s = (s', Ok tt) →
  is_Some (local_imu_raw s' !! address) ∧
  is_Some (local_imu_converted s' !! address) ∧
  is_Some (local_activity_level s' !! address).
Proof.
  unfold imu_conversion. cbv zeta. intros Hrun.
  apply bind_ok_inv in Hrun as (s0 & ? & [= <- <-] & Hrun).
  apply bind_ok_inv in Hrun as (raw & ? & [= <- Hraw] & Hrun).
  apply bind_ok_inv in Hrun as ([] & ? & [= <-] & Hrun).
  apply bind_ok_inv in Hrun as (xmx & ? & [= <- _] & Hrun).
  apply bind_ok_inv in Hrun as (xmy & ? & [= <- _] & Hrun).
  apply bind_ok_inv in Hrun as (xmz & ? & [= <- _] & Hrun).
  apply bind_ok_inv in Hrun as (abs_xl & ? & [= <- _] & Hrun).
  apply bind_ok_inv in Hrun as (strongest & ? & [= <- _] & Hrun).
  injection Hrun as <-. simpl.
  unfold subscript in Hraw. destruct (local_imu_raw s !! address) eqn:E; [|done].
  split; [by eexists|]. split; [|apply append_at_present].
  rewrite lookup_insert_eq. by eexists.
Qed.

#[local] Instance same_time_stamps_preorder : PreOrder same_time_stamps.
Proof.
  split; [by intros s|]. intros s1 s2 s3 H12 H23.
  unfold same_time_stamps in *. congruence.
Qed.

#[local] Instance same_globals_preorder : PreOrder same_globals.
Proof.
  split; [by intros s|]. intros s1 s2 s3 H12 H23.
  unfold same_globals in *. congruence.
Qed.

(** A step that leaves a component of the state alone. *)
Ltac untouched_step R :=
  first
    [ apply preserves_bind; [apply _| |intros ?]
    | apply preserves_mapM; [apply _|apply _|intros ?]
    | apply preserves_when; [apply _|]
    | apply preserves_lift; apply _
    | apply preserves_get; apply _
    | apply (preserves_ret R)
    | apply preserves_modify; by intros ? ].

Lemma analysis_keeps_time_stamps (address : string) :
  preserves same_time_stamps
    (split_data address;;
     ppg_analysis butter_filtfilt fft np_abs address;;
     imu_conversion address;;
     calc_battery_percentage address;;
     heartpy_analysis hp_filter_signal hp_process address).
Proof.
  apply preserves_bind; [apply _| |intros _].
  { unfold split_data. repeat untouched_step same_time_stamps.
    unfold split_value. repeat case_bool_decide; repeat untouched_step same_time_stamps. }
  apply preserves_bind; [apply _| |intros _].
  { unfold ppg_analysis. cbv zeta. repeat untouched_step same_time_stamps. }
  apply preserves_bind; [apply _| |intros _].
  { unfold imu_conversion. cbv zeta. repeat untouched_step same_time_stamps. }
  apply preserves_bind; [apply _| |intros _].
  { unfold calc_battery_percentage.
    untouched_step same_time_stamps; [untouched_step same_time_stamps|].
    destruct (local_voltage _ !! address); [|untouched_step same_time_stamps].
    untouched_step same_time_stamps; [untouched_step same_time_stamps|].
    destruct (3650 <? _); untouched_step same_time_stamps. }
  unfold heartpy_analysis. repeat untouched_step same_time_stamps.
Qed.

Lemma delete_old_data_same_globals (address : string) :
  preserves same_globals (delete_old_data address).
Proof.
  unfold delete_old_data, trim_window. repeat untouched_step same_globals.
Qed.

(** [write_back] either raises and changes nothing, or appends one
    datapoint stamped with the batch's last timestamp. *)
Lemma write_back_outcome (address : string) (s : state) :
  match write_back address s with
  | (s', Ok _) =>
      ∃ dp, s' = set_globals
                   (set_processed_data
                      (append_at address (Processed dp) (processed_data (globals s)))
                      (globals s)) s ∧
        current_ts s !! address = Some (dp_ts dp) ∧
        is_Some (local_temp s !! address)
  | (s', Raise _) => s' = s
  end.
Proof.
  unfold write_back, mbind at 1, M_bind at 1, bind at 1, get. cbv zeta.
  unfold mbind at 1, M_bind at 1, bind at 1, lift at 1, subscript at 1.
  destruct (current_ts s !! address) as [now|]; [|done].
  unfold mbind at 1, M_bind at 1, bind at 1, lift at 1.
  destruct (subscript (local_temp s) address ≫= _) as [temp|] eqn:Htemp; [|done].
  unfold mbind at 1, M_bind at 1, bind at 1, lift at 1.
  destruct (subscript (local_HR s) address ≫= _) as [HR|]; [|done].
  unfold mbind at 1, M_bind at 1, bind at 1, lift at 1.
  destruct (subscript (hp_RR s) address ≫= _) as [RR|]; [|done].
  unfold mbind at 1, M_bind at 1, bind at 1, lift at 1.
  destruct (subscript (local_SPO2 s) address ≫= _) as [SPO2|]; [|done].
  unfold mbind at 1, M_bind at 1, bind at 1, lift at 1.
  destruct (subscript (local_activity_level s) address ≫= _) as [activity|]; [|done].
  unfold modify. eexists. split; [reflexivity|]. split; [done|].
  unfold subscript in Htemp. by destruct (local_temp s !! address).
Qed.

(** Where the pipeline ends: it has appended exactly one datapoint when
    it returns, and has left the shared store alone when it raises; once
    [write_back] has returned, [delete_old_data] finds every window. *)
Lemma pipeline_outcome (address : string) (s : state) :
  match pipeline butter_filtfilt fft np_abs hp_filter_signal hp_process address s with
  | (s', Ok _) =>
      ∃ dp, globals s' = set_processed_data
                           (append_at address (Processed dp) (processed_data (globals s)))
                           (globals s) ∧
        current_ts s !! address = Some (dp_ts dp)
  | (s', Raise _) => globals s' = globals s
  end.
Proof.
  unfold pipeline.
  pose proof (split_data_private address s) as H1.
  destruct (split_data address s) as [s1 [[]|e]] eqn:E1;
    [rewrite (bind_run _ _ _ _ _ E1)
    |rewrite (bind_raise_run _ _ _ _ _ E1); apply H1].
  pose proof (ppg_analysis_private butter_filtfilt fft np_abs address s1) as H2.
  destruct (ppg_analysis _ _ _ address s1) as [s2 [[]|e]] eqn:E2;
    [rewrite (bind_run _ _ _ _ _ E2)
    |rewrite (bind_raise_run _ _ _ _ _ E2); destruct H1, H2; simpl in *;
     congruence].
  pose proof (imu_conversion_private address s2) as H3.
  destruct (imu_conversion address s2) as [s3 [[]|e]] eqn:E3;
    [rewrite (bind_run _ _ _ _ _ E3)
    |rewrite (bind_raise_run _ _ _ _ _ E3); destruct H1, H2, H3; simpl in *;
     congruence].
  pose proof (calc_battery_percentage_private address s3) as H4.
  destruct (calc_battery_percentage address s3) as [s4 [[]|e]] eqn:E4;
    [rewrite (bind_run _ _ _ _ _ E4)
    |rewrite (bind_raise_run _ _ _ _ _ E4); destruct H1, H2, H3, H4;
     simpl in *; congruence].
  pose proof (heartpy_analysis_private hp_filter_signal hp_process address s4) as H5.
  destruct (heartpy_analysis _ _ address s4) as [s5 [[]|e]] eqn:E5;
    [rewrite (bind_run _ _ _ _ _ E5)
    |rewrite (bind_raise_run _ _ _ _ _ E5); destruct H1, H2, H3, H4, H5;
     simpl in *; congruence].
  assert (Hstamps : current_ts s5 = current_ts s).
  { pose proof (analysis_keeps_time_stamps address s) as H.
    rewrite (bind_run _ _ _ _ _ E1), (bind_run _ _ _ _ _ E2), (bind_run _ _ _ _ _ E3),
      (bind_run _ _ _ _ _ E4), E5 in H. exact H. }
  assert (Hshared : globals s5 = globals s)
    by (destruct H1, H2, H3, H4, H5; simpl in *; congruence).
  pose proof (write_back_outcome address s5) as H6.
  destruct (write_back address s5) as [s6 [[]|e]] eqn:E6;
    [rewrite (bind_run _ _ _ _ _ E6)
    |rewrite (bind_raise_run _ _ _ _ _ E6); by subst s6].
  destruct H6 as (dp & -> & Hnow & Htemp).
  (* every window [delete_old_data] subscripts is there *)
  apply ppg_analysis_returned in E2 as (Pppg & PHR & PSPO2).
  apply imu_conversion_returned in E3 as (Praw & Pconv & Pact).
  simpl in H2, H3, H4, H5.
  assert (Hkept : windows_retained s3 s5) by (etrans; [apply H4|apply H5]).
  assert (Hkept2 : windows_retained s2 s5) by (etrans; [apply H3|exact Hkept]).
  destruct Hkept as (_ & Kraw & _ & _ & Kact & _ & _ & _ & _ & _ & Kconv).
  destruct Hkept2 as (Kppg & _ & _ & _ & _ & KHR & KSPO2 & _).
  apply (grows_present _ _ _ Kppg) in Pppg as [ppg Pppg].
  apply (grows_present _ _ _ KHR) in PHR as [HR PHR].
  apply (grows_present _ _ _ KSPO2) in PSPO2 as [SPO2 PSPO2].
  apply (grows_present _ _ _ Kraw) in Praw as [raw Praw].
  apply (grows_present _ _ _ Kact) in Pact as [act Pact].
  apply Kconv in Pconv as [conv Pconv].
  destruct Htemp as [temp Ptemp].
  set (s6 := set_globals _ s5).
  destruct (delete_old_data_run address s6 ppg raw temp act conv HR SPO2)
    as (s7 & Hrun & _); try done.
  rewrite Hrun.
  pose proof (preserves_run _ _ s6 s7 (Ok tt) (delete_old_data_same_globals address) Hrun)
    as Hglobals. red in Hglobals.
  exists dp. split; [|by rewrite <- Hstamps].
  rewrite Hglobals. subst s6. simpl. by rewrite Hshared.
Qed.



#[local] Instance publishes_only_preorder : PreOrder publishes_only.
Proof.
  split.
  - intros s. unfold publishes_only. repeat split; try done. apply grows_refl.
  - intros s1 s2 s3 (G12 & L12 & ? & ? & ? & ? & ?) (G23 & L23 & ? & ? & ? & ? & ?).
    unfold publishes_only. repeat split; try congruence.
    + by eapply grows_trans.
    + by etrans.
Qed.

Lemma same_globals_publishes_only (s s' : state) :
  globals s' = globals s → publishes_only s s'.
Proof.
  intros Hsame. unfold publishes_only. rewrite Hsame.
  repeat split; try done. apply grows_refl.
Qed.

(** Whatever the batch, all [process_patch] does to the shared store is
    publish. *)
Lemma process_patch_publishes_only (address : string) (batch : list raw_sample) :
  preserves publishes_only
    (process_patch butter_filtfilt fft np_abs hp_filter_signal hp_process bad_signal_message address batch).
Proof.
  intros s. destruct batch as [|first rest].
  { by apply same_globals_publishes_only. }
  destruct (last (first :: rest)) as [final|] eqn:Hfinal;
    [|by apply last_None in Hfinal].
  pose proof (process_patch_prepared butter_filtfilt fft np_abs hp_filter_signal
                hp_process bad_signal_message address (first :: rest) first final s eq_refl Hfinal) as Hrun.
  pose proof (pipeline_outcome address (prepared address first final (first :: rest) s))
    as Hend.
  rewrite Hrun. unfold try_except.
  destruct (pipeline _ _ _ _ _ address _) as [s' [[]|e]]; simpl.
  - destruct Hend as (dp & Hglobals & _). unfold publishes_only. rewrite Hglobals.
    simpl. repeat split; try done. apply grows_append_at.
  - destruct (key_error_or_bad_signal e); simpl;
      [|by apply same_globals_publishes_only].
    unfold publishes_only. simpl. rewrite Hend. unfold prepared. simpl.
    repeat split; try done; [apply grows_refl|by apply prefix_app_r].
Qed.

Lemma process_patch_uncaught (address : string) (batch : list raw_sample) :
  raises_only (λ e, key_error_or_bad_signal e = false)
    (process_patch butter_filtfilt fft np_abs hp_filter_signal hp_process bad_signal_message address batch).
Proof.
  intros s s' e. destruct batch as [|first rest].
  { intros [= _ <-]. reflexivity. }
  destruct (last (first :: rest)) as [final|] eqn:Hfinal;
    [|by apply last_None in Hfinal].
  rewrite (process_patch_prepared _ _ _ _ _ _ address (first :: rest) first final _
             eq_refl Hfinal).
  unfold try_except.
  destruct (pipeline _ _ _ _ _ address _) as [s1 [[]|e1]]; [done|].
  destruct (key_error_or_bad_signal e1) eqn:Hcaught; [done|].
  by intros [= _ <-].
Qed.

(** X19.  An iteration of [data_processing] that returns has emptied
    the raw mailbox; one that raises (then not [KeyError] nor
    [BadSignalWarning]) has left it as it was.  Either way, all it has
    done to the rest of the shared store is append datapoints to
    [processed_data] and lines to the log. *)
Theorem data_processing_tick_mailbox (s : state) :
  match data_processing_tick butter_filtfilt fft np_abs hp_filter_signal hp_process bad_signal_message s with
  | (s', Ok _) =>
      unprocessed_data (globals s') = ∅ ∧
      publishes_only s (set_globals
                          (set_unprocessed_data (unprocessed_data (globals s)) (globals s'))
                          s')
  | (s', Raise e) =>
      key_error_or_bad_signal e = false ∧ publishes_only s s'
  end.
Proof.
  unfold data_processing_tick.
  rewrite (bind_run _ _ s s s) by done.
  case_bool_decide as Hmail.
  - set (patches := mapM _ _).
    assert (Hpatches : preserves publishes_only patches).
    { apply preserves_mapM; [apply _|apply _|].
      intros entry. apply process_patch_publishes_only. }
    assert (Hraises : raises_only (λ e, key_error_or_bad_signal e = false) patches).
    { apply raises_only_mapM. intros entry. apply process_patch_uncaught. }
    specialize (Hpatches s).
    destruct (patches s) as [s1 [done|e]] eqn:Hrun.
    + rewrite (bind_run _ _ _ _ _ Hrun). unfold modify. simpl in *. split; [done|].
      destruct Hpatches as (? & ? & Hun & ? & ? & ? & ?).
      unfold publishes_only. simpl. by repeat split.
    + rewrite (bind_raise_run _ _ _ _ _ Hrun). split; [|exact Hpatches].
      by eapply Hraises.
  - simpl. split; [done|].
    unfold publishes_only. simpl. rewrite Hmail.
    repeat split; try done. apply grows_refl.
Qed.

End publishing.

Section publishing_example.
Import Globals DataProcessing Spec.


End publishing_example.

(** ** DataProcessing: ranges of the estimates *)

Section ranges.
Import Globals DataProcessing Spec.

Context {complex : Type}.
Variable butter_filtfilt : float → float → list Z → result (list float).
Variable fft : list float → result (list complex).
Variable np_abs : complex → float.
Variable hp_filter_signal : list Z → result (list float).
Variable hp_process : list float → result measures.
Variable bad_signal_message : string.

#[local] Instance keeps_histories_in_range_preorder : PreOrder keeps_histories_in_range.
Proof.
  split.
  - intros s Hinv. exact Hinv.
  - intros s1 s2 s3 H12 H23 Hinv. apply H23, H12, Hinv.
Qed.

(** Bins 15 to 69 of the spectrum are 0.75 Hz to 3.45 Hz: bin [k] is
    [3 k] beats per minute. *)
Lemma heart_rate_of_bin (hr_index : nat) (HR : Z) :
  (15 ≤ hr_index < 70)%nat →
  (item xf hr_index ≫= λ f, py_round (float_of_Z 60 * f)%float) = Ok HR →
  HR = 3 * Z.of_nat hr_index.
Proof.
  intros Hbin HHR.
  assert (Hall : forallb (λ i : nat,
                   match item xf i ≫= λ f, py_round (float_of_Z 60 * f)%float with
                   | Ok h => h =? 3 * Z.of_nat i
                   | Raise _ => false
                   end) (seq 15 55) = true)
    by (vm_compute; reflexivity).
  rewrite forallb_forall in Hall. specialize (Hall hr_index).
  rewrite HHR in Hall. apply Z.eqb_eq, Hall, in_seq. lia.
Qed.

Lemma append_at_Forall {A} (P : A → Prop) (address : string) (x : A)
    (d : gmap string (list A)) :
  (∀ a l, d !! a = Some l → Forall P l) → P x →
  ∀ a l, append_at address x d !! a = Some l → Forall P l.
Proof.
  intros Hd Hx a l. destruct (decide (a = address)) as [->|Hne].
  - rewrite lookup_append_at. intros [= <-]. apply Forall_app. split; [|by constructor].
    destruct (d !! address) as [old|] eqn:Hold; simpl; [by eapply Hd|constructor].
  - unfold append_at. destruct (d !! address); rewrite lookup_insert_ne by done;
      apply Hd.
Qed.

Lemma trimmed_Forall {A} (P : A → Prop) (address : string) (k : nat) (w : list A)
    (d : gmap string (list A)) :
  (∀ a l, d !! a = Some l → Forall P l) → d !! address = Some w →
  ∀ a l, <[address := drop k w]> d !! a = Some l → Forall P l.
Proof.
  intros Hd Hw a l. destruct (decide (a = address)) as [->|Hne].
  - rewrite lookup_insert_eq. intros [= <-]. apply Forall_drop. by eapply Hd.
  - rewrite lookup_insert_ne by done. apply Hd.
Qed.

Ltac unrelated_update := intros ? Hinv; exact Hinv.

Ltac range_step :=
  first
    [ apply preserves_bind; [apply _| |intros ?]
    | apply preserves_mapM; [apply _|apply _|intros ?]
    | apply preserves_try_except; [apply _| |intros ?]
    | apply preserves_when; [apply _|]
    | apply preserves_lift; apply _
    | apply preserves_get; apply _
    | apply (preserves_ret keeps_histories_in_range)
    | apply preserves_modify; unrelated_update ].

Lemma split_data_keeps_ranges (address : string) :
  preserves keeps_histories_in_range (split_data address).
Proof.
  unfold split_data. repeat range_step.
  unfold split_value. repeat case_bool_decide; repeat range_step.
Qed.

Lemma ppg_analysis_keeps_ranges (address : string) :
  preserves keeps_histories_in_range (ppg_analysis butter_filtfilt fft np_abs address).
Proof.
  unfold ppg_analysis. cbv zeta.
  apply preserves_bind; [apply _|apply preserves_get; apply _|intros s0].
  apply preserves_bind_lift; [apply _|intros ppg _].
  apply preserves_bind_lift; [apply _|intros red _].
  apply preserves_bind_lift; [apply _|intros ir _].
  apply preserves_bind_lift; [apply _|intros green _].
  apply preserves_bind_lift; [apply _|intros yf _].
  apply preserves_bind_lift; [apply _|intros argmax Hargmax].
  apply preserves_bind_lift; [apply _|intros HR HHR].
  assert (HHR_range : heart_rate_in_range HR).
  { apply np_argmax_lt in Hargmax.
    rewrite length_fmap in Hargmax. unfold slice in Hargmax.
    rewrite length_take in Hargmax.
    apply heart_rate_of_bin in HHR; [|lia]. subst HR. split; [lia|].
    rewrite Z.mul_comm. apply Z.mod_mul. lia. }
  apply preserves_bind; [apply _| |intros _].
  { apply preserves_modify. intros s (HHRs & HSPO2 & Hact & Hdps).
    split; [|by repeat split]. simpl. by apply append_at_Forall. }
  apply preserves_bind_lift; [apply _|intros ac_red _].
  apply preserves_bind_lift; [apply _|intros ac_ir _].
  apply preserves_bind_lift; [apply _|intros SPO2 _].
  apply preserves_modify. intros s (HHRs & HSPO2 & Hact & Hdps).
  split; [done|]. split; [|by split]. simpl. apply append_at_Forall; [done|].
  rewrite spo2_clip_min. lia.
Qed.

Lemma imu_conversion_keeps_ranges (address : string) :
  preserves keeps_histories_in_range (imu_conversion address).
Proof.
  unfold imu_conversion. cbv zeta. repeat range_step.
  apply preserves_modify. intros s (HHRs & HSPO2 & Hact & Hdps).
  split; [done|]. split; [done|]. split; [|done]. simpl.
  apply append_at_Forall; [done|]. destruct (12 <? _)%float; [by right|by left].
Qed.

Lemma calc_battery_percentage_keeps_ranges (address : string) :
  preserves keeps_histories_in_range (calc_battery_percentage address).
Proof.
  unfold calc_battery_percentage. range_step; [range_step|].
  destruct (local_voltage _ !! address); [|range_step].
  range_step; [range_step|]. destruct (3650 <? _); range_step.
Qed.

Lemma latest_elem {A} (d : gmap string (list A)) (k : string) (v : A) :
  (subscript d k ≫= λ l, index l (-1)) = Ok v → ∃ l, d !! k = Some l ∧ v ∈ l.
Proof.
  unfold subscript. destruct (d !! k) as [l|]; [|done]. simpl.
  unfold index, item. destruct (_ && _); [|done].
  destruct (l !! _) as [x|] eqn:Hx; [|done]. intros [= <-].
  exists l. split; [done|]. by eapply list_elem_of_lookup_2.
Qed.

Lemma write_back_keeps_ranges (address : string) :
  preserves keeps_histories_in_range (write_back address).
Proof.
  intros s Hinv. destruct Hinv as (HHRs & HSPO2 & Hact & Hdps).
  unfold write_back, mbind at 1, M_bind at 1, bind at 1, get. cbv zeta.
  unfold mbind at 1, M_bind at 1, bind at 1, lift at 1.
  destruct (subscript (current_ts s) address) as [now|]; [|by repeat split].
  unfold mbind at 1, M_bind at 1, bind at 1, lift at 1.
  destruct (subscript (local_temp s) address ≫= _) as [temp|]; [|by repeat split].
  unfold mbind at 1, M_bind at 1, bind at 1, lift at 1.
  destruct (subscript (local_HR s) address ≫= _) as [HR|] eqn:EHR; [|by repeat split].
  unfold mbind at 1, M_bind at 1, bind at 1, lift at 1.
  destruct (subscript (hp_RR s) address ≫= _) as [RR|]; [|by repeat split].
  unfold mbind at 1, M_bind at 1, bind at 1, lift at 1.
  destruct (subscript (local_SPO2 s) address ≫= _) as [SPO2|] eqn:ESPO2;
    [|by repeat split].
  unfold mbind at 1, M_bind at 1, bind at 1, lift at 1.
  destruct (subscript (local_activity_level s) address ≫= _) as [activity|] eqn:Eact;
    [|by repeat split].
  apply latest_elem in EHR as (l1 & Hl1 & Hin1).
  apply latest_elem in ESPO2 as (l2 & Hl2 & Hin2).
  apply latest_elem in Eact as (l3 & Hl3 & Hin3).
  pose proof (proj1 (Forall_forall _ _) (HHRs _ _ Hl1) _ Hin1).
  pose proof (proj1 (Forall_forall _ _) (HSPO2 _ _ Hl2) _ Hin2).
  pose proof (proj1 (Forall_forall _ _) (Hact _ _ Hl3) _ Hin3).
  unfold modify. simpl. split; [done|]. split; [done|]. split; [done|]. simpl.
  by apply append_at_Forall.
Qed.

Lemma trim_window_keeps_ranges {A} (window_of : state → gmap string (list A))
    set_window (cap k : nat) (address : string) :
  (∀ s w, histories_in_range s → window_of s !! address = Some w →
          histories_in_range (set_window (<[address := drop k w]> (window_of s)) s)) →
  preserves keeps_histories_in_range
    (trim_window window_of set_window cap k address).
Proof.
  intros Hset s Hinv. unfold trim_window, mbind, M_bind, bind, get, lift, subscript.
  destruct (window_of s !! address) as [window|] eqn:Hw; [|exact Hinv].
  unfold when. destruct (cap <? length window)%nat; [|exact Hinv].
  by apply Hset.
Qed.

Lemma delete_old_data_keeps_ranges (address : string) :
  preserves keeps_histories_in_range (delete_old_data address).
Proof.
  assert (Hunrelated : ∀ {A} (window_of : state → gmap string (list A)) set_window cap k,
            (∀ v s, histories_in_range s → histories_in_range (set_window v s)) →
            preserves keeps_histories_in_range
              (trim_window window_of set_window cap k address)).
  { intros A window_of set_window cap k Hset.
    apply trim_window_keeps_ranges. intros s w Hinv _. by apply Hset. }
  unfold delete_old_data.
  apply preserves_bind; [apply _|by apply Hunrelated|intros _].
  apply preserves_bind; [apply _|by apply Hunrelated|intros _].
  apply preserves_bind; [apply _|by apply Hunrelated|intros _].
  apply preserves_bind; [apply _| |intros _].
  { apply preserves_bind; [apply _|apply preserves_get; apply _|intros s0].
    apply preserves_when; [apply _|]. by apply Hunrelated. }
  apply preserves_bind; [apply _| |intros _].
  { apply trim_window_keeps_ranges. intros s w (HHRs & HSPO2 & Hact & Hdps) Hw.
    split; [done|]. split; [done|]. split; [|done]. simpl. by eapply trimmed_Forall. }
  apply preserves_bind; [apply _|by apply Hunrelated|intros _].
  apply preserves_bind; [apply _| |intros _].
  { apply trim_window_keeps_ranges. intros s w (HHRs & HSPO2 & Hact & Hdps) Hw.
    split; [|by repeat split]. simpl. by eapply trimmed_Forall. }
  apply trim_window_keeps_ranges. intros s w (HHRs & HSPO2 & Hact & Hdps) Hw.
  split; [done|]. split; [|by split]. simpl. by eapply trimmed_Forall.
Qed.

Lemma pipeline_keeps_ranges (address : string) :
  preserves keeps_histories_in_range
    (pipeline butter_filtfilt fft np_abs hp_filter_signal hp_process address).
Proof.
  assert (preserves keeps_histories_in_range
            (heartpy_analysis hp_filter_signal hp_process address)) as Hhp
    by (unfold heartpy_analysis; repeat range_step).
  unfold pipeline.
  apply preserves_bind; [apply _|apply split_data_keeps_ranges|intros _].
  apply preserves_bind; [apply _|apply ppg_analysis_keeps_ranges|intros _].
  apply preserves_bind; [apply _|apply imu_conversion_keeps_ranges|intros _].
  apply preserves_bind; [apply _|apply calc_battery_percentage_keeps_ranges|intros _].
  apply preserves_bind; [apply _|exact Hhp|intros _].
  apply preserves_bind; [apply _|apply write_back_keeps_ranges|intros _].
  apply delete_old_data_keeps_ranges.
Qed.

(** X20.  Ranges of the estimates.  The property that every stored
    heart rate is a multiple of 3 between 45 and 207, every stored SpO2
    at most 100, every stored activity level 0 or 1, and every published
    datapoint made of such values, holds when the module is loaded and is
    kept by every iteration of [data_processing], whether it returns or
    raises. *)
Theorem data_processing_tick_keeps_ranges :
  histories_in_range DataProcessing.initial ∧
  preserves keeps_histories_in_range
    (data_processing_tick butter_filtfilt fft np_abs hp_filter_signal hp_process bad_signal_message).
Proof.
  split; [by repeat split|].
  unfold data_processing_tick. range_step. range_step.
  destruct (bool_decide _); [|range_step].
  range_step; [|range_step].
  range_step. unfold process_patch.
  repeat first [ apply pipeline_keeps_ranges | range_step ].
Qed.

End ranges.

(** ** DataProcessing: rows needed by the activity detection *)

Section imu_rows.
Import Globals DataProcessing Spec.

Lemma length_np_matmul (a : list (list Z)) (b : list (list float)) :
  length (np_matmul a b) = length a.
Proof. unfold np_matmul. by rewrite length_fmap. Qed.

Lemma np_matmul_row_width (a : list (list Z)) (b : list (list float))
    (row : list float) :
  row ∈ np_matmul a b → length row = length (default [] (head b)).
Proof.
  unfold np_matmul. intros (raw_row & -> & _)%list_elem_of_fmap.
  by rewrite length_fmap, length_seq.
Qed.

Lemma py_max_nonempty (l : list float) : l ≠ [] → ∃ m, py_max l = Ok m.
Proof. destruct l; [done|]. intros _. by eexists. Qed.

Lemma last_n_nonempty {A} (n : nat) (l : list A) :
  l ≠ [] → n ≠ 0%nat → last_n n l ≠ [].
Proof.
  intros Hl Hn Hempty. apply (f_equal length) in Hempty.
  unfold last_n in Hempty. rewrite length_drop in Hempty. simpl in Hempty.
  destruct l; [done|]. simpl in Hempty. lia.
Qed.

Lemma fcolumn_nonempty (c : nat) (a : list (list float)) : a ≠ [] → fcolumn c a ≠ [].
Proof. by destruct a. Qed.

(** The magnitude loop reads row [-i]: row 0 on its first pass, and the
    [i]-th newest row afterwards, which exists for [i] up to the number of
    rows. *)
Lemma magnitude_at_ok (converted : list (list float)) (i : nat) :
  (∀ row, row ∈ converted → length row = 6%nat) →
  converted ≠ [] → (i ≤ length converted)%nat →
  ∃ m, magnitude_at converted i = Ok m.
Proof.
  intros Hwidth Hrows Hi.
  assert (0 < length converted)%nat as Hn by (destruct converted; [done|simpl; lia]).
  unfold magnitude_at, index.
  set (k := if - Z.of_nat i <? 0 then - Z.of_nat i + Z.of_nat (length converted)
            else - Z.of_nat i).
  assert (0 ≤ k < Z.of_nat (length converted)) as Hk
    by (subst k; destruct (Z.ltb_spec (- Z.of_nat i) 0); lia).
  replace ((0 <=? k) && (k <? Z.of_nat (length converted))) with true
    by (symmetry; apply andb_true_iff; split; [apply Z.leb_le|apply Z.ltb_lt]; lia).
  destruct (lookup_lt_is_Some_2 converted (Z.to_nat k)) as [row Hrow]; [lia|].
  assert (item converted (Z.to_nat k) = Ok row) as -> by (unfold item; by rewrite Hrow).
  apply list_elem_of_lookup_2, Hwidth in Hrow.
  destruct (lookup_lt_is_Some_2 row 3) as [x Hx]; [lia|].
  destruct (lookup_lt_is_Some_2 row 4) as [y Hy]; [lia|].
  destruct (lookup_lt_is_Some_2 row 5) as [z Hz]; [lia|].
  unfold item. simpl. rewrite Hx. simpl. rewrite Hy. simpl. rewrite Hz. simpl.
  by eexists.
Qed.

Lemma magnitude_at_raise (converted : list (list float)) (i : nat) :
  (length converted < i)%nat → magnitude_at converted i = Raise IndexError.
Proof.
  intros Hi. unfold magnitude_at, index.
  destruct (Z.ltb_spec (- Z.of_nat i) 0); [|lia].
  replace (0 <=? - Z.of_nat i + Z.of_nat (length converted)) with false
    by (symmetry; apply Z.leb_gt; lia).
  done.
Qed.

(** A loop that fills an array slot by slot returns when every pass
    does, and raises what its first failing pass raises. *)
Lemma for_each_fill_ok {A} (f : nat → result A) (l : list nat) (acc : list A) :
  (∀ i, i ∈ l → ∃ m, f i = Ok m) →
  ∃ filled, for_each (λ acc i, m ← f i; mret (<[i := m]> acc)) acc l = Ok filled ∧
    length filled = length acc.
Proof.
  revert acc. induction l as [|i l IH]; intros acc Hok; [by exists acc|].
  destruct (Hok i) as [m Hm]; [left|].
  destruct (IH (<[i := m]> acc)) as (filled & Hrun & Hlen).
  { intros j Hj. apply Hok. by right. }
  exists filled. split; [|by rewrite Hlen, length_insert].
  simpl. rewrite Hm. simpl. exact Hrun.
Qed.

Lemma for_each_fill_raise {A} (f : nat → result A) (before after : list nat)
    (i : nat) (e : exn) (acc : list A) :
  (∀ j, j ∈ before → ∃ m, f j = Ok m) → f i = Raise e →
  for_each (λ acc i, m ← f i; mret (<[i := m]> acc)) acc (before ++ i :: after)
  = Raise e.
Proof.
  revert acc. induction before as [|j before IH]; intros acc Hok Hraise.
  - simpl. by rewrite Hraise.
  - destruct (Hok j) as [m Hm]; [left|].
    simpl. rewrite Hm. simpl. apply IH; [|done].
    intros j' Hj'. apply Hok. by right.
Qed.

(** X21.  [imu_conversion] needs 119 rows in the patch's raw IMU window.
    With no row it raises [ValueError]; with 1 to 118 rows it raises
    [IndexError], and no activity level is appended; from 119 rows on it
    returns and appends one activity level, 0 or 1. *)
Theorem imu_conversion_needs_119_rows (address : string) (s : state)
    (raw : list (list Z)) :
  local_imu_raw s !! address = Some raw →
  ∃ s',
    imu_conversion address s
    = (s', if bool_decide (length raw = 0)%nat then Raise ValueError
           else if bool_decide (length raw < 119)%nat then Raise IndexError
           else Ok tt) ∧
    if bool_decide (length raw < 119)%nat
    then local_activity_level s' = local_activity_level s
    else ∃ activity, activity_flag activity ∧
           local_activity_level s'
           = append_at address activity (local_activity_level s).
Proof.
  intros Hraw. unfold imu_conversion. cbv zeta.
  rewrite (bind_run _ _ s s s) by done.
  rewrite (bind_run _ _ s s raw) by (unfold lift, subscript; by rewrite Hraw).
  set (converted := np_matmul raw _).
  set (s1 := set_local_imu_converted (<[address := converted]> (local_imu_converted s)) s).
  rewrite (bind_run _ _ s s1 tt) by done.
  assert (Hlen : length converted = length raw) by apply length_np_matmul.
  assert (Hwidth : ∀ row, row ∈ converted → length row = 6%nat).
  { intros row Hrow. by apply np_matmul_row_width in Hrow. }
  clearbody converted.
  case_bool_decide as Hnone.
  { (* no row: the first [max] has nothing to compare *)
    destruct converted; [|simpl in Hlen; lia].
    exists s1. split; [done|]. by rewrite bool_decide_eq_true_2 by lia. }
  assert (Hrows : converted ≠ []) by (destruct converted; [simpl in Hlen; lia|done]).
  destruct (py_max_nonempty (fcolumn 3 (last_n 120 converted))) as [xmx Hxmx];
    [by apply fcolumn_nonempty, last_n_nonempty|].
  destruct (py_max_nonempty (fcolumn 4 (last_n 120 converted))) as [xmy Hxmy];
    [by apply fcolumn_nonempty, last_n_nonempty|].
  destruct (py_max_nonempty (fcolumn 5 (last_n 120 converted))) as [xmz Hxmz];
    [by apply fcolumn_nonempty, last_n_nonempty|].
  rewrite (bind_run _ _ s1 s1 xmx) by (unfold lift; by rewrite Hxmx).
  rewrite (bind_run _ _ s1 s1 xmy) by (unfold lift; by rewrite Hxmy).
  rewrite (bind_run _ _ s1 s1 xmz) by (unfold lift; by rewrite Hxmz).
  case_bool_decide as Hfew.
  - (* fewer than 119 rows: pass [length raw + 1] indexes before row 0 *)
    exists s1. split; [|done].
    apply bind_raise_run. unfold lift. f_equal.
    replace 120%nat with (S (length raw) + S (118 - length raw))%nat by lia.
    rewrite seq_app, <- (cons_seq (118 - length raw) (0 + S (length raw))).
    apply for_each_fill_raise.
    + intros j Hj%elem_of_seq. apply magnitude_at_ok; [done|done|lia].
    + apply magnitude_at_raise. simpl. lia.
  - destruct (for_each_fill_ok (magnitude_at converted) (seq 0 120)
                (replicate 120 0%float)) as (abs_xl & Hloop & Hfilled).
    { intros j Hj%elem_of_seq. apply magnitude_at_ok; [done|done|lia]. }
    rewrite (bind_run _ _ s1 s1 abs_xl) by (unfold lift; by rewrite Hloop).
    destruct (py_max_nonempty abs_xl) as [strongest Hstrongest].
    { intros ->. by rewrite length_replicate in Hfilled. }
    rewrite (bind_run _ _ s1 s1 strongest) by (unfold lift; by rewrite Hstrongest).
    eexists. split; [reflexivity|].
    eexists. split; [|reflexivity].
    destruct (12 <? strongest)%float; [by right|by left].
Qed.

Lemma imu_conversion_needs_119_rows_witness :
  let address := "F6:E0:95:D5:9C:95" in
  let s := set_local_imu_raw {[address := replicate 118 [0; 0; 0; 0; 0; 0]]}
             DataProcessing.initial in
  ∃ s', imu_conversion address s = (s', Raise IndexError) ∧
    local_activity_level s' = ∅.
Proof.
  intros address s.
  destruct (imu_conversion_needs_119_rows address s (replicate 118 [0; 0; 0; 0; 0; 0]))
    as (s' & Hrun & Hkept); [reflexivity|].
  exists s'. split; [exact Hrun|exact Hkept].
Defined.

End imu_rows.

(** ** DataProcessing: an incomplete row in a batch *)

Section ragged_batch.
Import Globals DataProcessing Spec.

Context {complex : Type}.
Variable butter_filtfilt : float → float → list Z → result (list float).
Variable fft : list float → result (list complex).
Variable np_abs : complex → float.
Variable hp_filter_signal : list Z → result (list float).
Variable hp_process : list float → result measures.
Variable bad_signal_message : string.

(** The rows of a [ppg] or [imu] notification must be complete. *)
Lemma split_value_ragged (address char : string) (cols : nat) (val : list Z)
    (s : state) :
  (char = "ppg" ∧ cols = 3%nat) ∨ (char = "imu" ∧ cols = 6%nat) →
  (length val `mod` cols ≠ 0)%nat →
  split_value address char val s = (s, Raise ValueError).
Proof.
  intros [[-> ->]|[-> ->]] Hragged; unfold split_value; simpl;
    apply bind_raise_run; unfold lift, np_reshape;
    by rewrite bool_decide_eq_false_2.
Qed.

(** X22.  When the first sample of the only batch in the raw mailbox is
    a [ppg] ([imu]) notification whose number of values is not a multiple
    of 3 (of 6), the iteration of [data_processing] raises [ValueError],
    which its guard does not catch: nothing is logged or published and
    the raw mailbox is not emptied. *)
Theorem ragged_notification_stops_the_stage (address char : string) (cols : nat)
    (val : list Z) (timestamp : Z) (rest : list raw_sample) (s : state) :
  (char = "ppg" ∧ cols = 3%nat) ∨ (char = "imu" ∧ cols = 6%nat) →
  (length val `mod` cols ≠ 0)%nat →
  unprocessed_data (globals s)
  = {[address := {| ts := timestamp; values := {[char := val]} |} :: rest]} →
  ∃ s',
    data_processing_tick butter_filtfilt fft np_abs hp_filter_signal hp_process bad_signal_message s
    = (s', Raise ValueError) ∧
    globals s' = globals s.
Proof.
  intros Hchar Hragged Hmail.
  set (first := {| ts := timestamp; values := {[char := val]} |}) in *.
  destruct (last (first :: rest)) as [final|] eqn:Hfinal;
    [|by apply last_None in Hfinal].
  exists (prepared address first final (first :: rest) s). split; [|done].
  unfold data_processing_tick.
  rewrite (bind_run _ _ s s s) by done.
  rewrite bool_decide_eq_true_2
    by (rewrite Hmail; apply insert_non_empty).
  apply bind_raise_run. rewrite Hmail, map_to_list_singleton.
  cbn [mapM]. apply bind_raise_run. cbn [fst snd].
  rewrite (process_patch_prepared _ _ _ _ _ _ address (first :: rest) first final s
             eq_refl Hfinal).
  unfold try_except.
  assert (Hrun : pipeline butter_filtfilt fft np_abs hp_filter_signal hp_process address
                   (prepared address first final (first :: rest) s)
                 = (prepared address first final (first :: rest) s, Raise ValueError)).
  { set (p := prepared address first final (first :: rest) s).
    unfold pipeline. apply bind_raise_run.
    unfold split_data.
    rewrite (bind_run _ _ p p p) by done.
    apply bind_raise_run.
    change (local_data p) with (first :: rest).
    cbn [mapM]. apply bind_raise_run.
    change (values first) with ({[char := val]} : gmap string (list Z)).
    rewrite map_to_list_singleton. cbn [mapM]. apply bind_raise_run.
    by eapply split_value_ragged. }
  by rewrite Hrun.
Qed.

End ragged_batch.

Section ragged_batch_example.
Import Globals DataProcessing Spec.

Lemma ragged_notification_stops_the_stage_witness :
  let address := "F6:E0:95:D5:9C:95" in
  let s := set_globals
             (set_unprocessed_data
                {[address := [{| ts := 1000; values := {["ppg" := [1; 2; 3; 4]]} |}]]}
                Globals.initial)
             DataProcessing.initial in
  ∃ s',
    data_processing_tick (λ (_ _ : float) (x : list Z), Ok (float_of_Z <$> x))
      (λ _ : list float, Ok (replicate 70 1%float)) (λ z : float, z)
      (λ x : list Z, Ok (float_of_Z <$> x))
      (λ _ : list float, @Raise measures BadSignalWarning)
      "Could not determine best fit for given signal." s
    = (s', Raise ValueError) ∧
    globals s' = globals s.
Proof.
  intros address s.
  apply (ragged_notification_stops_the_stage _ _ _ _ _ _ address "ppg" 3%nat
           [1; 2; 3; 4] 1000 [] s).
  - left. by split.
  - simpl. lia.
  - reflexivity.
Defined.

End ragged_batch_example.

(** ** PublishToThingsboard: what an iteration delivers *)

Section list_filters.

Lemma filter_all {A} (P : A → Prop) `{!∀ x, Decision (P x)} (l : list A) :
  Forall P l → filter P l = l.
Proof.
  induction 1 as [|x l Hx _ IH]; [done|]. by rewrite filter_cons_True, IH.
Qed.

Lemma filter_none {A} (P : A → Prop) `{!∀ x, Decision (P x)} (l : list A) :
  Forall (λ x, ¬ P x) l → filter P l = [].
Proof.
  induction 1 as [|x l Hx _ IH]; [done|]. by rewrite filter_cons_False.
Qed.

Lemma elem_of_concat {A} (x : A) (ls : list (list A)) :
  x ∈ concat ls → ∃ l, x ∈ l ∧ l ∈ ls.
Proof.
  induction ls as [|l ls IH]; simpl; [by intros ?%elem_of_nil|].
  intros [Hl|Hls]%elem_of_app.
  - exists l. split; [done|left].
  - destruct (IH Hls) as (l' & ? & ?). exists l'. split; [done|by right].
Qed.

(** Among the pieces contributed by the entries of a dictionary, the ones
    with a property that only one key's piece has are that piece. *)
Lemma filter_concat_unique {K V M} (P : M → Prop) `{!∀ m, Decision (P m)}
    (f : K * V → list M) (l : list (K * V)) (k : K) (v : V) :
  NoDup l.*1 → (k, v) ∈ l →
  Forall P (f (k, v)) →
  (∀ k' v', (k', v') ∈ l → k' ≠ k → Forall (λ m, ¬ P m) (f (k', v'))) →
  filter P (concat (f <$> l)) = f (k, v).
Proof.
  intros Hnodup Hin Hown Hothers.
  induction l as [|[k0 v0] l IH]; [by apply elem_of_nil in Hin|].
  cbn [fmap list_fmap concat] in *. rewrite filter_app.
  apply NoDup_cons in Hnodup as [Hk0 Hnodup]. simpl in Hk0.
  apply elem_of_cons in Hin as [[= <- <-]|Hin].
  - rewrite (filter_all _ _ Hown), (filter_none P (concat _)); [apply app_nil_r|].
    apply Forall_concat, Forall_fmap, Forall_forall. intros [k' v'] Hin'. simpl.
    apply Hothers; [by right|]. intros ->. apply Hk0.
    apply list_elem_of_fmap. by exists (k, v').
  - rewrite (filter_none P (f (k0, v0))), IH; [done..| |].
    + intros k' v' Hin' Hne. apply Hothers; [by right|done].
    + apply Hothers; [left|]. intros ->. apply Hk0.
      apply list_elem_of_fmap. by exists (k, v).
Qed.

End list_filters.

Section publishing_thread.
Import Globals PublishToThingsboard Spec.

Variable client_connect : string → result unit.
Variable client_publish : message → result unit.

Lemma delivered_nothing (s : state) : set_delivered (delivered s ++ []) s = s.
Proof. destruct s. unfold set_delivered. simpl. by rewrite app_nil_r. Qed.

Lemma delivered_more (new new' : list message) (s : state) :
  set_delivered (delivered (set_delivered (delivered s ++ new) s) ++ new')
    (set_delivered (delivered s ++ new) s)
  = set_delivered (delivered s ++ new ++ new') s.
Proof. unfold set_delivered. simpl. by rewrite app_assoc. Qed.

(** What a publishing step delivers and how it ends depends on the
    client and on what is to be published, not on what was delivered
    before; a client that never fails is handed everything. *)
Lemma publish_loop_frame (accesstoken : string) (data : list telemetry) :
  ∃ new r, (∀ s,
    mapM (λ datapoint : telemetry,
            lift (client_publish (telemetry_message accesstoken datapoint));;
            modify (λ s, set_delivered
                           (delivered s ++ [telemetry_message accesstoken datapoint]) s))
         data s
    = (set_delivered (delivered s ++ new) s, r)) ∧
    ((∀ m, client_publish m = Ok tt) →
     new = telemetry_message accesstoken <$> data ∧ ∃ done, r = Ok done).
Proof.
  induction data as [|datapoint data (new & r & IH & IHok)].
  - exists [], (Ok []). split; [|by eauto].
    intros s. by rewrite delivered_nothing.
  - destruct (client_publish (telemetry_message accesstoken datapoint)) as [[]|e] eqn:Hpub.
    + exists (telemetry_message accesstoken datapoint :: new),
             (k ← r; Ok (tt :: k)).
      split.
      * intros s. cbn [mapM].
        unfold mbind at 1, M_bind at 1, bind at 1.
        unfold mbind at 1, M_bind at 1, bind at 1, lift at 1. rewrite Hpub.
        unfold modify at 1. cbv beta iota.
        unfold mbind at 1, M_bind at 1, bind at 1. rewrite IH, delivered_more.
        by destruct r.
      * intros Hok. destruct (IHok Hok) as (-> & done & ->).
        split; [done|]. by eexists.
    + exists [], (Raise e). split.
      * intros s. cbn [mapM].
        unfold mbind at 1, M_bind at 1, bind at 1.
        unfold mbind at 1, M_bind at 1, bind at 1, lift at 1. rewrite Hpub.
        by rewrite delivered_nothing.
      * intros Hok. rewrite Hok in Hpub. discriminate.
Qed.

Lemma publish_telemetry_frame (accesstoken : string) (data : list telemetry) :
  ∃ new r, (∀ s,
    publish_telemetry client_connect client_publish accesstoken data s
    = (set_delivered (delivered s ++ new) s, r)) ∧
    ((∀ token, client_connect token = Ok tt) → (∀ m, client_publish m = Ok tt) →
     new = telemetry_message accesstoken <$> data ∧ r = Ok tt).
Proof.
  destruct (publish_loop_frame accesstoken data) as (new & r & Hloop & Hok).
  destruct (client_connect accesstoken) as [[]|e] eqn:Hconnect.
  - exists new, (r ≫= λ _, Ok tt). split.
    + intros s. unfold publish_telemetry.
      rewrite (bind_run _ _ s s tt) by (unfold lift; by rewrite Hconnect).
      unfold mbind at 1, M_bind at 1, bind at 1. rewrite Hloop. by destruct r.
    + intros _ Hpub. destruct (Hok Hpub) as (-> & done & ->). by split.
  - exists [], (Raise e). split.
    + intros s. unfold publish_telemetry.
      rewrite (bind_raise_run _ _ s s e) by (unfold lift; by rewrite Hconnect).
      by rewrite delivered_nothing.
    + intros Hcon. rewrite Hcon in Hconnect. discriminate.
Qed.

Lemma publish_patch_frame (g : Globals.t) (entry : string * list sample) :
  ∃ new r, (∀ s, globals s = g →
    publish_patch client_connect client_publish entry.1 entry.2 s
    = (set_delivered (delivered s ++ new) s, r)) ∧
    ((∀ token, client_connect token = Ok tt) → (∀ m, client_publish m = Ok tt) →
     new = messages_for g entry ∧ r = Ok tt).
Proof.
  unfold publish_patch, messages_for, Mapping.get_matching_device.
  destruct (patient_mapping g !! entry.1) as [accesstoken|] eqn:Hbound.
  - destruct (decide (accesstoken = "")) as [->|Hne].
    + exists [], (Ok tt). split; [|done].
      intros s <-. rewrite (bind_run _ _ s s s) by done.
      rewrite Hbound. simpl. by rewrite delivered_nothing.
    + destruct (publish_telemetry_frame accesstoken
                  match connected_devices g !! entry.1 with
                  | Some version => (Datapoint <$> entry.2) ++ [FirmwareVersion version]
                  | None => Datapoint <$> entry.2
                  end) as (new & r & Hrun & Hok).
      exists new, r. split.
      * intros s <-. rewrite (bind_run _ _ s s s) by done.
        rewrite Hbound. rewrite bool_decide_eq_true_2 by done. apply Hrun.
      * intros Hcon Hpub. destruct (Hok Hcon Hpub) as [-> ->]. split; [|done].
        rewrite bool_decide_eq_true_2 by done.
        destruct (connected_devices g !! entry.1); [done|by rewrite app_nil_r].
  - exists [], (Ok tt). split; [|done].
    intros s <-. rewrite (bind_run _ _ s s s) by done.
    rewrite Hbound. by rewrite delivered_nothing.
Qed.

Lemma publish_patches_frame (g : Globals.t) (entries : list (string * list sample)) :
  ∃ new r, (∀ s, globals s = g →
    mapM (λ entry : string * list sample,
            publish_patch client_connect client_publish entry.1 entry.2)
         entries s
    = (set_delivered (delivered s ++ new) s, r)) ∧
    ((∀ token, client_connect token = Ok tt) → (∀ m, client_publish m = Ok tt) →
     new = concat (messages_for g <$> entries) ∧ ∃ done, r = Ok done).
Proof.
  induction entries as [|entry entries (new' & r' & IH & IHok)].
  - exists [], (Ok []). split; [|by eauto].
    intros s _. by rewrite delivered_nothing.
  - destruct (publish_patch_frame g entry) as (new & r & Hrun & Hok).
    destruct r as [[]|e].
    + exists (new ++ new'), (k ← r'; Ok (tt :: k)). split.
      * intros s Hg. cbn [mapM].
        rewrite (bind_run _ _ _ _ _ (Hrun s Hg)).
        unfold mbind at 1, M_bind at 1, bind at 1.
        rewrite IH by done. rewrite delivered_more. by destruct r'.
      * intros Hcon Hpub. destruct (Hok Hcon Hpub) as [-> _].
        destruct (IHok Hcon Hpub) as (-> & done & ->). split; [done|]. by eexists.
    + exists new, (Raise e). split.
      * intros s Hg. cbn [mapM]. by rewrite (bind_raise_run _ _ _ _ _ (Hrun s Hg)).
      * intros Hcon Hpub. by destruct (Hok Hcon Hpub) as [_ ?].
Qed.

Lemma cleared_already (g : Globals.t) :
  processed_data g = ∅ → set_processed_data ∅ g = g.
Proof. destruct g. simpl. by intros ->. Qed.

(** X23.  Whatever the MQTT client does, an iteration of
    [publishing_loop] leaves [processed_data] empty and the rest of the
    shared store as it was, and only adds to the delivered messages: what
    could not be published is not kept. *)
Theorem publishing_pass_empties_mailbox (s : state) :
  ∃ new r,
    publishing_pass client_connect client_publish s
    = ({| globals := set_processed_data ∅ (globals s);
          delivered := delivered s ++ new |}, r).
Proof.
  unfold publishing_pass. rewrite (bind_run _ _ s s s) by done.
  case_bool_decide as Hmail.
  - exists [], (Ok tt). rewrite (cleared_already _ Hmail), app_nil_r. by destruct s.
  - set (s1 := set_globals (set_processed_data ∅ (globals s)) s).
    destruct (publish_patches_frame (globals s1) (map_to_list (processed_data (globals s))))
      as (new & r & Hrun & _).
    exists new, (r ≫= λ _, Ok tt).
    rewrite (bind_run _ _ s s1 tt) by done.
    unfold mbind at 1, M_bind at 1, bind at 1. rewrite Hrun by done.
    by destruct r.
Qed.

(** X24.  With a client that does not fail and no patient bound to two
    patches, an iteration of [publishing_loop] returns and, for every
    patch of the mailbox bound to a patient with a non-empty name, the
    messages delivered under that patient's token are the patch's
    datapoints in order, followed by its firmware version if the patch is
    connected.  Every delivered message carries the token of a patient
    bound to a patch of the mailbox: nothing is published for the
    others. *)
Theorem publishing_pass_delivers_per_patient (s : state) :
  (∀ token, client_connect token = Ok tt) →
  (∀ m, client_publish m = Ok tt) →
  one_patch_per_patient (patient_mapping (globals s)) →
  ∃ new,
    publishing_pass client_connect client_publish s
    = ({| globals := set_processed_data ∅ (globals s);
          delivered := delivered s ++ new |}, Ok tt) ∧
    (∀ macAddress data accesstoken,
       processed_data (globals s) !! macAddress = Some data →
       patient_mapping (globals s) !! macAddress = Some accesstoken →
       accesstoken ≠ "" →
       filter (λ m, access_token m = accesstoken) new
       = telemetry_message accesstoken
           <$> ((Datapoint <$> data)
                ++ match connected_devices (globals s) !! macAddress with
                   | Some version => [FirmwareVersion version]
                   | None => []
                   end)) ∧
    (∀ m, m ∈ new →
          ∃ macAddress, is_Some (processed_data (globals s) !! macAddress) ∧
            patient_mapping (globals s) !! macAddress = Some (access_token m)).
Proof.
  intros Hcon Hpub Hone.
  set (entries := map_to_list (processed_data (globals s))).
  assert (Hrun : ∃ new,
    publishing_pass client_connect client_publish s
    = ({| globals := set_processed_data ∅ (globals s);
          delivered := delivered s ++ new |}, Ok tt) ∧
    new = concat (messages_for (globals s) <$> entries)).
  { unfold publishing_pass. rewrite (bind_run _ _ s s s) by done.
    case_bool_decide as Hmail.
    - exists []. split.
      + rewrite (cleared_already _ Hmail), app_nil_r. by destruct s.
      + subst entries. by rewrite Hmail, map_to_list_empty.
    - set (s1 := set_globals (set_processed_data ∅ (globals s)) s).
      destruct (publish_patches_frame (globals s1) entries) as (new & r & Hrun & Hok).
      destruct (Hok Hcon Hpub) as (Hnew & done & ->).
      exists new. split; [|exact Hnew].
      rewrite (bind_run _ _ s s1 tt) by done.
      unfold mbind at 1, M_bind at 1, bind at 1. by rewrite Hrun. }
  destruct Hrun as (new & Hrun & ->). eexists. split; [exact Hrun|]. split.
  - intros macAddress data accesstoken Hdata Hbound Hne.
    rewrite (filter_concat_unique _ (messages_for (globals s)) entries macAddress data).
    + unfold messages_for. simpl. rewrite Hbound. by rewrite bool_decide_eq_true_2.
    + apply NoDup_fst_map_to_list.
    + by apply elem_of_map_to_list.
    + unfold messages_for. simpl. rewrite Hbound, bool_decide_eq_true_2 by done.
      apply Forall_fmap, Forall_forall. by intros x _.
    + intros mac' data' _ Hother. unfold messages_for. simpl.
      destruct (patient_mapping (globals s) !! mac') as [token'|] eqn:Hbound';
        [|constructor].
      case_bool_decide; [|constructor].
      apply Forall_fmap, Forall_forall. intros x _. simpl. intros ->.
      apply Hother. by eapply Hone.
  - intros m (messages & Hm & Hin)%elem_of_concat.
    apply list_elem_of_fmap in Hin as ([macAddress data] & -> & Hentry).
    apply elem_of_map_to_list in Hentry. exists macAddress. split; [by eexists|].
    unfold messages_for in Hm. simpl in Hm.
    destruct (patient_mapping (globals s) !! macAddress) as [token|];
      [|by apply elem_of_nil in Hm].
    case_bool_decide; [|by apply elem_of_nil in Hm].
    by apply list_elem_of_fmap in Hm as (x & -> & _).
Qed.

End publishing_thread.

Section publishing_thread_example.
Import Globals PublishToThingsboard Spec.

Lemma publishing_pass_delivers_per_patient_witness :
  let address := "F6:E0:95:D5:9C:95" in
  let s := {| globals := set_processed_data
                           {[address := [Raw {| ts := 1000; values := ∅ |}]]}
                           (set_patient_mapping {[address := "P1"]} Globals.initial);
              delivered := [] |} in
  ∃ new,
    publishing_pass (λ _, Ok tt) (λ _, Ok tt) s
    = ({| globals := set_processed_data ∅ (globals s); delivered := new |}, Ok tt) ∧
    filter (λ m, access_token m = "P1") new
    = [telemetry_message "P1" (Datapoint (Raw {| ts := 1000; values := ∅ |}))].
Proof.
  intros address s.
  destruct (publishing_pass_delivers_per_patient (λ _, Ok tt) (λ _, Ok tt) s)
    as (new & Hrun & Hpatient & _).
  - done.
  - done.
  - intros patch patch' patient Hpatch Hpatch'. simpl in Hpatch, Hpatch'.
    apply lookup_singleton_Some in Hpatch as [<- _].
    by apply lookup_singleton_Some in Hpatch' as [<- _].
  - exists new. split; [exact Hrun|].
    by rewrite (Hpatient address [Raw {| ts := 1000; values := ∅ |}] "P1").
Defined.

End publishing_thread_example.

(** ** The raw publisher and the local loggers *)

Section raw_publishing.
Import Globals PublishToThingsboard Spec.

Variable client_connect : string → result unit.
Variable client_publish : message → result unit.

Lemma publish_raw_patch_frame (g : Globals.t) (entry : string * list raw_sample) :
  ∃ new r, ∀ s, globals s = g →
    publish_raw_patch client_connect client_publish entry.1 entry.2 s
    = (set_delivered (delivered s ++ new) s, r).
Proof.
  unfold publish_raw_patch, Mapping.get_matching_device.
  destruct (patient_mapping g !! entry.1) as [accesstoken|] eqn:Hbound.
  - destruct (decide (accesstoken = "")) as [->|Hne].
    + exists [], (Ok tt).
      intros s <-. rewrite (bind_run _ _ s s s) by done.
      rewrite Hbound. simpl. by rewrite delivered_nothing.
    + destruct (publish_telemetry_frame client_connect client_publish
                  (accesstoken +:+ " Raw Data")
                  ((λ x : raw_sample, Datapoint (Raw x)) <$> entry.2))
        as (new & r & Hrun & _).
      exists new, r.
      intros s <-. rewrite (bind_run _ _ s s s) by done.
      rewrite Hbound. rewrite bool_decide_eq_true_2 by done. apply Hrun.
  - exists [], (Ok tt).
    intros s <-. rewrite (bind_run _ _ s s s) by done.
    rewrite Hbound. by rewrite delivered_nothing.
Qed.

Lemma publish_raw_patches_frame (g : Globals.t)
    (entries : list (string * list raw_sample)) :
  ∃ new r, ∀ s, globals s = g →
    mapM (λ entry : string * list raw_sample,
            publish_raw_patch client_connect client_publish entry.1 entry.2)
         entries s
    = (set_delivered (delivered s ++ new) s, r).
Proof.
  induction entries as [|entry entries (new' & r' & IH)].
  - exists [], (Ok []). intros s _. by rewrite delivered_nothing.
  - destruct (publish_raw_patch_frame g entry) as (new & r & Hrun).
    destruct r as [[]|e].
    + exists (new ++ new'), (k ← r'; Ok (tt :: k)).
      intros s Hg. cbn [mapM].
      rewrite (bind_run _ _ _ _ _ (Hrun s Hg)).
      unfold mbind at 1, M_bind at 1, bind at 1.
      rewrite IH by done. rewrite delivered_more. by destruct r'.
    + exists new, (Raise e).
      intros s Hg. cbn [mapM]. by rewrite (bind_raise_run _ _ _ _ _ (Hrun s Hg)).
Qed.

Lemma raw_data_publishing_pass_frame (g : Globals.t) :
  ∃ new r, ∀ s, globals s = g →
    raw_data_publishing_pass client_connect client_publish s
    = (set_delivered (delivered s ++ new) s, r).
Proof.
  destruct (publish_raw_patches_frame g (map_to_list (unprocessed_data g)))
    as (new & r & Hrun).
  destruct (decide (unprocessed_data g = ∅)) as [Hmail|Hmail].
  - exists [], (Ok tt). intros s <-. unfold raw_data_publishing_pass.
    rewrite (bind_run _ _ s s s) by done.
    rewrite bool_decide_eq_true_2 by done. by rewrite delivered_nothing.
  - exists new, (r ≫= λ _, Ok tt). intros s <-. unfold raw_data_publishing_pass.
    rewrite (bind_run _ _ s s s) by done.
    rewrite bool_decide_eq_false_2 by done.
    unfold mbind at 1, M_bind at 1, bind at 1. rewrite Hrun by done. by destruct r.
Qed.

(** X25.  An iteration of [raw_data_publishing_loop] leaves the shared
    store as it was, the raw mailbox included, and only adds to the
    delivered messages.  So a second iteration on the same store delivers
    the same messages once more. *)
Theorem raw_data_publishing_repeats (s : state) :
  ∃ new r,
    raw_data_publishing_pass client_connect client_publish s
    = ({| globals := globals s; delivered := delivered s ++ new |}, r) ∧
    (raw_data_publishing_pass client_connect client_publish;;
     raw_data_publishing_pass client_connect client_publish) s
    = ({| globals := globals s;
          delivered := delivered s ++ new ++ match r with Ok _ => new | Raise _ => [] end |},
       r).
Proof.
  destruct (raw_data_publishing_pass_frame (globals s)) as (new & r & Hrun).
  exists new, r. split; [by apply Hrun|].
  destruct r as [[]|e].
  - rewrite (bind_run _ _ _ _ _ (Hrun s eq_refl)).
    rewrite Hrun by done. by rewrite delivered_more.
  - rewrite (bind_raise_run _ _ _ _ _ (Hrun s eq_refl)). by rewrite app_nil_r.
Qed.

End raw_publishing.

Section local_logging.
Import Globals SaveLocally Spec.

Variable open_append : string → result unit.

(** What [write_log] does once the file is open. *)
Lemma write_log_run (data : gmap string (list sample)) (log_filepath mac_address : string)
    (s : state) :
  let file_name := log_filepath +:+ mac_address +:+ ".csv" in
  let rows := default [] (files s !! file_name) in
  open_append file_name = Ok tt →
  write_log open_append data log_filepath mac_address s
  = if bool_decide (filter (λ key, key ≠ mac_address) (map_to_list data).*1 ≠ [])
    then (set_files (<[file_name := rows]> (files s)) s, Raise ValueError)
    else (set_files (<[file_name := rows ++ [data !! mac_address]]> (files s)) s, Ok tt).
Proof.
  intros file_name rows Hopen. unfold write_log. cbv zeta. fold file_name.
  rewrite (bind_run _ _ s s tt) by (unfold lift; by rewrite Hopen).
  rewrite (bind_run _ _ s (set_files (<[file_name := rows]> (files s)) s) tt) by done.
  case_bool_decide; [done|].
  unfold modify, set_files. simpl. rewrite lookup_insert_eq. simpl.
  by rewrite insert_insert_eq.
Qed.

(** X26.  With exactly one patch in [processed_data], an iteration of
    [local_logging_loop] returns: the mailbox is emptied and one row, the
    patch's datapoints, is appended to the patch's file in the backup
    directory. *)
Theorem local_logging_single_patch (mac_address : string) (data : list sample)
    (s : state) :
  let file_name := BACKUP_LOG_PATH +:+ mac_address +:+ ".csv" in
  processed_data (globals s) = {[mac_address := data]} →
  open_append file_name = Ok tt →
  local_logging_pass open_append s
  = ({| globals := set_processed_data ∅ (globals s);
        files := <[file_name := default [] (files s !! file_name) ++ [Some data]]>
                   (files s) |}, Ok tt).
Proof.
  intros file_name Hmail Hopen. unfold local_logging_pass.
  rewrite (bind_run _ _ s s s) by done.
  rewrite bool_decide_eq_false_2 by (rewrite Hmail; apply insert_non_empty).
  set (s1 := set_globals (set_processed_data ∅ (globals s)) s).
  rewrite (bind_run _ _ s s1 tt) by done.
  rewrite Hmail, map_to_list_singleton. cbn [fmap list_fmap fst mapM].
  assert (Hlog : write_log open_append {[mac_address := data]} BACKUP_LOG_PATH
                   mac_address s1
                 = (set_files (<[file_name := default [] (files s1 !! file_name)
                                              ++ [Some data]]> (files s1)) s1, Ok tt)).
  { rewrite write_log_run by done. rewrite map_to_list_singleton.
    cbn [fmap list_fmap fst]. rewrite filter_cons_False by (by intros ?).
    rewrite filter_nil, bool_decide_eq_false_2 by (by intros ?).
    by rewrite lookup_singleton_eq. }
  by rewrite (bind_run _ _ _ _ _ (bind_run _ _ _ _ _ Hlog)).
Qed.

(** X27.  With two or more patches in [processed_data], an iteration of
    [local_logging_loop] raises [ValueError] at the first patch (the row
    handed to the writer has keys that are no field name): the mailbox
    has been emptied and no row has been written to any file. *)
Theorem local_logging_several_patches (mac_address mac_address' : string) (s : state) :
  mac_address ≠ mac_address' →
  is_Some (processed_data (globals s) !! mac_address) →
  is_Some (processed_data (globals s) !! mac_address') →
  (∀ file_name, open_append file_name = Ok tt) →
  ∃ s', local_logging_pass open_append s = (s', Raise ValueError) ∧
    globals s' = set_processed_data ∅ (globals s) ∧
    ∀ file_name, default [] (files s' !! file_name) = default [] (files s !! file_name).
Proof.
  intros Hne [data Hdata] [data' Hdata'] Hopen. unfold local_logging_pass.
  rewrite (bind_run _ _ s s s) by done.
  rewrite bool_decide_eq_false_2
    by (intros Hmail; by rewrite Hmail, lookup_empty in Hdata).
  set (s1 := set_globals (set_processed_data ∅ (globals s)) s).
  rewrite (bind_run _ _ s s1 tt) by done.
  set (local_data := processed_data (globals s)) in *.
  destruct (map_to_list local_data) as [|[first first_data] entries] eqn:Hentries.
  { apply map_to_list_empty_iff in Hentries. by rewrite Hentries, lookup_empty in Hdata. }
  cbn [fmap list_fmap fst mapM].
  set (file_name := BACKUP_LOG_PATH +:+ first +:+ ".csv").
  eexists. split.
  - apply bind_raise_run, bind_raise_run.
    rewrite write_log_run by done. rewrite Hentries.
    rewrite bool_decide_eq_true_2; [reflexivity|].
    assert (∃ other, other ≠ first ∧ is_Some (local_data !! other)) as (other & Hother & Hin).
    { destruct (decide (mac_address = first)) as [<-|];
        [exists mac_address'|exists mac_address]; split; by eauto. }
    destruct Hin as [other_data Hin%elem_of_map_to_list]. rewrite Hentries in Hin.
    intros Hnone.
    assert (other ∈ filter (λ key, key ≠ first) ((first, first_data) :: entries).*1)
      as Hwrong.
    { apply list_elem_of_filter. split; [done|].
      apply list_elem_of_fmap. by exists (other, other_data). }
    rewrite Hnone in Hwrong. by apply elem_of_nil in Hwrong.
  - split; [done|]. intros f. simpl.
    destruct (decide (f = file_name)) as [->|Hf].
    + by rewrite lookup_insert_eq.
    + by rewrite lookup_insert_ne.
Qed.

(** X28.  [raw_data_logging_loop] does not empty the raw mailbox: with
    one patch in it, two iterations in a row append the same row twice to
    the patch's file in the raw directory and leave the shared store as
    it was. *)
Theorem raw_data_logging_repeats (mac_address : string) (samples : list raw_sample)
    (s : state) :
  let file_name := RAW_LOG_PATH +:+ mac_address +:+ ".csv" in
  let written := Some (Raw <$> samples) in
  unprocessed_data (globals s) = {[mac_address := samples]} →
  open_append file_name = Ok tt →
  (raw_data_logging_pass open_append;; raw_data_logging_pass open_append) s
  = ({| globals := globals s;
        files := <[file_name := default [] (files s !! file_name) ++ [written; written]]>
                   (files s) |}, Ok tt).
Proof.
  intros file_name written Hmail Hopen.
  assert (Hpass : ∀ s0, globals s0 = globals s →
    raw_data_logging_pass open_append s0
    = ({| globals := globals s;
          files := <[file_name := default [] (files s0 !! file_name) ++ [written]]>
                     (files s0) |}, Ok tt)).
  { intros s0 Hg. unfold raw_data_logging_pass.
    rewrite (bind_run _ _ s0 s0 s0) by done. rewrite Hg, Hmail.
    rewrite bool_decide_eq_false_2 by apply insert_non_empty.
    cbv zeta. rewrite map_fmap_singleton, map_to_list_singleton.
    cbn [fmap list_fmap fst mapM].
    assert (Hlog : write_log open_append {[mac_address := Raw <$> samples]} RAW_LOG_PATH
                     mac_address s0
                   = (set_files (<[file_name := default [] (files s0 !! file_name)
                                                ++ [written]]> (files s0)) s0, Ok tt)).
    { rewrite write_log_run by done. rewrite map_to_list_singleton.
      cbn [fmap list_fmap fst]. rewrite filter_cons_False by (by intros ?).
      rewrite filter_nil, bool_decide_eq_false_2 by (by intros ?).
      by rewrite lookup_singleton_eq. }
    rewrite (bind_run _ _ _ _ _ (bind_run _ _ _ _ _ Hlog)).
    unfold set_files. simpl. by rewrite Hg. }
  rewrite (bind_run _ _ _ _ _ (Hpass s eq_refl)).
  rewrite Hpass by done. simpl. rewrite lookup_insert_eq. simpl.
  by rewrite insert_insert_eq, <- app_assoc.
Qed.

End local_logging.

Section local_logging_examples.
Import Globals SaveLocally Spec.

Lemma local_logging_single_patch_witness :
  let s := {| globals := set_processed_data {["F6:E0:95:D5:9C:95" := []]} Globals.initial;
              files := ∅ |} in
  local_logging_pass (λ _, Ok tt) s
  = ({| globals := Globals.initial;
        files := {["Logs/BackupData/F6:E0:95:D5:9C:95.csv" := [Some []]]} |}, Ok tt).
Proof.
  intros s.
  exact (local_logging_single_patch (λ _, Ok tt) "F6:E0:95:D5:9C:95" [] s
           eq_refl eq_refl).
Defined.

Lemma local_logging_several_patches_witness :
  let s := {| globals := set_processed_data {["AA:01" := []; "AA:02" := []]} Globals.initial;
              files := ∅ |} in
  ∃ s', local_logging_pass (λ _, Ok tt) s = (s', Raise ValueError) ∧
    globals s' = Globals.initial.
Proof.
  intros s.
  destruct (local_logging_several_patches (λ _, Ok tt) "AA:01" "AA:02" s)
    as (s' & Hrun & Hglobals & _).
  - done.
  - by eexists.
  - by eexists.
  - done.
  - exists s'. split; [exact Hrun|exact Hglobals].
Defined.

Lemma raw_data_logging_repeats_witness :
  let s := {| globals := set_unprocessed_data {["F6:E0:95:D5:9C:95" := []]} Globals.initial;
              files := ∅ |} in
  (raw_data_logging_pass (λ _, Ok tt);; raw_data_logging_pass (λ _, Ok tt)) s
  = ({| globals := globals s;
        files := {["Logs/RawData/F6:E0:95:D5:9C:95.csv" := [Some []; Some []]]} |}, Ok tt).
Proof.
  intros s.
  exact (raw_data_logging_repeats (λ _, Ok tt) "F6:E0:95:D5:9C:95" [] s eq_refl eq_refl).
Defined.

End local_logging_examples.
